(** * The flow package of gopkg: DAG construction, validation and execution

    A shallow embedding of [libary/flow/dag.go], [libary/flow/node.go] and
    the scheduler of [flow.go], followed by the properties of the
    specification that hold of it and the inputs on which the others fail.

    Go pointers ([*Node], [*Dag]) are addresses into a store that only
    grows; a nullable pointer is an [option].  Every node a graph mentions is
    reached through such an address, so two slices that hold the same node
    see each other's updates, exactly as in the source. *)

From Stdlib Require Import ZArith Lia.
From stdpp Require Import base option list gmap strings pretty fin_maps.

Open Scope Z_scope.

(** ** Machine integers *)

(** Go's [int] on the supported platforms is a 64-bit two's complement
    integer; [++] and [--] wrap. *)
Definition wrap64 (z : Z) : Z := (z + 2 ^ 63) `mod` 2 ^ 64 - 2 ^ 63.
Definition int_incr (z : Z) : Z := wrap64 (z + 1).
Definition int_decr (z : Z) : Z := wrap64 (z - 1).

(** ** Errors of dag.go *)

Inductive error : Type :=
  | ErrNoVertex
  | ErrCyclic
  | ErrDuplicateEdge
  | ErrDuplicateVertex
  | ErrMultipleStart
  | ErrRecursiveDep
  (* fmt.Errorf("%v, flow: %s", ErrMultipleStart, dag.Id) *)
  | ErrMultipleStartIn (flowId : string)
  (* an error value made by a node's task *)
  | TaskError (msg : string).

#[global] Instance error_eq_dec : EqDecision error.
Proof. solve_decision. Defined.

(** ** Function types of dag.go *)

Definition bytes := list Byte.byte.
Definition Aggregator := gmap string bytes → bytes * option error.
Definition Forwarder := bytes → bytes.
Definition ForEach := bytes → gmap string bytes.
Definition Condition := bytes → list string.

Definition DefaultForwarder : Forwarder := fun data => data.

(** Modelled from the spec: the [Operation] interface and [BlankOperation]
    are declared in a file of the package that is not part of the sources at
    hand; the graph code only stores operations and builds one
    [&BlankOperation{}] for the synthetic exit node. *)
Inductive Operation : Type :=
  | BlankOperation
  | UserOperation (name : string).

(** ** Shared run state (dataset.go) *)

Definition Value := string.
Definition DataSet := gmap string Value.

Definition NewDataSet : DataSet := ∅.
Definition DataSet_Set (key : string) (data : Value) (ds : DataSet) : DataSet :=
  <[key := data]> ds.
Definition DataSet_Get (key : string) (ds : DataSet) : Value * bool :=
  match ds !! key with
  | Some v => (v, true)
  | None => (""%string, false)
  end.

(** The [Task] interface: a name and a body that may write the run state and
    returns an error or nil. *)
Record Task : Type := mkTask {
  NodeName : string;
  taskRun : DataSet → DataSet * option error
}.

(** ** Nodes and graphs *)

Definition nptr := nat.
Definition dptr := nat.

Record Node : Type := mkNode {
  Id : string;
  index : Z;
  uniqueId : string;
  subDag : option dptr;
  conditionalDags : gmap string dptr;
  operations : list Operation;
  dynamic : bool;
  aggregator : option Aggregator;
  foreach : option ForEach;
  condition : option Condition;
  subAggregator : option Aggregator;
  forwarder : gmap string (option Forwarder);
  task : option Task;
  parentDag : dptr;
  indegree : Z;
  dynamicIndegree : Z;
  outdegree : Z;
  children : list nptr;
  dependsOn : list nptr;
  next : list nptr;
  prev : list nptr
}.

Record Dag : Type := mkDag {
  DagId : string;
  nodes : gmap string nptr;
  parentNode : option nptr;
  initialNode : option nptr;
  endNode : option nptr;
  hasBranch : bool;
  hasEdge : bool;
  validated : bool;
  executionFlow : bool;
  dataForwarderCount : Z;
  nodeIndex : Z
}.

(** Field assignments. *)

Definition set_uniqueId (v : string) (n : Node) : Node :=
  mkNode (Id n) (index n) v (subDag n) (conditionalDags n) (operations n)
    (dynamic n) (aggregator n) (foreach n) (condition n) (subAggregator n)
    (forwarder n) (task n) (parentDag n) (indegree n) (dynamicIndegree n)
    (outdegree n) (children n) (dependsOn n) (next n) (prev n).
Definition set_subDag (v : option dptr) (n : Node) : Node :=
  mkNode (Id n) (index n) (uniqueId n) v (conditionalDags n) (operations n)
    (dynamic n) (aggregator n) (foreach n) (condition n) (subAggregator n)
    (forwarder n) (task n) (parentDag n) (indegree n) (dynamicIndegree n)
    (outdegree n) (children n) (dependsOn n) (next n) (prev n).
Definition set_conditionalDags (v : gmap string dptr) (n : Node) : Node :=
  mkNode (Id n) (index n) (uniqueId n) (subDag n) v (operations n)
    (dynamic n) (aggregator n) (foreach n) (condition n) (subAggregator n)
    (forwarder n) (task n) (parentDag n) (indegree n) (dynamicIndegree n)
    (outdegree n) (children n) (dependsOn n) (next n) (prev n).
Definition set_operations (v : list Operation) (n : Node) : Node :=
  mkNode (Id n) (index n) (uniqueId n) (subDag n) (conditionalDags n) v
    (dynamic n) (aggregator n) (foreach n) (condition n) (subAggregator n)
    (forwarder n) (task n) (parentDag n) (indegree n) (dynamicIndegree n)
    (outdegree n) (children n) (dependsOn n) (next n) (prev n).
Definition set_dynamic (v : bool) (n : Node) : Node :=
  mkNode (Id n) (index n) (uniqueId n) (subDag n) (conditionalDags n)
    (operations n) v (aggregator n) (foreach n) (condition n)
    (subAggregator n) (forwarder n) (task n) (parentDag n) (indegree n)
    (dynamicIndegree n) (outdegree n) (children n) (dependsOn n) (next n)
    (prev n).
Definition set_aggregator (v : option Aggregator) (n : Node) : Node :=
  mkNode (Id n) (index n) (uniqueId n) (subDag n) (conditionalDags n)
    (operations n) (dynamic n) v (foreach n) (condition n)
    (subAggregator n) (forwarder n) (task n) (parentDag n) (indegree n)
    (dynamicIndegree n) (outdegree n) (children n) (dependsOn n) (next n)
    (prev n).
Definition set_foreach (v : option ForEach) (n : Node) : Node :=
  mkNode (Id n) (index n) (uniqueId n) (subDag n) (conditionalDags n)
    (operations n) (dynamic n) (aggregator n) v (condition n)
    (subAggregator n) (forwarder n) (task n) (parentDag n) (indegree n)
    (dynamicIndegree n) (outdegree n) (children n) (dependsOn n) (next n)
    (prev n).
Definition set_condition (v : option Condition) (n : Node) : Node :=
  mkNode (Id n) (index n) (uniqueId n) (subDag n) (conditionalDags n)
    (operations n) (dynamic n) (aggregator n) (foreach n) v
    (subAggregator n) (forwarder n) (task n) (parentDag n) (indegree n)
    (dynamicIndegree n) (outdegree n) (children n) (dependsOn n) (next n)
    (prev n).
Definition set_subAggregator (v : option Aggregator) (n : Node) : Node :=
  mkNode (Id n) (index n) (uniqueId n) (subDag n) (conditionalDags n)
    (operations n) (dynamic n) (aggregator n) (foreach n) (condition n) v
    (forwarder n) (task n) (parentDag n) (indegree n) (dynamicIndegree n)
    (outdegree n) (children n) (dependsOn n) (next n) (prev n).
Definition set_forwarder (v : gmap string (option Forwarder)) (n : Node) : Node :=
  mkNode (Id n) (index n) (uniqueId n) (subDag n) (conditionalDags n)
    (operations n) (dynamic n) (aggregator n) (foreach n) (condition n)
    (subAggregator n) v (task n) (parentDag n) (indegree n)
    (dynamicIndegree n) (outdegree n) (children n) (dependsOn n) (next n)
    (prev n).
Definition set_task (v : option Task) (n : Node) : Node :=
  mkNode (Id n) (index n) (uniqueId n) (subDag n) (conditionalDags n)
    (operations n) (dynamic n) (aggregator n) (foreach n) (condition n)
    (subAggregator n) (forwarder n) v (parentDag n) (indegree n)
    (dynamicIndegree n) (outdegree n) (children n) (dependsOn n) (next n)
    (prev n).
Definition set_indegree (v : Z) (n : Node) : Node :=
  mkNode (Id n) (index n) (uniqueId n) (subDag n) (conditionalDags n)
    (operations n) (dynamic n) (aggregator n) (foreach n) (condition n)
    (subAggregator n) (forwarder n) (task n) (parentDag n) v
    (dynamicIndegree n) (outdegree n) (children n) (dependsOn n) (next n)
    (prev n).
Definition set_dynamicIndegree (v : Z) (n : Node) : Node :=
  mkNode (Id n) (index n) (uniqueId n) (subDag n) (conditionalDags n)
    (operations n) (dynamic n) (aggregator n) (foreach n) (condition n)
    (subAggregator n) (forwarder n) (task n) (parentDag n) (indegree n) v
    (outdegree n) (children n) (dependsOn n) (next n) (prev n).
Definition set_outdegree (v : Z) (n : Node) : Node :=
  mkNode (Id n) (index n) (uniqueId n) (subDag n) (conditionalDags n)
    (operations n) (dynamic n) (aggregator n) (foreach n) (condition n)
    (subAggregator n) (forwarder n) (task n) (parentDag n) (indegree n)
    (dynamicIndegree n) v (children n) (dependsOn n) (next n) (prev n).
Definition set_children (v : list nptr) (n : Node) : Node :=
  mkNode (Id n) (index n) (uniqueId n) (subDag n) (conditionalDags n)
    (operations n) (dynamic n) (aggregator n) (foreach n) (condition n)
    (subAggregator n) (forwarder n) (task n) (parentDag n) (indegree n)
    (dynamicIndegree n) (outdegree n) v (dependsOn n) (next n) (prev n).
Definition set_dependsOn (v : list nptr) (n : Node) : Node :=
  mkNode (Id n) (index n) (uniqueId n) (subDag n) (conditionalDags n)
    (operations n) (dynamic n) (aggregator n) (foreach n) (condition n)
    (subAggregator n) (forwarder n) (task n) (parentDag n) (indegree n)
    (dynamicIndegree n) (outdegree n) (children n) v (next n) (prev n).
Definition set_next (v : list nptr) (n : Node) : Node :=
  mkNode (Id n) (index n) (uniqueId n) (subDag n) (conditionalDags n)
    (operations n) (dynamic n) (aggregator n) (foreach n) (condition n)
    (subAggregator n) (forwarder n) (task n) (parentDag n) (indegree n)
    (dynamicIndegree n) (outdegree n) (children n) (dependsOn n) v (prev n).
Definition set_prev (v : list nptr) (n : Node) : Node :=
  mkNode (Id n) (index n) (uniqueId n) (subDag n) (conditionalDags n)
    (operations n) (dynamic n) (aggregator n) (foreach n) (condition n)
    (subAggregator n) (forwarder n) (task n) (parentDag n) (indegree n)
    (dynamicIndegree n) (outdegree n) (children n) (dependsOn n) (next n) v.

Definition set_DagId (v : string) (g : Dag) : Dag :=
  mkDag v (nodes g) (parentNode g) (initialNode g) (endNode g) (hasBranch g)
    (hasEdge g) (validated g) (executionFlow g) (dataForwarderCount g)
    (nodeIndex g).
Definition set_nodes (v : gmap string nptr) (g : Dag) : Dag :=
  mkDag (DagId g) v (parentNode g) (initialNode g) (endNode g) (hasBranch g)
    (hasEdge g) (validated g) (executionFlow g) (dataForwarderCount g)
    (nodeIndex g).
Definition set_parentNode (v : option nptr) (g : Dag) : Dag :=
  mkDag (DagId g) (nodes g) v (initialNode g) (endNode g) (hasBranch g)
    (hasEdge g) (validated g) (executionFlow g) (dataForwarderCount g)
    (nodeIndex g).
Definition set_initialNode (v : option nptr) (g : Dag) : Dag :=
  mkDag (DagId g) (nodes g) (parentNode g) v (endNode g) (hasBranch g)
    (hasEdge g) (validated g) (executionFlow g) (dataForwarderCount g)
    (nodeIndex g).
Definition set_endNode (v : option nptr) (g : Dag) : Dag :=
  mkDag (DagId g) (nodes g) (parentNode g) (initialNode g) v (hasBranch g)
    (hasEdge g) (validated g) (executionFlow g) (dataForwarderCount g)
    (nodeIndex g).
Definition set_hasBranch (v : bool) (g : Dag) : Dag :=
  mkDag (DagId g) (nodes g) (parentNode g) (initialNode g) (endNode g) v
    (hasEdge g) (validated g) (executionFlow g) (dataForwarderCount g)
    (nodeIndex g).
Definition set_hasEdge (v : bool) (g : Dag) : Dag :=
  mkDag (DagId g) (nodes g) (parentNode g) (initialNode g) (endNode g)
    (hasBranch g) v (validated g) (executionFlow g) (dataForwarderCount g)
    (nodeIndex g).
Definition set_validated (v : bool) (g : Dag) : Dag :=
  mkDag (DagId g) (nodes g) (parentNode g) (initialNode g) (endNode g)
    (hasBranch g) (hasEdge g) v (executionFlow g) (dataForwarderCount g)
    (nodeIndex g).
Definition set_executionFlow (v : bool) (g : Dag) : Dag :=
  mkDag (DagId g) (nodes g) (parentNode g) (initialNode g) (endNode g)
    (hasBranch g) (hasEdge g) (validated g) v (dataForwarderCount g)
    (nodeIndex g).
Definition set_dataForwarderCount (v : Z) (g : Dag) : Dag :=
  mkDag (DagId g) (nodes g) (parentNode g) (initialNode g) (endNode g)
    (hasBranch g) (hasEdge g) (validated g) (executionFlow g) v
    (nodeIndex g).
Definition set_nodeIndex (v : Z) (g : Dag) : Dag :=
  mkDag (DagId g) (nodes g) (parentNode g) (initialNode g) (endNode g)
    (hasBranch g) (hasEdge g) (validated g) (executionFlow g)
    (dataForwarderCount g) v.

(** ** The store *)

(** Nodes and graphs live at addresses; [nodeCount] and [dagCount] are the
    next addresses to hand out.  Nothing is ever freed. *)
Record Heap : Type := mkHeap {
  nodeStore : gmap nat Node;
  nodeCount : nat;
  dagStore : gmap nat Dag;
  dagCount : nat
}.

Definition emptyHeap : Heap := mkHeap ∅ 0 ∅ 0.

(** The zero values [Node{}] and [Dag{}]. *)
Definition zeroNode : Node :=
  mkNode "" 0 "" None ∅ [] false None None None None ∅ None 0%nat 0 0 0
    [] [] [] [].
Definition zeroDag : Dag :=
  mkDag "" ∅ None None None false false false false 0 0.

(** Reading through a pointer.  Addresses are handed out by [allocNode] and
    [allocDag] only, so a stored address always has an entry; the zero value
    stands for the unreachable other case. *)
Definition nodeAt (h : Heap) (p : nptr) : Node :=
  default zeroNode (nodeStore h !! p).
Definition dagAt (h : Heap) (d : dptr) : Dag :=
  default zeroDag (dagStore h !! d).

(** Writing through a pointer: [p.field = v] is [updNode p (set_field v)]. *)
Definition updNode (p : nptr) (f : Node → Node) (h : Heap) : Heap :=
  mkHeap (<[p := f (nodeAt h p)]> (nodeStore h)) (nodeCount h)
    (dagStore h) (dagCount h).
Definition updDag (d : dptr) (f : Dag → Dag) (h : Heap) : Heap :=
  mkHeap (nodeStore h) (nodeCount h)
    (<[d := f (dagAt h d)]> (dagStore h)) (dagCount h).

(** [&Node{...}] and [new(Dag)]. *)
Definition allocNode (n : Node) (h : Heap) : Heap * nptr :=
  (mkHeap (<[nodeCount h := n]> (nodeStore h)) (S (nodeCount h))
     (dagStore h) (dagCount h),
   nodeCount h).
Definition allocDag (g : Dag) (h : Heap) : Heap * dptr :=
  (mkHeap (nodeStore h) (nodeCount h)
     (<[dagCount h := g]> (dagStore h)) (S (dagCount h)),
   dagCount h).

(** ** node.go *)

(** [inSlice]: membership by node id, not by address. *)
Definition inSlice (h : Heap) (node : nptr) (l : list nptr) : bool :=
  existsb (fun b => String.eqb (Id (nodeAt h b)) (Id (nodeAt h node))) l.

Definition Dynamic (h : Heap) (node : nptr) : bool := dynamic (nodeAt h node).

(** [AddForwarder]: [forwarder = None] is the nil forwarder. *)
Definition AddForwarder (node : nptr) (child : string)
    (fwd : option Forwarder) (h : Heap) : Heap :=
  let h := updNode node (fun n => set_forwarder (<[child := fwd]> (forwarder n)) n) h in
  let pd := parentDag (nodeAt h node) in
  match fwd with
  | Some _ =>
      let h := updDag pd (fun g => set_dataForwarderCount (wrap64 (dataForwarderCount g + 1)) g) h in
      updDag pd (set_executionFlow false) h
  | None =>
      let h := updDag pd (fun g => set_dataForwarderCount (wrap64 (dataForwarderCount g - 1)) g) h in
      if dataForwarderCount (dagAt h pd) =? 0
      then updDag pd (set_executionFlow true) h
      else h
  end.

Definition AddForEach (node : nptr) (f : ForEach) (h : Heap) : Heap :=
  let h := updNode node (set_foreach (Some f)) h in
  let h := updNode node (set_dynamic true) h in
  AddForwarder node "dynamic" (Some DefaultForwarder) h.

Definition AddCondition (node : nptr) (c : Condition) (h : Heap) : Heap :=
  let h := updNode node (set_condition (Some c)) h in
  let h := updNode node (set_dynamic true) h in
  AddForwarder node "dynamic" (Some DefaultForwarder) h.

(** [generateUniqueId]: [fmt.Sprintf("%s_%d_%s", dagId, node.index, node.Id)]. *)
Definition generateUniqueId (h : Heap) (node : nptr) (dagId : string) : string :=
  dagId +:+ "_" +:+ pretty (index (nodeAt h node)) +:+ "_" +:+ Id (nodeAt h node).

(** ** dag.go: construction *)

Definition NewDag (h : Heap) : Heap * dptr :=
  allocDag (mkDag "0" ∅ None None None false false false true 0 0) h.

(** [&Node{Id: id, operations: operations, index: index}] with its
    [forwarder] map made and [parentDag] set. *)
Definition newNode (dag : dptr) (id : string) (ops : list Operation)
    (index : Z) : Node :=
  mkNode id index "" None ∅ ops false None None None None ∅ None dag 0 0 0
    [] [] [] [].

Definition AddVertex (dag : dptr) (id : string) (ops : list Operation)
    (h : Heap) : Heap * nptr :=
  let node := newNode dag id ops (wrap64 (nodeIndex (dagAt h dag) + 1)) in
  let '(h, p) := allocNode node h in
  let h := updDag dag (fun g => set_nodeIndex (wrap64 (nodeIndex g + 1)) g) h in
  let h := updDag dag (fun g => set_nodes (<[id := p]> (nodes g)) g) h in
  (h, p).

(** [b.next = append(b.next, toNode); b.next = append(b.next, toNode.next...)]:
    the second statement reads [toNode.next] after the first has run, which
    matters when [b] is [toNode]. *)
Definition extendNext (toNode : nptr) (h : Heap) (b : nptr) : Heap :=
  let h := updNode b (fun n => set_next (next n ++ [toNode]) n) h in
  updNode b (fun n => set_next (next n ++ next (nodeAt h toNode)) n) h.

Definition extendPrev (fromNode : nptr) (h : Heap) (b : nptr) : Heap :=
  let h := updNode b (fun n => set_prev (prev n ++ [fromNode]) n) h in
  updNode b (fun n => set_prev (prev n ++ prev (nodeAt h fromNode)) n) h.

(** [dag.nodes[id]], creating the vertex when the lookup yields nil. *)
Definition getOrAddVertex (dag : dptr) (id : string) (h : Heap) : Heap * nptr :=
  match nodes (dagAt h dag) !! id with
  | Some p => (h, p)
  | None => AddVertex dag id [] h
  end.

(** The part of [AddEdge] after both checks have passed, statement by
    statement.  A [range] over a slice walks the slice as it was when the
    loop was entered. *)

(** "Update references recursively", first block: [fromNode] and all that
    precede it gain [toNode] and all that follow it. *)
Definition updateNext (fromNode toNode : nptr) (h : Heap) : Heap :=
  let h := extendNext toNode h fromNode in
  fold_left (extendNext toNode) (prev (nodeAt h fromNode)) h.

(** "Update references recursively", second block. *)
Definition updatePrev (fromNode toNode : nptr) (h : Heap) : Heap :=
  let h := extendPrev fromNode h toNode in
  fold_left (extendPrev fromNode) (next (nodeAt h toNode)) h.

(** The adjacency slices and the degree counters. *)
Definition countEdge (fromNode toNode : nptr) (h : Heap) : Heap :=
  let h := updNode fromNode (fun n => set_children (children n ++ [toNode]) n) h in
  let h := updNode toNode (fun n => set_dependsOn (dependsOn n ++ [fromNode]) n) h in
  let h := updNode toNode (fun n => set_indegree (int_incr (indegree n)) n) h in
  let h := if Dynamic h fromNode
           then updNode toNode (fun n => set_dynamicIndegree (int_incr (dynamicIndegree n)) n) h
           else h in
  updNode fromNode (fun n => set_outdegree (int_incr (outdegree n)) n) h.

(** The flags of the graph. *)
Definition flagEdge (dag : dptr) (fromNode toNode : nptr) (h : Heap) : Heap :=
  let h := if (1 <? indegree (nodeAt h toNode)) || (1 <? outdegree (nodeAt h fromNode))
           then updDag dag (set_hasBranch true) h
           else h in
  updDag dag (set_hasEdge true) h.

Definition linkEdge (dag : dptr) (fromNode toNode : nptr) (to : string)
    (h : Heap) : Heap :=
  let h := updateNext fromNode toNode h in
  let h := updatePrev fromNode toNode h in
  let h := countEdge fromNode toNode h in
  let h := AddForwarder fromNode to (Some DefaultForwarder) h in
  flagEdge dag fromNode toNode h.

Definition AddEdge (dag : dptr) (from to : string) (h : Heap)
    : Heap * option error :=
  let '(h, fromNode) := getOrAddVertex dag from h in
  let '(h, toNode) := getOrAddVertex dag to h in
  if inSlice h toNode (children (nodeAt h fromNode))
     || inSlice h fromNode (dependsOn (nodeAt h toNode))
  then (h, Some ErrDuplicateEdge)
  else if inSlice h fromNode (next (nodeAt h toNode))
          || inSlice h toNode (prev (nodeAt h fromNode))
  then (h, Some ErrCyclic)
  else (linkEdge dag fromNode toNode to h, None).

Definition GetNode (h : Heap) (dag : dptr) (id : string) : option nptr :=
  nodes (dagAt h dag) !! id.

(** [AddSubDag] climbs the chain of owning graphs; the chain can be cyclic
    (nothing prevents [AddForEachDag] from building one), so the climb is
    bounded by [fuel] and [None] stands for a loop that does not end. *)
Fixpoint climbsTo (fuel : nat) (h : Heap) (parent : dptr) (subDag : dptr)
    : option bool :=
  match fuel with
  | O => None
  | S fuel =>
      if Nat.eqb parent subDag then Some true
      else match parentNode (dagAt h parent) with
           | Some pn => climbsTo fuel h (parentDag (nodeAt h pn)) subDag
           | None => Some false
           end
  end.

Definition AddSubDag (fuel : nat) (node : nptr) (subDag : dptr) (h : Heap)
    : option (Heap * option error) :=
  match climbsTo fuel h (parentDag (nodeAt h node)) subDag with
  | None => None
  | Some true => Some (h, Some ErrRecursiveDep)
  | Some false =>
      let h := updNode node (set_subDag (Some subDag)) h in
      let h := updDag subDag (set_parentNode (Some node)) h in
      Some (h, None)
  end.

Definition AddForEachDag (node : nptr) (subDag : dptr) (h : Heap)
    : Heap * option error :=
  let h := updNode node (set_subDag (Some subDag)) h in
  let h := updDag subDag (set_parentNode (Some node)) h in
  let h := updDag (parentDag (nodeAt h node)) (set_hasBranch true) h in
  let h := updDag (parentDag (nodeAt h node)) (set_hasEdge true) h in
  (h, None).

Definition AddConditionalDag (node : nptr) (cond : string) (dag : dptr)
    (h : Heap) : Heap :=
  let h := updNode node (fun n => set_conditionalDags (<[cond := dag]> (conditionalDags n)) n) h in
  let h := updDag dag (set_parentNode (Some node)) h in
  let h := updDag (parentDag (nodeAt h node)) (set_hasBranch true) h in
  updDag (parentDag (nodeAt h node)) (set_hasEdge true) h.

(** ** Loops *)

(** The order in which Go's [range] visits a map is unspecified.  It is a
    parameter of every function that ranges over a map: [range m] lists the
    entries of [m] in the order of the visit.  An order is [fair] when it
    visits every entry once. *)
Definition RangeOrder := gmap string nat → list (string * nat).

Definition fair (range : RangeOrder) : Prop :=
  ∀ m : gmap string nat, range m ≡ₚ map_to_list m.

(** What a call does: return (an error or nil), panic, or never come back
    (the model ran out of fuel). *)
Inductive Outcome : Type :=
  | Returns (err : option error)
  | Panics
  | Diverges.

(** A loop whose body either goes on with a new accumulator or leaves the
    enclosing function. *)
Fixpoint forEach {A B X : Type} (body : A → X → Heap → Heap * (A + B))
    (l : list X) (acc : A) (h : Heap) : Heap * (A + B) :=
  match l with
  | [] => (h, inl acc)
  | x :: l =>
      match body acc x h with
      | (h, inl acc) => forEach body l acc h
      | (h, inr b) => (h, inr b)
      end
  end.

Section Ranging.

Variable range : RangeOrder.

(** ** dag.go: Append *)

Definition Append_body (dag appendDag : dptr) (_ : unit)
    (entry : string * nptr) (h : Heap) : Heap * (unit + option error) :=
  let '(nodeId, node) := entry in
  let duplicate := bool_decide (is_Some (nodes (dagAt h appendDag) !! nodeId)) in
  if duplicate then (h, inr (Some ErrDuplicateVertex))
  else (updDag dag (fun g => set_nodes (<[nodeId := node]> (nodes g)) g) h, inl tt).

Definition Append (dag appendDag : dptr) (h : Heap) : Heap * option error :=
  match forEach (Append_body dag appendDag) (range (nodes (dagAt h appendDag))) tt h with
  | (h, inl _) => (h, None)
  | (h, inr err) => (h, err)
  end.

(** ** dag.go: Validate *)

(** The treatment of one nested graph (the source has it twice, for
    [b.subDag] and for each conditional graph): give it its id, validate it,
    and fold its flags into the owner. *)
Definition validateSub (rec : dptr → Heap → Heap * Outcome) (dag sub : dptr)
    (subId : string) (h : Heap) : Heap * (unit + Outcome) :=
  let h := updDag sub (set_DagId subId) h in
  match rec sub h with
  | (h, Returns None) =>
      let h := if hasBranch (dagAt h sub) then updDag dag (set_hasBranch true) h else h in
      let h := if hasEdge (dagAt h sub) then updDag dag (set_hasEdge true) h else h in
      let h := if negb (executionFlow (dagAt h sub))
               then updDag dag (set_executionFlow false) h else h in
      (h, inl tt)
  | (h, o) => (h, inr o)
  end.

Definition subDagId (h : Heap) (dag : dptr) (b : nptr) : string :=
  if negb (String.eqb (DagId (dagAt h dag)) "0")
  then DagId (dagAt h dag) +:+ "_" +:+ pretty (index (nodeAt h b))
  else pretty (index (nodeAt h b)).

Definition validateCond (rec : dptr → Heap → Heap * Outcome) (dag : dptr)
    (b : nptr) (_ : unit) (entry : string * dptr) (h : Heap)
    : Heap * (unit + Outcome) :=
  let '(cond, cdag) := entry in
  validateSub rec dag cdag (subDagId h dag b +:+ "_" +:+ cond) h.

(** One turn of the loop over [dag.nodes]; the accumulator is
    [(initialNodeCount, endNodes)]. *)
Definition validateNode (rec : dptr → Heap → Heap * Outcome) (dag : dptr)
    (acc : Z * list nptr) (entry : string * nptr) (h : Heap)
    : Heap * (Z * list nptr + Outcome) :=
  let '(initialNodeCount, endNodes) := acc in
  let b := entry.2 in
  let h := updNode b (set_uniqueId (generateUniqueId h b (DagId (dagAt h dag)))) h in
  let '(h, initialNodeCount) :=
    if indegree (nodeAt h b) =? 0
    then (updDag dag (set_initialNode (Some b)) h, wrap64 (initialNodeCount + 1))
    else (h, initialNodeCount) in
  let endNodes :=
    if outdegree (nodeAt h b) =? 0 then endNodes ++ [b] else endNodes in
  let '(h, r) :=
    match subDag (nodeAt h b) with
    | Some sub => validateSub rec dag sub (subDagId h dag b) h
    | None => (h, inl tt)
    end in
  match r with
  | inr o => (h, inr o)
  | inl _ =>
      let h :=
        if dynamic (nodeAt h b)
           && bool_decide (is_Some (mjoin (forwarder (nodeAt h b) !! "dynamic"%string)))
        then updDag dag (set_executionFlow false) h else h in
      match forEach (validateCond rec dag b)
                    (range (conditionalDags (nodeAt h b))) tt h with
      | (h, inr o) => (h, inr o)
      | (h, inl _) => (h, inl (initialNodeCount, endNodes))
      end
  end.

(** One turn of the loop that ties the exits to the synthetic exit. *)
Definition joinExit (dag : dptr) (endNodeId : string) (_ : unit) (b : nptr)
    (h : Heap) : Heap * (unit + Outcome) :=
  match AddEdge dag (Id (nodeAt h b)) endNodeId h with
  | (h, Some err) => (h, inr (Returns (Some err)))
  | (h, None) => (AddForwarder b endNodeId None h, inl tt)
  end.

(** The tail of [Validate], after the loop over the nodes. *)
Definition finishValidate (dag : dptr) (initialNodeCount : Z)
    (endNodes : list nptr) (h : Heap) : Heap * Outcome :=
  if 1 <? initialNodeCount
  then (h, Returns (Some (ErrMultipleStartIn (DagId (dagAt h dag)))))
  else if (1 <? length endNodes)%nat then
    let endNodeId := "end_" +:+ DagId (dagAt h dag) in
    let '(h, endNode) := AddVertex dag endNodeId [BlankOperation] h in
    match forEach (joinExit dag endNodeId) endNodes tt h with
    | (h, inr o) => (h, o)
    | (h, inl _) =>
        let h := updDag dag (set_endNode (Some endNode)) h in
        let h := updDag dag (set_validated true) h in
        (h, Returns None)
    end
  else
    match endNodes with
    | [] => (h, Panics)   (* endNodes[0]: index out of range *)
    | e :: _ =>
        let h := updDag dag (set_endNode (Some e)) h in
        let h := updDag dag (set_validated true) h in
        (h, Returns None)
    end.

(** [Validate] calls itself on nested graphs, and nothing bounds the depth of
    nesting (a graph can be nested in itself): the depth is bounded by
    [fuel]. *)
Fixpoint Validate (fuel : nat) (dag : dptr) (h : Heap) : Heap * Outcome :=
  match fuel with
  | O => (h, Diverges)
  | S fuel =>
      if validated (dagAt h dag) then (h, Returns None)
      else if (size (nodes (dagAt h dag)) =? 0)%nat
      then (h, Returns (Some ErrNoVertex))
      else
        match forEach (validateNode (Validate fuel) dag)
                      (range (nodes (dagAt h dag))) (0, []) h with
        | (h, inr o) => (h, o)
        | (h, inl (initialNodeCount, endNodes)) =>
            finishValidate dag initialNodeCount endNodes h
        end
  end.

End Ranging.

(** The order that stdpp's maps list their entries in, used to run the
    functions on concrete graphs. *)
Definition listed : RangeOrder := map_to_list.

(** ** dag.go: GetNodes *)

(** The entry of [GetNodes] for one node. *)
Definition nodeIdFor (h : Heap) (dynamicOption : string) (b : nptr) : string :=
  if String.eqb dynamicOption EmptyString then uniqueId (nodeAt h b)
  else uniqueId (nodeAt h b) +:+ "_" +:+ dynamicOption.

(** One turn of the loop of [GetNodes]; [None] stands for a nested call
    that does not come back. *)
Definition GetNodes_body (rec : dptr → option (list string)) (h : Heap)
    (dynamicOption : string) (acc : option (list string))
    (entry : string * nptr) : option (list string) :=
  nodes ← acc;
  let b := entry.2 in
  let nodes := nodes ++ [nodeIdFor h dynamicOption b] in
  if dynamic (nodeAt h b) then Some nodes
  else match subDag (nodeAt h b) with
       | Some sub => subDagNodes ← rec sub; Some (nodes ++ subDagNodes)
       | None => Some nodes
       end.

(** [GetNodes] calls itself on nested graphs; the depth is bounded by
    [fuel]. *)
Fixpoint GetNodes (range : RangeOrder) (fuel : nat) (h : Heap) (dag : dptr)
    (dynamicOption : string) : option (list string) :=
  match fuel with
  | O => None
  | S fuel =>
      fold_left (GetNodes_body (λ sub, GetNodes range fuel h sub dynamicOption)
                   h dynamicOption)
                (range (nodes (dagAt h dag))) (Some [])
  end.

(** ** flow.go: the scheduler *)

(** [Flow.Run] starts one goroutine per ready node; the goroutines and the
    caller's thread share the ready channel, the run state and the nodes'
    [indegree] fields.  The model is an interleaving semantics: a state of
    the run, and one function that lets the thread chosen by the scheduler
    take its next step.

    Two revisions of flow.go are in the sources: in one [RunNodeDone]
    releases the children of the finished node, in the other its body is
    empty.  Everything else is the same. *)
Inductive Revision : Type :=
  | Cascade   (* RunNodeDone walks node.children *)
  | Stub.     (* RunNodeDone has an empty body *)

(** A buffered channel of [*Node]. *)
Record Chan : Type := mkChan {
  buffer : list nptr;
  capacity : nat;
  closed : bool
}.

Definition make_chan (n : nat) : Chan := mkChan [] n false.

(** [ch <- x]: [None] when the sender has to wait. *)
Definition send (x : nptr) (ch : Chan) : option Chan :=
  if (length (buffer ch) <? capacity ch)%nat
  then Some (mkChan (buffer ch ++ [x]) (capacity ch) (closed ch))
  else None.

(** Where the thread that called [Run] stands. *)
Inductive MainState : Type :=
  | Enqueuing (rest : list nptr)   (* first loop, nodes still to look at *)
  | Receiving                      (* for nodeTask := range flow.readyChan *)
  | Returned.                      (* return flow *)

(** Where a goroutine [go func() { err := flow.RunNode(ctx, nodeTask) ... }()]
    stands. *)
Inductive Goroutine : Type :=
  | Starting (node : nptr)
      (* before node.task.Run *)
  | Finishing (node : nptr) (err : option error) (rest : list nptr)
      (* in RunNodeDone, children still to release *)
  | Sending (node : nptr) (err : option error) (child : nptr) (rest : list nptr)
      (* at flow.readyChan <- child *)
  | Exited.

Record RunState : Type := mkRunState {
  store : Heap;
  readyChan : Chan;
  data : DataSet;
  main : MainState;
  goroutines : list Goroutine;
  crashed : bool   (* a goroutine panicked: the process is gone *)
}.

(** The scheduler's choice of who moves next. *)
Inductive Choice : Type :=
  | Main
  | Go (i : nat).

Definition RunNodeDone_children (rev : Revision) (h : Heap) (node : nptr)
    : list nptr :=
  match rev with
  | Cascade => children (nodeAt h node)
  | Stub => []
  end.

Definition main_step (s : RunState) : option RunState :=
  match main s with
  | Enqueuing [] =>
      Some (mkRunState (store s) (readyChan s) (data s) Receiving
              (goroutines s) (crashed s))
  | Enqueuing (node :: rest) =>
      if indegree (nodeAt (store s) node) =? 0 then
        ch ← send node (readyChan s);
        Some (mkRunState (store s) ch (data s) (Enqueuing rest)
                (goroutines s) (crashed s))
      else
        Some (mkRunState (store s) (readyChan s) (data s) (Enqueuing rest)
                (goroutines s) (crashed s))
  | Receiving =>
      match buffer (readyChan s) with
      | nodeTask :: q =>
          Some (mkRunState (store s)
                  (mkChan q (capacity (readyChan s)) (closed (readyChan s)))
                  (data s) Receiving
                  (goroutines s ++ [Starting nodeTask]) (crashed s))
      | [] =>
          if closed (readyChan s)
          then Some (mkRunState (store s) (readyChan s) (data s) Returned
                       (goroutines s) (crashed s))
          else None
      end
  | Returned => None
  end.

Definition set_goroutine (i : nat) (g : Goroutine) (s : RunState) : RunState :=
  mkRunState (store s) (readyChan s) (data s) (main s)
    (<[i := g]> (goroutines s)) (crashed s).

Definition goroutine_step (rev : Revision) (i : nat) (s : RunState)
    : option RunState :=
  g ← goroutines s !! i;
  match g with
  | Starting node =>
      match task (nodeAt (store s) node) with
      | None =>
          (* method call on a nil interface value *)
          Some (mkRunState (store s) (readyChan s) (data s) (main s)
                  (goroutines s) true)
      | Some t =>
          let '(ds, err) := taskRun t (data s) in
          Some (mkRunState (store s) (readyChan s) ds (main s)
                  (<[i := Finishing node err
                            (RunNodeDone_children rev (store s) node)]>
                     (goroutines s))
                  (crashed s))
      end
  | Finishing node err [] =>
      (* RunNode returns err; [if err != nil { }] does nothing with it *)
      Some (set_goroutine i Exited s)
  | Finishing node err (child :: rest) =>
      let h := updNode child (fun n => set_indegree (int_decr (indegree n)) n) (store s) in
      let g := if indegree (nodeAt h child) =? 0
               then Sending node err child rest
               else Finishing node err rest in
      Some (mkRunState h (readyChan s) (data s) (main s)
              (<[i := g]> (goroutines s)) (crashed s))
  | Sending node err child rest =>
      ch ← send child (readyChan s);
      Some (mkRunState (store s) ch (data s) (main s)
              (<[i := Finishing node err rest]> (goroutines s)) (crashed s))
  | Exited => None
  end.

Definition step (rev : Revision) (c : Choice) (s : RunState) : option RunState :=
  if crashed s then None
  else match c with
       | Main => main_step s
       | Go i => goroutine_step rev i s
       end.

(** A schedule is the list of the scheduler's choices; [exec] follows it. *)
Fixpoint exec (rev : Revision) (cs : list Choice) (s : RunState)
    : option RunState :=
  match cs with
  | [] => Some s
  | c :: cs => s' ← step rev c s; exec rev cs s'
  end.

(** [NewFlow(dag)] followed by [flow.Run(ctx)]: the state in which the
    caller's thread enters the first loop. *)
Definition Run_start (range : RangeOrder) (h : Heap) (dag : dptr) : RunState :=
  mkRunState h (make_chan (size (nodes (dagAt h dag)))) NewDataSet
    (Enqueuing (range (nodes (dagAt h dag))).*2) [] false.

(** [Run] returns to its caller in the states where [main] is [Returned]. *)
Definition Run_returned (s : RunState) : bool :=
  match main s with Returned => true | _ => false end.

(** Modelled from the spec: a node holds a task, but no function of the
    sources at hand assigns [node.task]; the assignment itself is all that
    is modelled. *)
Definition SetTask (node : nptr) (t : Task) (h : Heap) : Heap :=
  updNode node (set_task (Some t)) h.

(** ** Graphs built through the construction API *)

(** A graph is built by a caller who makes a graph with [NewDag] and then
    calls [AddVertex] and [AddEdge] on it. *)
Inductive Call : Type :=
  | CallAddVertex (id : string) (ops : list Operation)
  | CallAddEdge (from to : string).

Definition perform (dag : dptr) (h : Heap) (c : Call) : Heap :=
  match c with
  | CallAddVertex id ops => (AddVertex dag id ops h).1
  | CallAddEdge from to => (AddEdge dag from to h).1
  end.

Definition build (cs : list Call) : Heap * dptr :=
  let '(h, dag) := NewDag emptyHeap in
  (fold_left (perform dag) cs h, dag).

(** The calls that stay clear of the three things the code does not guard
    against: defining a vertex id a second time, an edge from a vertex to
    itself, and a vertex that bears the name [Validate] gives to the
    synthetic exit of a root graph. *)
Fixpoint clean_from (seen : list string) (cs : list Call) : bool :=
  match cs with
  | [] => true
  | CallAddVertex id _ :: cs =>
      negb (bool_decide (id ∈ seen)) && negb (String.eqb id "end_0")
      && clean_from (id :: seen) cs
  | CallAddEdge from to :: cs =>
      negb (String.eqb from to)
      && negb (String.eqb from "end_0") && negb (String.eqb to "end_0")
      && clean_from (from :: to :: seen) cs
  end.

Definition clean (cs : list Call) : bool := clean_from [] cs.

(** ** The vocabulary of the specification *)

(** The edge relation of a graph: [q] is a child of [p]. *)
Definition edge (h : Heap) (p q : nptr) : Prop := q ∈ children (nodeAt h p).

(** No vertex of the graph reaches itself along one or more edges. *)
Definition acyclic (h : Heap) (dag : dptr) : Prop :=
  ∀ id p, nodes (dagAt h dag) !! id = Some p → ¬ tc (edge h) p p.

Definition vertices (h : Heap) (dag : dptr) : list nptr :=
  (map_to_list (nodes (dagAt h dag))).*2.

(** The vertices with indegree 0 and those with outdegree 0. *)
Definition starts (h : Heap) (dag : dptr) : list nptr :=
  filter (λ p, indegree (nodeAt h p) = 0) (vertices h dag).
Definition exits (h : Heap) (dag : dptr) : list nptr :=
  filter (λ p, outdegree (nodeAt h p) = 0) (vertices h dag).

(** ** The vocabulary of the proofs *)

(** The addresses handed out so far. *)
Definition allocated (h : Heap) (p : nptr) : Prop := (p < nodeCount h)%nat.

(** The invariant of a graph built by clean calls, with a bound [B] on its
    size: the map and the nodes agree on ids, no node holds a nested graph,
    the counters count the adjacency slices, and [next] is a transitive,
    irreflexive relation that contains [children] and whose converse is
    [prev]. *)
Record Inv (B : nat) (h : Heap) (dag : dptr) : Prop := mkInv {
  inv_key : ∀ id p, nodes (dagAt h dag) !! id = Some p →
            allocated h p ∧ Id (nodeAt h p) = id;
  inv_own : ∀ p, allocated h p → nodes (dagAt h dag) !! Id (nodeAt h p) = Some p;
  inv_plain : ∀ p, allocated h p →
              parentDag (nodeAt h p) = dag ∧ subDag (nodeAt h p) = None
              ∧ conditionalDags (nodeAt h p) = ∅;
  inv_alloc : ∀ p q, allocated h p →
              q ∈ next (nodeAt h p) ∨ q ∈ prev (nodeAt h p) → allocated h q;
  inv_out : ∀ p, allocated h p →
            outdegree (nodeAt h p) = Z.of_nat (length (children (nodeAt h p)));
  inv_in : ∀ p, allocated h p →
           indegree (nodeAt h p) = Z.of_nat (length (dependsOn (nodeAt h p)));
  inv_bound : ∀ p, allocated h p →
              (length (children (nodeAt h p)) ≤ B)%nat
              ∧ (length (dependsOn (nodeAt h p)) ≤ B)%nat;
  inv_count : (nodeCount h ≤ B)%nat;
  inv_children : ∀ p q, allocated h p →
                 q ∈ children (nodeAt h p) → q ∈ next (nodeAt h p);
  inv_dependsOn : ∀ p q, allocated h p →
                  q ∈ dependsOn (nodeAt h p) → q ∈ prev (nodeAt h p);
  inv_trans : ∀ p q r, allocated h p →
              q ∈ next (nodeAt h p) → r ∈ next (nodeAt h q) → r ∈ next (nodeAt h p);
  inv_sym : ∀ p q, allocated h p → allocated h q →
            (q ∈ next (nodeAt h p) ↔ p ∈ prev (nodeAt h q));
  inv_irrefl : ∀ p, allocated h p → p ∉ next (nodeAt h p)
}.

(** What holds of the root graph after clean calls: the invariant, the ids
    in use are among those the calls named, none of them is [end_0], and
    [Validate] has not run. *)
Record Built (B : nat) (seen : list string) (h : Heap) (dag : dptr) : Prop := mkBuilt {
  built_inv : Inv B h dag;
  built_seen : ∀ id, is_Some (nodes (dagAt h dag) !! id) → id ∈ seen;
  built_noend : nodes (dagAt h dag) !! "end_0"%string = None;
  built_id : DagId (dagAt h dag) = "0"%string;
  built_fresh : validated (dagAt h dag) = false
}.

(** The node [p] of the store after [linkEdge], from the node [n] before
    it; [en] and [ep] are what its closure slices have gained. *)
Definition linked (fromNode toNode : nptr) (to : string) (dyn : bool)
    (p : nptr) (en ep : list nptr) (n : Node) : Node :=
  let n := set_prev (prev n ++ ep) (set_next (next n ++ en) n) in
  if decide (p = fromNode) then
    set_forwarder (<[to := Some DefaultForwarder]> (forwarder n))
      (set_outdegree (int_incr (outdegree n))
         (set_children (children n ++ [toNode]) n))
  else if decide (p = toNode) then
    let n := set_indegree (int_incr (indegree n))
               (set_dependsOn (dependsOn n ++ [fromNode]) n) in
    if dyn then set_dynamicIndegree (int_incr (dynamicIndegree n)) n else n
  else n.

(** The fields of [linked], one case analysis for all of them. *)
Ltac linked_field dyn :=
  unfold linked; repeat case_decide; try destruct dyn; try congruence; reflexivity.

(** The adjacency slices and the counters of a node; the closure slices are
    left out. *)
Definition adjacency (n : Node) : list nptr * list nptr * Z * Z :=
  (children n, dependsOn n, indegree n, outdegree n).

(** What identifies a graph and what [Validate] and the cycle checks read
    of it; the flags and counters that the edge operations keep up to date
    are left out. *)
Definition dagCore (g : Dag) : string * gmap string nptr * bool * option nptr :=
  (DagId g, nodes g, validated g, parentNode g).

(** Two stores that differ in unique ids, forwarders and the flags of the
    graphs only: the graphs in them have the same shape. *)
Definition same_shape (h h' : Heap) : Prop :=
  nodeCount h' = nodeCount h
  ∧ (∀ p, ∃ u f, nodeAt h' p = set_forwarder f (set_uniqueId u (nodeAt h p)))
  ∧ (∀ d, dagCore (dagAt h' d) = dagCore (dagAt h d)).

(** The loop of [Validate] that ties the exits to the synthetic exit [E]:
    [h0] is the store when the loop is entered, [tied] are the exits already
    tied and [todo] those still to come. *)
Record Joining (h0 : Heap) (dag : dptr) (endNodeId : string) (E : nptr)
    (tied todo : list nptr) (B : nat) (h : Heap) : Prop := mkJoining {
  j_inv : Inv B h dag;
  j_nodes : nodes (dagAt h dag) = nodes (dagAt h0 dag);
  j_end : nodes (dagAt h dag) !! endNodeId = Some E;
  j_next : next (nodeAt h E) = [];
  j_todo : ∀ b, b ∈ todo →
           allocated h b ∧ (b ≠ E) ∧ children (nodeAt h b) = []
           ∧ (b ∉ dependsOn (nodeAt h E)) ∧ (b ∉ tied);
  j_nodup : NoDup todo;
  j_tied : ∀ b, b ∈ tied →
           children (nodeAt h b) = [E] ∧ outdegree (nodeAt h b) = 1
           ∧ forwarder (nodeAt h b) !! endNodeId = Some None;
  j_rest : ∀ p, p ∉ tied → outdegree (nodeAt h p) = outdegree (nodeAt h0 p);
  j_core : ∀ d, dagCore (dagAt h d) = dagCore (dagAt h0 d);
  j_uniqueId : ∀ p, uniqueId (nodeAt h p) = uniqueId (nodeAt h0 p)
}.

(** The exits in the order of the visit. *)
Definition visited_exits (range : RangeOrder) (h : Heap) (dag : dptr) : list nptr :=
  filter (λ p, outdegree (nodeAt h p) = 0) (range (nodes (dagAt h dag))).*2.

(** *** Runs without errors *)

Definition mute_task (t : Task) : Task :=
  mkTask (NodeName t) (λ ds, ((taskRun t ds).1, None)).

Definition mute_node (n : Node) : Node := set_task (mute_task <$> task n) n.

Definition mute_heap (h : Heap) : Heap :=
  mkHeap (mute_node <$> nodeStore h) (nodeCount h) (dagStore h) (dagCount h).

Definition forget_err (g : Goroutine) : Goroutine :=
  match g with
  | Finishing node _ rest => Finishing node None rest
  | Sending node _ child rest => Sending node None child rest
  | g => g
  end.

(** The run in which every task does what it did but returns nil, and the
    local variable [err] of every goroutine holds nil. *)
Definition silence (s : RunState) : RunState :=
  mkRunState (mute_heap (store s)) (readyChan s) (data s) (main s)
    (forget_err <$> goroutines s) (crashed s).

(** ** Concrete graphs and runs *)

(** One vertex [A]. *)
Definition oneVertex : Heap := (AddVertex 0%nat "A" [] (NewDag emptyHeap).1).1.

(** The edge [A -> B]. *)
Definition twoNodes : Heap := (AddEdge 0%nat "A" "B" (NewDag emptyHeap).1).1.

(** The edge [A -> A]. *)
Definition selfLoop : Heap := (AddEdge 0%nat "A" "A" (NewDag emptyHeap).1).1.



(** One start [A] and two exits [B] and [C]. *)
Definition fork : list Call :=
  [CallAddEdge "A" "B"; CallAddEdge "A" "C"].

(** One start [A] and two exits, one of which bears the name [Validate]
    gives to the synthetic exit. *)
Definition clash : list Call :=
  [CallAddEdge "A" "end_0"; CallAddEdge "A" "B"].

(** A task that records that it ran and then fails. *)
Definition failingTask : Task :=
  mkTask "A" (λ ds, (DataSet_Set "ran" "yes" ds, Some (TaskError "boom"))).

(** One vertex holding [failingTask]; [Validate] has not been called. *)
Definition taskedVertex : Heap := SetTask 0%nat failingTask oneVertex.

(** The same graph after a successful [Validate]. *)
Definition validatedVertex : Heap := (Validate listed 1 0%nat taskedVertex).1.

(** The caller enqueues the vertex and starts its goroutine, which runs the
    task and [RunNodeDone] and exits. *)
Definition oneTaskSchedule : list Choice := [Main; Main; Main; Go 0; Go 0].

(** ** The vocabulary of the further properties *)

(** What the slices of the nodes satisfy besides [Inv]: [children] and
    [dependsOn] mirror each other and hold no node twice, and [next] holds
    nothing but what the edges reach. *)
Record Wired (h : Heap) : Prop := mkWired {
  wired_mirror : ∀ p q, allocated h p → allocated h q →
                 (q ∈ children (nodeAt h p) ↔ p ∈ dependsOn (nodeAt h q));
  wired_children : ∀ p, allocated h p → NoDup (children (nodeAt h p));
  wired_dependsOn : ∀ p, allocated h p → NoDup (dependsOn (nodeAt h p));
  wired_closure : ∀ p q, allocated h p → q ∈ next (nodeAt h p) → tc (edge h) p q
}.

(** What the flags of the graph say about its nodes. *)
Record Flagged (h : Heap) (dag : dptr) : Prop := mkFlagged {
  flagged_hasEdge :
    hasEdge (dagAt h dag) = true
    ↔ ∃ p, allocated h p ∧ children (nodeAt h p) ≠ [];
  flagged_hasBranch :
    hasBranch (dagAt h dag) = true
    ↔ ∃ p, allocated h p
           ∧ (1 < indegree (nodeAt h p) ∨ 1 < outdegree (nodeAt h p));
  flagged_flow : executionFlow (dagAt h dag) = negb (hasEdge (dagAt h dag))
}.

(** The fields of the nodes that the construction calls never assign, and
    the indices. *)
Record Bare (h : Heap) (dag : dptr) : Prop := mkBare {
  bare_task : ∀ p, allocated h p → task (nodeAt h p) = None;
  bare_static : ∀ p, allocated h p →
                dynamic (nodeAt h p) = false ∧ dynamicIndegree (nodeAt h p) = 0;
  bare_uniqueId : ∀ p, allocated h p → uniqueId (nodeAt h p) = EmptyString;
  bare_index : ∀ p, allocated h p → index (nodeAt h p) = Z.of_nat (S p);
  bare_nodeIndex : nodeIndex (dagAt h dag) = Z.of_nat (nodeCount h)
}.

(** The graphs a graph is nested in, itself first, up to the root. *)
Inductive nesting (h : Heap) : dptr → list dptr → Prop :=
  | nesting_root d :
      parentNode (dagAt h d) = None → nesting h d [d]
  | nesting_sub d pn l :
      parentNode (dagAt h d) = Some pn →
      nesting h (parentDag (nodeAt h pn)) l → nesting h d (d :: l).

(** The states of a run in which no task has run yet. *)
Definition untouched (h : Heap) (s : RunState) : Prop :=
  store s = h ∧ data s = NewDataSet
  ∧ (∀ rest, main s = Enqueuing rest → Forall (allocated h) rest)
  ∧ Forall (allocated h) (buffer (readyChan s))
  ∧ Forall (λ g, ∃ n, g = Starting n ∧ allocated h n) (goroutines s).

(** The store after the tasks [ts] have been assigned to their nodes. *)
Definition withTasks (ts : list (nptr * Task)) (h : Heap) : Heap :=
  foldr (λ pt, SetTask pt.1 pt.2) h ts.

(** The node on whose task a step calls [Run]. *)
Definition calls (c : Choice) (s : RunState) : option nptr :=
  match c with
  | Main => None
  | Go i =>
      match goroutines s !! i with
      | Some (Starting node) => Some node
      | _ => None
      end
  end.

(** The nodes whose tasks are called under a schedule, in the order of the
    calls. *)
Fixpoint ran (rev : Revision) (cs : list Choice) (s : RunState) : list nptr :=
  match cs with
  | [] => []
  | c :: cs =>
      match step rev c s with
      | Some s' => option_list (calls c s) ++ ran rev cs s'
      | None => []
      end
  end.

(** Every node of the list comes after all the nodes it depends on. *)
Definition ordered (h : Heap) (T : list nptr) : Prop :=
  ∀ i q, T !! i = Some q → ∀ p, p ∈ dependsOn (nodeAt h q) → p ∈ take i T.

(** What a run needs of the graph in the store: the adjacency slices mirror
    each other and repeat no node, and [indegree] counts [dependsOn]. *)
Record Mirrored (h : Heap) : Prop := mkMirrored {
  mirrored_child : ∀ p q, allocated h p → q ∈ children (nodeAt h p) →
                 allocated h q ∧ p ∈ dependsOn (nodeAt h q);
  mirrored_children : ∀ p, allocated h p → NoDup (children (nodeAt h p));
  mirrored_dependsOn : ∀ q, allocated h q → NoDup (dependsOn (nodeAt h q));
  mirrored_indegree : ∀ q, allocated h q →
                    indegree (nodeAt h q) = Z.of_nat (length (dependsOn (nodeAt h q)))
                    ∧ Z.of_nat (length (dependsOn (nodeAt h q))) < 2 ^ 63
}.

(** A goroutine with the node it was started for; the children of the node
    that it has released so far. *)
Definition done_of (kids : nptr → list nptr) (z : Goroutine * nptr) : list nptr :=
  match z.1 with
  | Starting _ => []
  | Finishing _ _ rest | Sending _ _ _ rest =>
      take (length (kids z.2) - length rest) (kids z.2)
  | Exited => kids z.2
  end.

Definition proper (kids : nptr → list nptr) (z : Goroutine * nptr) : Prop :=
  match z.1 with
  | Starting n => n = z.2
  | Finishing n _ rest => n = z.2 ∧ rest `suffix_of` kids z.2
  | Sending n _ c rest => n = z.2 ∧ (c :: rest) `suffix_of` kids z.2
  | Exited => True
  end.

(** The child a goroutine is about to send. *)
Definition waits (g : Goroutine) : list nptr :=
  match g with
  | Sending _ _ c _ => [c]
  | _ => []
  end.

Definition begun (g : Goroutine) : bool :=
  match g with
  | Starting _ => false
  | _ => true
  end.

(** The indegree-0 nodes the first loop has still to send. *)
Definition pending (h : Heap) (m : MainState) : list nptr :=
  match m with
  | Enqueuing rest => filter (λ p, indegree (nodeAt h p) = 0) rest
  | _ => []
  end.

(** The nodes that have been found ready: those with a goroutine, those in
    the channel, and those about to be sent. *)
Definition released (h : Heap) (s : RunState) (zs : list (Goroutine * nptr))
    : list nptr :=
  zs.*2 ++ buffer (readyChan s) ++ pending h (main s) ++ (zs.*1 ≫= waits).

(** [p] has released its child [q]. *)
Definition served (kids : nptr → list nptr) (zs : list (Goroutine * nptr))
    (p q : nptr) : Prop :=
  Exists (λ z, z.2 = p ∧ q ∈ done_of kids z) zs.

(** The states of a run of the graph of the store [h]: [zs] are the
    goroutines with their nodes and [T] the nodes whose tasks were called. *)
Record Running (rev : Revision) (h : Heap) (s : RunState)
    (zs : list (Goroutine * nptr)) (T : list nptr) : Prop := mkRunning {
  run_store : ∀ p, nodeAt (store s) p
                   = set_indegree (indegree (nodeAt (store s) p)) (nodeAt h p);
  run_goroutines : goroutines s = zs.*1;
  run_proper : Forall (proper (RunNodeDone_children rev h)) zs;
  run_released : NoDup (released h s zs);
  run_allocated : ∀ q, q ∈ released h s zs → allocated h q;
  run_first : ∀ rest, main s = Enqueuing rest → zs = [] ∧ store s = h;
  run_count : ∀ q, allocated h q →
      indegree (nodeAt (store s) q)
      = Z.of_nat (length (filter (λ p, ¬ served (RunNodeDone_children rev h) zs p q)
                            (dependsOn (nodeAt h q))));
  run_ready : ∀ q, q ∈ released h s zs → indegree (nodeAt (store s) q) = 0;
  run_begun : ∀ z, z ∈ zs → begun z.1 = true → z.2 ∈ T;
  run_called : ∀ n, n ∈ T → ∃ z, z ∈ zs ∧ z.2 = n ∧ begun z.1 = true;
  run_nodup : NoDup T;
  run_ordered : ordered h T
}.

(** ** Concrete graphs and runs, continued *)

(** The graph [fork] with a second, empty graph beside it. *)
Definition forkAndDag : Heap := (NewDag (build fork).1).1.

(** A task for each vertex of [fork]. *)
Definition forkTasks : list (nptr * Task) :=
  [(0%nat, failingTask); (1%nat, failingTask); (2%nat, failingTask)].

(** The caller enqueues [A] and starts it; [A] runs and releases [B] and
    [C]; the caller starts both, and [C] runs before [B]. *)
Definition forkSchedule : list Choice :=
  [Main; Main; Main; Main; Main; Go 0; Go 0; Go 0; Go 0; Go 0; Go 0;
   Main; Main; Go 2; Go 1; Go 1; Go 2].

(** * Properties *)

(** ** Reading and writing the store *)

Arguments nodeAt : simpl never.
Arguments dagAt : simpl never.
Arguments updNode : simpl never.
Arguments updDag : simpl never.
Arguments allocNode : simpl never.
Arguments allocDag : simpl never.
Arguments wrap64 : simpl never.

Lemma nodeAt_updNode p f h q :
  nodeAt (updNode p f h) q = if decide (q = p) then f (nodeAt h p) else nodeAt h q.
Proof.
  unfold nodeAt at 1, updNode; simpl. case_decide as E.
  - subst. by rewrite lookup_insert_eq.
  - by rewrite lookup_insert_ne.
Qed.

Lemma nodeAt_updNode_eq p f h : nodeAt (updNode p f h) p = f (nodeAt h p).
Proof. rewrite nodeAt_updNode. by case_decide. Qed.

Lemma nodeAt_updNode_ne p f h q : q ≠ p → nodeAt (updNode p f h) q = nodeAt h q.
Proof. intros. rewrite nodeAt_updNode. by case_decide. Qed.

Lemma dagAt_updNode p f h d : dagAt (updNode p f h) d = dagAt h d.
Proof. reflexivity. Qed.

Lemma nodeAt_updDag d f h p : nodeAt (updDag d f h) p = nodeAt h p.
Proof. reflexivity. Qed.

Lemma dagAt_updDag d f h e :
  dagAt (updDag d f h) e = if decide (e = d) then f (dagAt h d) else dagAt h e.
Proof.
  unfold dagAt at 1, updDag; simpl. case_decide as E.
  - subst. by rewrite lookup_insert_eq.
  - by rewrite lookup_insert_ne.
Qed.

Lemma dagAt_updDag_eq d f h : dagAt (updDag d f h) d = f (dagAt h d).
Proof. rewrite dagAt_updDag. by case_decide. Qed.

Lemma nodeCount_updNode p f h : nodeCount (updNode p f h) = nodeCount h.
Proof. reflexivity. Qed.

Lemma nodeCount_updDag d f h : nodeCount (updDag d f h) = nodeCount h.
Proof. reflexivity. Qed.

Lemma dagAt_allocNode n h d : dagAt (allocNode n h).1 d = dagAt h d.
Proof. reflexivity. Qed.

Lemma nodeCount_allocNode n h : nodeCount (allocNode n h).1 = S (nodeCount h).
Proof. reflexivity. Qed.

Lemma allocNode_snd n h : (allocNode n h).2 = nodeCount h.
Proof. reflexivity. Qed.

Lemma nodeAt_allocNode n h q :
  nodeAt (allocNode n h).1 q = if decide (q = nodeCount h) then n else nodeAt h q.
Proof.
  unfold nodeAt at 1, allocNode; simpl. case_decide as E.
  - subst. by rewrite lookup_insert_eq.
  - by rewrite lookup_insert_ne.
Qed.

Lemma AddVertex_unfold dag id ops h :
  AddVertex dag id ops h =
    (updDag dag (fun g => set_nodes (<[id := nodeCount h]> (nodes g)) g)
       (updDag dag (fun g => set_nodeIndex (wrap64 (nodeIndex g + 1)) g)
          (allocNode (newNode dag id ops (wrap64 (nodeIndex (dagAt h dag) + 1))) h).1),
     nodeCount h).
Proof. reflexivity. Qed.

(** ** What a fair order visits *)

Lemma fair_elem range (m : gmap string nat) k v :
  fair range → (k, v) ∈ range m ↔ m !! k = Some v.
Proof. intros Hf. rewrite (Hf m). apply elem_of_map_to_list. Qed.

Lemma fair_empty range : fair range → range ∅ = [].
Proof.
  intros Hf. apply Permutation_nil_r. rewrite (Hf ∅). by rewrite map_to_list_empty.
Qed.

Lemma fair_nil range (m : gmap string nat) : fair range → range m = [] → m = ∅.
Proof.
  intros Hf E. apply map_to_list_empty_iff. apply Permutation_nil_r.
  by rewrite <- (Hf m), E.
Qed.

Lemma fair_listed : fair listed.
Proof. intros m. reflexivity. Qed.

(** ** The closure slices *)

Lemma set_next_app n l1 l2 :
  set_next (next (set_next (next n ++ l1) n) ++ l2) (set_next (next n ++ l1) n)
  = set_next (next n ++ (l1 ++ l2)) n.
Proof. simpl. unfold set_next; simpl. by rewrite app_assoc. Qed.

Lemma set_next_nil n : set_next (next n ++ []) n = n.
Proof. destruct n; unfold set_next; simpl. by rewrite app_nil_r. Qed.

Lemma set_prev_nil n : set_prev (prev n ++ []) n = n.
Proof. destruct n; unfold set_prev; simpl. by rewrite app_nil_r. Qed.

Lemma extendNext_nodeAt toNode h b p :
  b ≠ toNode →
  nodeAt (extendNext toNode h b) p =
    if decide (p = b)
    then set_next (next (nodeAt h b) ++ toNode :: next (nodeAt h toNode)) (nodeAt h b)
    else nodeAt h p.
Proof.
  intros Hne. unfold extendNext. rewrite !nodeAt_updNode.
  case_decide; [|done]. rewrite decide_True by done.
  rewrite decide_False by done. unfold set_next; simpl.
  by rewrite <- app_assoc.
Qed.

Lemma extendPrev_nodeAt fromNode h b p :
  b ≠ fromNode →
  nodeAt (extendPrev fromNode h b) p =
    if decide (p = b)
    then set_prev (prev (nodeAt h b) ++ fromNode :: prev (nodeAt h fromNode)) (nodeAt h b)
    else nodeAt h p.
Proof.
  intros Hne. unfold extendPrev. rewrite !nodeAt_updNode.
  case_decide; [|done]. rewrite decide_True by done.
  rewrite decide_False by done. unfold set_prev; simpl.
  by rewrite <- app_assoc.
Qed.

Lemma fold_extendNext toNode l : ∀ h p,
  toNode ∉ l →
  ∃ extra,
    nodeAt (fold_left (extendNext toNode) l h) p
      = set_next (next (nodeAt h p) ++ extra) (nodeAt h p) ∧
    ∀ q, q ∈ extra ↔ p ∈ l ∧ q ∈ toNode :: next (nodeAt h toNode).
Proof.
  induction l as [|b l IH]; intros h p Hnot.
  - exists []. split; [by rewrite set_next_nil|].
    intros q. rewrite !elem_of_nil. tauto.
  - apply not_elem_of_cons in Hnot as [Hb Hl]. simpl.
    destruct (IH (extendNext toNode h b) p Hl) as (extra & E & Hex).
    rewrite E. rewrite !extendNext_nodeAt by done.
    rewrite (extendNext_nodeAt toNode h b toNode) in Hex by done.
    rewrite (decide_False (P := toNode = b)) in Hex by done.
    case_decide as Ep.
    + subst p. eexists. split; [apply set_next_app|].
      intros q. rewrite elem_of_app, Hex, !elem_of_cons. intuition congruence.
    + exists extra. split; [done|]. intros q. rewrite Hex, !elem_of_cons. intuition congruence.
Qed.

Lemma set_prev_app n l1 l2 :
  set_prev (prev (set_prev (prev n ++ l1) n) ++ l2) (set_prev (prev n ++ l1) n)
  = set_prev (prev n ++ (l1 ++ l2)) n.
Proof. simpl. unfold set_prev; simpl. by rewrite app_assoc. Qed.

Lemma fold_extendPrev fromNode l : ∀ h p,
  fromNode ∉ l →
  ∃ extra,
    nodeAt (fold_left (extendPrev fromNode) l h) p
      = set_prev (prev (nodeAt h p) ++ extra) (nodeAt h p) ∧
    ∀ q, q ∈ extra ↔ p ∈ l ∧ q ∈ fromNode :: prev (nodeAt h fromNode).
Proof.
  induction l as [|b l IH]; intros h p Hnot.
  - exists []. split; [by rewrite set_prev_nil|].
    intros q. rewrite !elem_of_nil. tauto.
  - apply not_elem_of_cons in Hnot as [Hb Hl]. simpl.
    destruct (IH (extendPrev fromNode h b) p Hl) as (extra & E & Hex).
    rewrite E. rewrite !extendPrev_nodeAt by done.
    rewrite (extendPrev_nodeAt fromNode h b fromNode) in Hex by done.
    rewrite (decide_False (P := fromNode = b)) in Hex by done.
    case_decide as Ep.
    + subst p. eexists. split; [apply set_prev_app|].
      intros q. rewrite elem_of_app, Hex, !elem_of_cons. intuition congruence.
    + exists extra. split; [done|]. intros q. rewrite Hex, !elem_of_cons. intuition congruence.
Qed.

Lemma updateNext_nodeAt fromNode toNode h p :
  toNode ≠ fromNode → toNode ∉ prev (nodeAt h fromNode) →
  ∃ extra,
    nodeAt (updateNext fromNode toNode h) p
      = set_next (next (nodeAt h p) ++ extra) (nodeAt h p) ∧
    ∀ q, q ∈ extra ↔
         p ∈ fromNode :: prev (nodeAt h fromNode) ∧ q ∈ toNode :: next (nodeAt h toNode).
Proof.
  intros Hne Hnot. unfold updateNext.
  assert (Eprev : prev (nodeAt (extendNext toNode h fromNode) fromNode) = prev (nodeAt h fromNode)).
  { rewrite extendNext_nodeAt by done. by rewrite decide_True. }
  rewrite Eprev.
  destruct (fold_extendNext toNode (prev (nodeAt h fromNode))
              (extendNext toNode h fromNode) p Hnot) as (extra & E & Hex).
  rewrite E. rewrite (extendNext_nodeAt toNode h fromNode toNode) in Hex by done.
  rewrite (decide_False (P := toNode = fromNode)) in Hex by done.
  rewrite extendNext_nodeAt by done. case_decide as Ep.
  - subst p. eexists. split; [apply set_next_app|].
    intros q. rewrite elem_of_app, Hex, !elem_of_cons. intuition congruence.
  - exists extra. split; [done|]. intros q. rewrite Hex, !elem_of_cons. intuition congruence.
Qed.

Lemma updatePrev_nodeAt fromNode toNode h p :
  toNode ≠ fromNode → fromNode ∉ next (nodeAt h toNode) →
  ∃ extra,
    nodeAt (updatePrev fromNode toNode h) p
      = set_prev (prev (nodeAt h p) ++ extra) (nodeAt h p) ∧
    ∀ q, q ∈ extra ↔
         p ∈ toNode :: next (nodeAt h toNode) ∧ q ∈ fromNode :: prev (nodeAt h fromNode).
Proof.
  intros Hne Hnot. unfold updatePrev.
  assert (Enext : next (nodeAt (extendPrev fromNode h toNode) toNode) = next (nodeAt h toNode)).
  { rewrite extendPrev_nodeAt by done. by rewrite decide_True. }
  rewrite Enext.
  destruct (fold_extendPrev fromNode (next (nodeAt h toNode))
              (extendPrev fromNode h toNode) p Hnot) as (extra & E & Hex).
  rewrite E. rewrite (extendPrev_nodeAt fromNode h toNode fromNode) in Hex by done.
  rewrite (decide_False (P := fromNode = toNode)) in Hex by done.
  rewrite extendPrev_nodeAt by done. case_decide as Ep.
  - subst p. eexists. split; [apply set_prev_app|].
    intros q. rewrite elem_of_app, Hex, !elem_of_cons. intuition congruence.
  - exists extra. split; [done|]. intros q. rewrite Hex, !elem_of_cons. intuition congruence.
Qed.

(** ** A node after [linkEdge] *)

Lemma nodeAt_AddForwarder node child fwd h p :
  nodeAt (AddForwarder node child fwd h) p =
    if decide (p = node)
    then set_forwarder (<[child := fwd]> (forwarder (nodeAt h node))) (nodeAt h node)
    else nodeAt h p.
Proof.
  unfold AddForwarder. destruct fwd; [|case_match];
    rewrite ?nodeAt_updDag, nodeAt_updNode; done.
Qed.

Lemma nodeAt_flagEdge dag fromNode toNode h p :
  nodeAt (flagEdge dag fromNode toNode h) p = nodeAt h p.
Proof. unfold flagEdge. by case_match. Qed.

Lemma nodeAt_countEdge fromNode toNode h p :
  toNode ≠ fromNode →
  nodeAt (countEdge fromNode toNode h) p =
    let n := nodeAt h p in
    if decide (p = fromNode) then
      set_outdegree (int_incr (outdegree n)) (set_children (children n ++ [toNode]) n)
    else if decide (p = toNode) then
      let n := set_indegree (int_incr (indegree n))
                 (set_dependsOn (dependsOn n ++ [fromNode]) n) in
      if dynamic (nodeAt h fromNode)
      then set_dynamicIndegree (int_incr (dynamicIndegree n)) n else n
    else n.
Proof.
  intros Hne. unfold countEdge, Dynamic.
  assert (Ed : dynamic (nodeAt
              (updNode toNode (λ n, set_indegree (int_incr (indegree n)) n)
                 (updNode toNode (λ n, set_dependsOn (dependsOn n ++ [fromNode]) n)
                    (updNode fromNode (λ n, set_children (children n ++ [toNode]) n) h)))
              fromNode) = dynamic (nodeAt h fromNode)).
  { rewrite !nodeAt_updNode_ne by done. by rewrite nodeAt_updNode_eq. }
  rewrite Ed. simpl.
  destruct (decide (p = fromNode)) as [->|Hpf];
    [|destruct (decide (p = toNode)) as [->|Hpt]];
    destruct (dynamic (nodeAt h fromNode));
    repeat first [ rewrite nodeAt_updNode_eq
                 | rewrite nodeAt_updNode_ne by congruence ];
    reflexivity.
Qed.

Lemma no_elements {A} (l : list A) : (∀ x, x ∉ l) → l = [].
Proof. destruct l as [|a l]; [done|]. intros H. destruct (H a). left. Qed.

Lemma linkEdge_nodeAt dag fromNode toNode to h p :
  toNode ≠ fromNode →
  toNode ∉ prev (nodeAt h fromNode) →
  fromNode ∉ next (nodeAt h toNode) →
  ∃ en ep,
    nodeAt (linkEdge dag fromNode toNode to h) p
      = linked fromNode toNode to (dynamic (nodeAt h fromNode)) p en ep (nodeAt h p) ∧
    (∀ q, q ∈ en ↔
          p ∈ fromNode :: prev (nodeAt h fromNode) ∧ q ∈ toNode :: next (nodeAt h toNode)) ∧
    (∀ q, q ∈ ep ↔
          p ∈ toNode :: next (nodeAt h toNode) ∧ q ∈ fromNode :: prev (nodeAt h fromNode)).
Proof.
  intros Hne Hprev Hnext.
  set (h1 := updateNext fromNode toNode h).
  (* the first block leaves toNode.next and fromNode.prev alone *)
  assert (Et : next (nodeAt h1 toNode) = next (nodeAt h toNode)).
  { destruct (updateNext_nodeAt fromNode toNode h toNode Hne Hprev) as (x & E & Hx).
    fold h1 in E. rewrite E. simpl. rewrite (no_elements x), app_nil_r; [done|].
    intros q. rewrite Hx, elem_of_cons. intuition congruence. }
  assert (Ef : prev (nodeAt h1 fromNode) = prev (nodeAt h fromNode)).
  { destruct (updateNext_nodeAt fromNode toNode h fromNode Hne Hprev) as (x & E & Hx).
    fold h1 in E. by rewrite E. }
  assert (Ed : ∀ q, dynamic (nodeAt (updatePrev fromNode toNode h1) q) = dynamic (nodeAt h q)).
  { intros q.
    destruct (updatePrev_nodeAt fromNode toNode h1 q Hne) as (x & E & _); [by rewrite Et|].
    destruct (updateNext_nodeAt fromNode toNode h q Hne Hprev) as (y & E' & _).
    fold h1 in E'. by rewrite E, E'. }
  destruct (updateNext_nodeAt fromNode toNode h p Hne Hprev) as (en & E1 & Hen).
  destruct (updatePrev_nodeAt fromNode toNode h1 p Hne) as (ep & E2 & Hep); [by rewrite Et|].
  fold h1 in E1. rewrite Et, Ef in Hep.
  exists en, ep. split; [|done].
  unfold linkEdge. fold h1.
  rewrite nodeAt_flagEdge, nodeAt_AddForwarder. unfold linked.
  destruct (decide (p = fromNode)) as [->|Hpf].
  - rewrite nodeAt_countEdge by done. cbv zeta.
    rewrite decide_True by done. by rewrite E2, E1.
  - rewrite nodeAt_countEdge by done. cbv zeta.
    rewrite decide_False by done. rewrite Ed, E2, E1.
    by case_decide.
Qed.

Section linked_fields.
Context (fromNode toNode : nptr) (to : string) (dyn : bool) (p : nptr)
        (en ep : list nptr) (n : Node).

Lemma linked_Id : Id (linked fromNode toNode to dyn p en ep n) = Id n.
Proof. linked_field dyn. Qed.
Lemma linked_parentDag : parentDag (linked fromNode toNode to dyn p en ep n) = parentDag n.
Proof. linked_field dyn. Qed.
Lemma linked_subDag : subDag (linked fromNode toNode to dyn p en ep n) = subDag n.
Proof. linked_field dyn. Qed.
Lemma linked_conditionalDags :
  conditionalDags (linked fromNode toNode to dyn p en ep n) = conditionalDags n.
Proof. linked_field dyn. Qed.
Lemma linked_uniqueId : uniqueId (linked fromNode toNode to dyn p en ep n) = uniqueId n.
Proof. linked_field dyn. Qed.
Lemma linked_next : next (linked fromNode toNode to dyn p en ep n) = next n ++ en.
Proof. linked_field dyn. Qed.
Lemma linked_prev : prev (linked fromNode toNode to dyn p en ep n) = prev n ++ ep.
Proof. linked_field dyn. Qed.
Lemma linked_children :
  children (linked fromNode toNode to dyn p en ep n)
  = if decide (p = fromNode) then children n ++ [toNode] else children n.
Proof. linked_field dyn. Qed.
Lemma linked_outdegree :
  outdegree (linked fromNode toNode to dyn p en ep n)
  = if decide (p = fromNode) then int_incr (outdegree n) else outdegree n.
Proof. linked_field dyn. Qed.
Lemma linked_forwarder :
  forwarder (linked fromNode toNode to dyn p en ep n)
  = if decide (p = fromNode) then <[to := Some DefaultForwarder]> (forwarder n)
    else forwarder n.
Proof. linked_field dyn. Qed.
Lemma linked_dependsOn :
  toNode ≠ fromNode →
  dependsOn (linked fromNode toNode to dyn p en ep n)
  = if decide (p = toNode) then dependsOn n ++ [fromNode] else dependsOn n.
Proof. intros. linked_field dyn. Qed.
Lemma linked_indegree :
  toNode ≠ fromNode →
  indegree (linked fromNode toNode to dyn p en ep n)
  = if decide (p = toNode) then int_incr (indegree n) else indegree n.
Proof. intros. linked_field dyn. Qed.
End linked_fields.

(** What the graph records keep *)
Lemma dagAt_fold_extendNext toNode l : ∀ h d,
  dagAt (fold_left (extendNext toNode) l h) d = dagAt h d.
Proof. induction l as [|b l IH]; intros h d; simpl; [done|]. by rewrite IH. Qed.

Lemma dagAt_fold_extendPrev fromNode l : ∀ h d,
  dagAt (fold_left (extendPrev fromNode) l h) d = dagAt h d.
Proof. induction l as [|b l IH]; intros h d; simpl; [done|]. by rewrite IH. Qed.

Lemma nodeCount_fold_extendNext toNode l : ∀ h,
  nodeCount (fold_left (extendNext toNode) l h) = nodeCount h.
Proof. induction l as [|b l IH]; intros h; simpl; [done|]. by rewrite IH. Qed.

Lemma nodeCount_fold_extendPrev fromNode l : ∀ h,
  nodeCount (fold_left (extendPrev fromNode) l h) = nodeCount h.
Proof. induction l as [|b l IH]; intros h; simpl; [done|]. by rewrite IH. Qed.

Lemma dagAt_updateNext fromNode toNode h d :
  dagAt (updateNext fromNode toNode h) d = dagAt h d.
Proof. unfold updateNext. by rewrite dagAt_fold_extendNext. Qed.

Lemma dagAt_updatePrev fromNode toNode h d :
  dagAt (updatePrev fromNode toNode h) d = dagAt h d.
Proof. unfold updatePrev. by rewrite dagAt_fold_extendPrev. Qed.

Lemma nodeCount_updateNext fromNode toNode h :
  nodeCount (updateNext fromNode toNode h) = nodeCount h.
Proof. unfold updateNext. by rewrite nodeCount_fold_extendNext. Qed.

Lemma nodeCount_updatePrev fromNode toNode h :
  nodeCount (updatePrev fromNode toNode h) = nodeCount h.
Proof. unfold updatePrev. by rewrite nodeCount_fold_extendPrev. Qed.

Lemma dagAt_countEdge fromNode toNode h d :
  dagAt (countEdge fromNode toNode h) d = dagAt h d.
Proof. unfold countEdge. by case_match. Qed.

Lemma nodeCount_countEdge fromNode toNode h :
  nodeCount (countEdge fromNode toNode h) = nodeCount h.
Proof. unfold countEdge. by case_match. Qed.

Lemma nodeCount_AddForwarder node child fwd h :
  nodeCount (AddForwarder node child fwd h) = nodeCount h.
Proof. unfold AddForwarder. destruct fwd; [done|]. by case_match. Qed.

Lemma dagCore_AddForwarder node child fwd h d :
  dagCore (dagAt (AddForwarder node child fwd h) d) = dagCore (dagAt h d).
Proof. unfold AddForwarder, dagCore. destruct fwd; [|case_match];
    (rewrite ?dagAt_updDag; repeat case_decide; subst; simpl;
     rewrite ?dagAt_updDag; repeat case_decide; done). Qed.

Lemma dagCore_flagEdge dag fromNode toNode h d :
  dagCore (dagAt (flagEdge dag fromNode toNode h) d) = dagCore (dagAt h d).
Proof. unfold flagEdge, dagCore. case_match;
    (rewrite ?dagAt_updDag; repeat case_decide; subst; simpl;
     rewrite ?dagAt_updDag; repeat case_decide; done). Qed.

Lemma nodeCount_flagEdge dag fromNode toNode h :
  nodeCount (flagEdge dag fromNode toNode h) = nodeCount h.
Proof. unfold flagEdge. by case_match. Qed.

Lemma dagCore_linkEdge dag fromNode toNode to h d :
  dagCore (dagAt (linkEdge dag fromNode toNode to h) d) = dagCore (dagAt h d).
Proof.
  unfold linkEdge.
  by rewrite dagCore_flagEdge, dagCore_AddForwarder, dagAt_countEdge,
    dagAt_updatePrev, dagAt_updateNext.
Qed.

Lemma dagCore_nodes g g' : dagCore g' = dagCore g → nodes g' = nodes g.
Proof. by intros [= _ ? _ _]. Qed.
Lemma dagCore_DagId g g' : dagCore g' = dagCore g → DagId g' = DagId g.
Proof. by intros [= ? _ _ _]. Qed.
Lemma dagCore_validated g g' : dagCore g' = dagCore g → validated g' = validated g.
Proof. by intros [= _ _ ? _]. Qed.

Lemma nodes_linkEdge dag fromNode toNode to h d :
  nodes (dagAt (linkEdge dag fromNode toNode to h) d) = nodes (dagAt h d).
Proof. apply dagCore_nodes, dagCore_linkEdge. Qed.

Lemma nodeCount_linkEdge dag fromNode toNode to h :
  nodeCount (linkEdge dag fromNode toNode to h) = nodeCount h.
Proof.
  unfold linkEdge.
  by rewrite nodeCount_flagEdge, nodeCount_AddForwarder, nodeCount_countEdge,
    nodeCount_updatePrev, nodeCount_updateNext.
Qed.

(** ** The invariant *)

Lemma Inv_mono B B' h dag : Inv B h dag → (B ≤ B')%nat → Inv B' h dag.
Proof.
  intros [Ikey Iown Iplain Ialloc Iout Iin Ibound Icount Ichildren IdependsOn Itrans Isym Iirrefl] HB. split; try done.
  - intros p Hp. destruct (Ibound p Hp). lia.
  - lia.
Qed.

Lemma Inv_NewDag h : nodeCount h = 0%nat → Inv 0 (NewDag h).1 (NewDag h).2.
Proof.
  intros E. unfold NewDag.
  assert (En : ∀ id, nodes (dagAt (allocDag (mkDag "0" ∅ None None None false false false true 0 0) h).1
             (allocDag (mkDag "0" ∅ None None None false false false true 0 0) h).2) !! id = None).
  { intros id. unfold dagAt, allocDag. simpl. by rewrite lookup_insert_eq. }
  assert (Ec : nodeCount (allocDag (mkDag "0" ∅ None None None false false false true 0 0) h).1 = 0%nat) by done.
  split; unfold allocated; rewrite ?Ec; try (intros; lia).
  intros id p Hp. by rewrite En in Hp.
Qed.

Lemma wrap64_small z : - 2 ^ 63 ≤ z < 2 ^ 63 → wrap64 z = z.
Proof.
  intros Hz. unfold wrap64.
  rewrite Z.mod_small; lia.
Qed.

Lemma int_incr_nat (n : nat) : Z.of_nat n + 1 < 2 ^ 63 → int_incr (Z.of_nat n) = Z.of_nat (S n).
Proof. intros Hn. unfold int_incr. rewrite wrap64_small; lia. Qed.

(** AddVertex with a new id *)
Lemma nodeAt_AddVertex dag id ops h q :
  nodeAt (AddVertex dag id ops h).1 q =
    if decide (q = nodeCount h)
    then newNode dag id ops (wrap64 (nodeIndex (dagAt h dag) + 1))
    else nodeAt h q.
Proof.
  rewrite AddVertex_unfold. cbn [fst].
  rewrite 2!nodeAt_updDag. apply nodeAt_allocNode.
Qed.

Lemma nodes_AddVertex dag id ops h :
  nodes (dagAt (AddVertex dag id ops h).1 dag) = <[id := nodeCount h]> (nodes (dagAt h dag)).
Proof. rewrite AddVertex_unfold. cbn [fst]. by rewrite 2!dagAt_updDag_eq. Qed.

Lemma nodeCount_AddVertex dag id ops h :
  nodeCount (AddVertex dag id ops h).1 = S (nodeCount h).
Proof. by rewrite AddVertex_unfold. Qed.

Lemma Inv_AddVertex B h dag id ops :
  Inv B h dag → nodes (dagAt h dag) !! id = None →
  Inv (S B) (AddVertex dag id ops h).1 dag.
Proof.
  intros [Ikey Iown Iplain Ialloc Iout Iin Ibound Icount Ichildren IdependsOn Itrans Isym Iirrefl] Hnew.
  assert (Hold : ∀ p, allocated h p → nodeAt (AddVertex dag id ops h).1 p = nodeAt h p).
  { intros p Hp. rewrite nodeAt_AddVertex. rewrite decide_False; [done|]. unfold allocated in Hp; lia. }
  assert (Hnode : nodeAt (AddVertex dag id ops h).1 (nodeCount h)
                  = newNode dag id ops (wrap64 (nodeIndex (dagAt h dag) + 1))).
  { rewrite nodeAt_AddVertex. by rewrite decide_True. }
  assert (Hcase : ∀ p, allocated (AddVertex dag id ops h).1 p → p = nodeCount h ∨ allocated h p).
  { intros p. unfold allocated. rewrite nodeCount_AddVertex. lia. }
  assert (Hup : ∀ p, allocated h p → allocated (AddVertex dag id ops h).1 p).
  { intros p. unfold allocated. rewrite nodeCount_AddVertex. lia. }
  split.
  - intros k p. rewrite nodes_AddVertex. rewrite lookup_insert.
    case_decide as Ek.
    + subst k. intros [= <-]. split; [unfold allocated; rewrite nodeCount_AddVertex; lia|].
      by rewrite Hnode.
    + intros Hk. destruct (Ikey k p Hk) as [Hp Hid]. split; [by apply Hup|].
      by rewrite Hold.
  - intros p Hp. rewrite nodes_AddVertex. destruct (Hcase p Hp) as [->|Hp'].
    + rewrite Hnode. simpl. by rewrite lookup_insert_eq.
    + rewrite Hold by done. rewrite lookup_insert_ne; [by apply Iown|].
      intros ->. rewrite (Iown p Hp') in Hnew. done.
  - intros p Hp. destruct (Hcase p Hp) as [->|Hp'].
    + by rewrite Hnode.
    + rewrite Hold by done. by apply Iplain.
  - intros p q Hp. destruct (Hcase p Hp) as [->|Hp'].
    + rewrite Hnode. simpl. rewrite !elem_of_nil. tauto.
    + rewrite Hold by done. intros Hq. apply Hup. by eapply Ialloc.
  - intros p Hp. destruct (Hcase p Hp) as [->|Hp'].
    + by rewrite Hnode.
    + rewrite Hold by done. by apply Iout.
  - intros p Hp. destruct (Hcase p Hp) as [->|Hp'].
    + by rewrite Hnode.
    + rewrite Hold by done. by apply Iin.
  - intros p Hp. destruct (Hcase p Hp) as [->|Hp'].
    + rewrite Hnode. simpl. lia.
    + rewrite Hold by done. destruct (Ibound p Hp'). lia.
  - rewrite nodeCount_AddVertex. lia.
  - intros p q Hp. destruct (Hcase p Hp) as [->|Hp'].
    + rewrite Hnode. simpl. rewrite ?elem_of_nil. tauto.
    + rewrite Hold by done. by apply Ichildren.
  - intros p q Hp. destruct (Hcase p Hp) as [->|Hp'].
    + rewrite Hnode. simpl. rewrite ?elem_of_nil. tauto.
    + rewrite Hold by done. by apply IdependsOn.
  - intros p q r Hp. destruct (Hcase p Hp) as [->|Hp'].
    + rewrite Hnode. simpl. rewrite ?elem_of_nil. tauto.
    + rewrite Hold by done. intros Hq.
      assert (allocated h q) by (eapply Ialloc; eauto).
      rewrite Hold by done. by apply Itrans.
  - intros p q Hp Hq. destruct (Hcase p Hp) as [->|Hp'], (Hcase q Hq) as [->|Hq'].
    + rewrite Hnode. simpl. rewrite ?elem_of_nil. tauto.
    + rewrite Hnode, Hold by done. simpl. rewrite elem_of_nil. split; [done|].
      intros Hin. assert (allocated h (nodeCount h)) by (eapply Ialloc; eauto).
      unfold allocated in *; lia.
    + rewrite Hnode, Hold by done. simpl. rewrite elem_of_nil. split; [|done].
      intros Hin. assert (allocated h (nodeCount h)) by (eapply Ialloc; eauto).
      unfold allocated in *; lia.
    + rewrite !Hold by done. by apply Isym.
  - intros p Hp. destruct (Hcase p Hp) as [->|Hp'].
    + rewrite Hnode. simpl. rewrite ?elem_of_nil. tauto.
    + rewrite Hold by done. by apply Iirrefl.
Qed.

(** ** [linkEdge] keeps the invariant *)

Section link.
Context (B : nat) (h : Heap) (dag : dptr) (fromNode toNode : nptr) (to : string).
Hypothesis HI : Inv B h dag.
Hypothesis Hfrom : allocated h fromNode.
Hypothesis Hto : allocated h toNode.
Hypothesis Hne : toNode ≠ fromNode.
Hypothesis Hnext : fromNode ∉ next (nodeAt h toNode).
Hypothesis Hprev : toNode ∉ prev (nodeAt h fromNode).

Local Abbreviation h' := (linkEdge dag fromNode toNode to h).

Lemma linkEdge_allocated p : allocated h' p ↔ allocated h p.
Proof. unfold allocated. by rewrite nodeCount_linkEdge. Qed.

Lemma linkEdge_nodes d : nodes (dagAt h' d) = nodes (dagAt h d).
Proof. apply nodes_linkEdge. Qed.

Lemma linkEdge_nodeCount : nodeCount h' = nodeCount h.
Proof. apply nodeCount_linkEdge. Qed.

Lemma linkEdge_next p q :
  q ∈ next (nodeAt h' p) ↔
  q ∈ next (nodeAt h p)
  ∨ (p ∈ fromNode :: prev (nodeAt h fromNode) ∧ q ∈ toNode :: next (nodeAt h toNode)).
Proof.
  destruct (linkEdge_nodeAt dag fromNode toNode to h p Hne Hprev Hnext)
    as (en & ep & E & Hen & Hep).
  rewrite E, linked_next, elem_of_app, Hen. done.
Qed.

Lemma linkEdge_prev p q :
  q ∈ prev (nodeAt h' p) ↔
  q ∈ prev (nodeAt h p)
  ∨ (p ∈ toNode :: next (nodeAt h toNode) ∧ q ∈ fromNode :: prev (nodeAt h fromNode)).
Proof.
  destruct (linkEdge_nodeAt dag fromNode toNode to h p Hne Hprev Hnext)
    as (en & ep & E & Hen & Hep).
  rewrite E, linked_prev, elem_of_app, Hep. done.
Qed.

Lemma linkEdge_children p :
  children (nodeAt h' p)
  = if decide (p = fromNode) then children (nodeAt h p) ++ [toNode]
    else children (nodeAt h p).
Proof.
  destruct (linkEdge_nodeAt dag fromNode toNode to h p Hne Hprev Hnext)
    as (en & ep & E & _).
  by rewrite E, linked_children.
Qed.

Lemma linkEdge_dependsOn p :
  dependsOn (nodeAt h' p)
  = if decide (p = toNode) then dependsOn (nodeAt h p) ++ [fromNode]
    else dependsOn (nodeAt h p).
Proof.
  destruct (linkEdge_nodeAt dag fromNode toNode to h p Hne Hprev Hnext)
    as (en & ep & E & _).
  by rewrite E, linked_dependsOn.
Qed.

Lemma linkEdge_outdegree p :
  outdegree (nodeAt h' p)
  = if decide (p = fromNode) then int_incr (outdegree (nodeAt h p))
    else outdegree (nodeAt h p).
Proof.
  destruct (linkEdge_nodeAt dag fromNode toNode to h p Hne Hprev Hnext)
    as (en & ep & E & _).
  by rewrite E, linked_outdegree.
Qed.

Lemma linkEdge_indegree p :
  indegree (nodeAt h' p)
  = if decide (p = toNode) then int_incr (indegree (nodeAt h p))
    else indegree (nodeAt h p).
Proof.
  destruct (linkEdge_nodeAt dag fromNode toNode to h p Hne Hprev Hnext)
    as (en & ep & E & _).
  by rewrite E, linked_indegree.
Qed.

Lemma linkEdge_forwarder p :
  forwarder (nodeAt h' p)
  = if decide (p = fromNode)
    then <[to := Some DefaultForwarder]> (forwarder (nodeAt h p))
    else forwarder (nodeAt h p).
Proof.
  destruct (linkEdge_nodeAt dag fromNode toNode to h p Hne Hprev Hnext)
    as (en & ep & E & _).
  by rewrite E, linked_forwarder.
Qed.

Lemma linkEdge_Id p : Id (nodeAt h' p) = Id (nodeAt h p).
Proof.
  destruct (linkEdge_nodeAt dag fromNode toNode to h p Hne Hprev Hnext)
    as (en & ep & E & _).
  by rewrite E, linked_Id.
Qed.

Lemma linkEdge_uniqueId p : uniqueId (nodeAt h' p) = uniqueId (nodeAt h p).
Proof.
  destruct (linkEdge_nodeAt dag fromNode toNode to h p Hne Hprev Hnext)
    as (en & ep & E & _).
  by rewrite E, linked_uniqueId.
Qed.

Lemma linkEdge_plain p :
  parentDag (nodeAt h' p) = parentDag (nodeAt h p)
  ∧ subDag (nodeAt h' p) = subDag (nodeAt h p)
  ∧ conditionalDags (nodeAt h' p) = conditionalDags (nodeAt h p).
Proof.
  destruct (linkEdge_nodeAt dag fromNode toNode to h p Hne Hprev Hnext)
    as (en & ep & E & _).
  by rewrite E, linked_parentDag, linked_subDag, linked_conditionalDags.
Qed.

(** membership in the two sets the closure is extended over *)
Lemma before_from p :
  allocated h p →
  p ∈ fromNode :: prev (nodeAt h fromNode) ↔ p = fromNode ∨ fromNode ∈ next (nodeAt h p).
Proof.
  intros Hp. rewrite elem_of_cons. by rewrite (inv_sym _ _ _ HI p fromNode Hp Hfrom).
Qed.

Lemma linkEdge_Inv : Z.of_nat B + 1 < 2 ^ 63 → Inv (S B) h' dag.
Proof.
  intros HB. pose proof HI as [Ikey Iown Iplain Ialloc Iout Iin Ibound Icount Ichildren IdependsOn Itrans Isym Iirrefl].
  split.
  - intros id p. rewrite linkEdge_nodes. intros Hid.
    destruct (Ikey id p Hid). by rewrite linkEdge_allocated, linkEdge_Id.
  - intros p. rewrite linkEdge_allocated, linkEdge_Id, linkEdge_nodes. apply Iown.
  - intros p. rewrite linkEdge_allocated. destruct (linkEdge_plain p) as (-> & -> & ->).
    apply Iplain.
  - intros p q. rewrite !linkEdge_allocated, linkEdge_next, linkEdge_prev.
    rewrite !elem_of_cons. intros Hp Hq.
    assert (∀ x, x ∈ next (nodeAt h toNode) → allocated h x)
      by (intros x Hx; apply (Ialloc toNode x Hto); by left).
    assert (∀ x, x ∈ prev (nodeAt h fromNode) → allocated h x)
      by (intros x Hx; apply (Ialloc fromNode x Hfrom); by right).
    assert (∀ x, x ∈ next (nodeAt h p) → allocated h x)
      by (intros x Hx; apply (Ialloc p x Hp); by left).
    assert (∀ x, x ∈ prev (nodeAt h p) → allocated h x)
      by (intros x Hx; apply (Ialloc p x Hp); by right).
    intuition (subst; auto).
  - intros p. rewrite linkEdge_allocated, linkEdge_outdegree, linkEdge_children.
    intros Hp. rewrite (Iout p Hp). destruct (Ibound p Hp).
    case_decide; [|done]. rewrite length_app. simpl.
    rewrite int_incr_nat by lia. f_equal. lia.
  - intros p. rewrite linkEdge_allocated, linkEdge_indegree, linkEdge_dependsOn.
    intros Hp. rewrite (Iin p Hp). destruct (Ibound p Hp).
    case_decide; [|done]. rewrite length_app. simpl.
    rewrite int_incr_nat by lia. f_equal. lia.
  - intros p. rewrite linkEdge_allocated, linkEdge_children, linkEdge_dependsOn.
    intros Hp. destruct (Ibound p Hp).
    repeat case_decide; rewrite ?length_app; simpl; lia.
  - rewrite linkEdge_nodeCount. lia.
  - intros p q. rewrite linkEdge_allocated, linkEdge_children, linkEdge_next.
    intros Hp. case_decide as Ep.
    + subst p. rewrite elem_of_app, list_elem_of_singleton. intros [Hq| ->].
      * left. by apply Ichildren.
      * right. split; left.
    + intros Hq. left. by apply Ichildren.
  - intros p q. rewrite linkEdge_allocated, linkEdge_dependsOn, linkEdge_prev.
    intros Hp. case_decide as Ep.
    + subst p. rewrite elem_of_app, list_elem_of_singleton. intros [Hq| ->].
      * left. by apply IdependsOn.
      * right. split; left.
    + intros Hq. left. by apply IdependsOn.
  - intros p q r. rewrite linkEdge_allocated, !linkEdge_next. intros Hp Hq Hr.
    destruct Hq as [Hq|[HpF HqT]].
    + assert (Hqa : allocated h q) by (apply (Ialloc p q Hp); by left).
      destruct Hr as [Hr|[HqF HrT]].
      * left. by eapply Itrans.
      * right. split; [|done]. apply before_from; [done|]. right.
        apply (before_from q Hqa) in HqF. destruct HqF as [->|HqF]; [done|].
        by apply (Itrans p q fromNode).
    + right. split; [done|]. destruct Hr as [Hr|[_ HrT]]; [|done].
      apply elem_of_cons in HqT as [->|HqT]; [by right|].
      right. by eapply (Itrans toNode q r).
  - intros p q. rewrite !linkEdge_allocated, linkEdge_next, linkEdge_prev.
    intros Hp Hq. rewrite (Isym p q Hp Hq). tauto.
  - intros p. rewrite linkEdge_allocated, linkEdge_next. intros Hp [Hpp|[HpF HpT]].
    + by apply (Iirrefl p).
    + apply before_from in HpF; [|done].
      apply elem_of_cons in HpT.
      destruct HpF as [E1|HpF], HpT as [E2|HpT].
      * congruence.
      * apply Hnext. by rewrite <- E1.
      * apply Hnext. by rewrite <- E2.
      * apply Hnext. by apply (Itrans toNode p fromNode).
Qed.
End link.

(** ** [AddEdge] keeps the invariant *)

Lemma Inv_Id_inj B h dag p q :
  Inv B h dag → allocated h p → allocated h q →
  Id (nodeAt h q) = Id (nodeAt h p) → q = p.
Proof.
  intros HI Hp Hq E.
  pose proof (inv_own _ _ _ HI p Hp) as Ep.
  pose proof (inv_own _ _ _ HI q Hq) as Eq.
  rewrite E, Ep in Eq. by injection Eq.
Qed.

(** Under the invariant, membership by id is membership. *)
Lemma inSlice_spec B h dag p l :
  Inv B h dag → allocated h p → (∀ q, q ∈ l → allocated h q) →
  inSlice h p l = true ↔ p ∈ l.
Proof.
  intros HI Hp Hl. unfold inSlice. rewrite existsb_exists. split.
  - intros (q & Hq & E). apply list_elem_of_In in Hq.
    apply String.eqb_eq in E. by rewrite <- (Inv_Id_inj B h dag p q HI Hp (Hl q Hq) E).
  - intros Hin. exists p. split; [by apply list_elem_of_In|]. apply String.eqb_refl.
Qed.

Lemma inSlice_false B h dag p l :
  Inv B h dag → allocated h p → (∀ q, q ∈ l → allocated h q) →
  p ∉ l → inSlice h p l = false.
Proof.
  intros HI Hp Hl Hnot. apply not_true_is_false.
  by rewrite (inSlice_spec B h dag p l HI Hp Hl).
Qed.

Lemma Inv_children_alloc B h dag p q :
  Inv B h dag → allocated h p → q ∈ children (nodeAt h p) → allocated h q.
Proof.
  intros HI Hp Hq. apply (inv_alloc _ _ _ HI p q Hp). left.
  by apply (inv_children _ _ _ HI).
Qed.

Lemma Inv_dependsOn_alloc B h dag p q :
  Inv B h dag → allocated h p → q ∈ dependsOn (nodeAt h p) → allocated h q.
Proof.
  intros HI Hp Hq. apply (inv_alloc _ _ _ HI p q Hp). right.
  by apply (inv_dependsOn _ _ _ HI).
Qed.

(** [AddEdge] between two vertices that exist *)
Lemma AddEdge_present dag from to h fromNode toNode :
  nodes (dagAt h dag) !! from = Some fromNode →
  nodes (dagAt h dag) !! to = Some toNode →
  AddEdge dag from to h =
    if inSlice h toNode (children (nodeAt h fromNode))
       || inSlice h fromNode (dependsOn (nodeAt h toNode))
    then (h, Some ErrDuplicateEdge)
    else if inSlice h fromNode (next (nodeAt h toNode))
            || inSlice h toNode (prev (nodeAt h fromNode))
    then (h, Some ErrCyclic)
    else (linkEdge dag fromNode toNode to h, None).
Proof. intros Ef Et. unfold AddEdge, getOrAddVertex. by rewrite Ef, Et. Qed.

Lemma AddEdge_accepted B dag from to h fromNode toNode :
  Inv B h dag →
  nodes (dagAt h dag) !! from = Some fromNode →
  nodes (dagAt h dag) !! to = Some toNode →
  toNode ∉ children (nodeAt h fromNode) →
  fromNode ∉ dependsOn (nodeAt h toNode) →
  fromNode ∉ next (nodeAt h toNode) →
  toNode ∉ prev (nodeAt h fromNode) →
  AddEdge dag from to h = (linkEdge dag fromNode toNode to h, None).
Proof.
  intros HI Ef Et H1 H2 H3 H4.
  destruct (inv_key _ _ _ HI _ _ Ef) as [Hf _].
  destruct (inv_key _ _ _ HI _ _ Et) as [Ht _].
  rewrite (AddEdge_present dag from to h fromNode toNode Ef Et).
  rewrite (inSlice_false B h dag toNode (children (nodeAt h fromNode))); try done;
    [|intros q; by apply (Inv_children_alloc B h dag)].
  rewrite (inSlice_false B h dag fromNode (dependsOn (nodeAt h toNode))); try done;
    [|intros q; by apply (Inv_dependsOn_alloc B h dag)].
  rewrite (inSlice_false B h dag fromNode (next (nodeAt h toNode))); try done;
    [|intros q Hq; apply (inv_alloc _ _ _ HI toNode q Ht); by left].
  rewrite (inSlice_false B h dag toNode (prev (nodeAt h fromNode))); try done.
  intros q Hq; apply (inv_alloc _ _ _ HI fromNode q Hf); by right.
Qed.

(** What [getOrAddVertex] leaves behind *)
Lemma dagAt_AddVertex_other dag id ops h d :
  d ≠ dag → dagAt (AddVertex dag id ops h).1 d = dagAt h d.
Proof.
  intros Hd. rewrite AddVertex_unfold. cbn [fst].
  rewrite dagAt_updDag, decide_False by done.
  by rewrite dagAt_updDag, decide_False by done.
Qed.

Lemma DagId_AddVertex dag id ops h d :
  DagId (dagAt (AddVertex dag id ops h).1 d) = DagId (dagAt h d).
Proof.
  destruct (decide (d = dag)) as [->|Hd]; [|by rewrite dagAt_AddVertex_other].
  rewrite AddVertex_unfold. cbn [fst]. by rewrite 2!dagAt_updDag_eq.
Qed.

Lemma validated_AddVertex dag id ops h d :
  validated (dagAt (AddVertex dag id ops h).1 d) = validated (dagAt h d).
Proof.
  destruct (decide (d = dag)) as [->|Hd]; [|by rewrite dagAt_AddVertex_other].
  rewrite AddVertex_unfold. cbn [fst]. by rewrite 2!dagAt_updDag_eq.
Qed.

Lemma getOrAddVertex_spec B dag id h :
  Inv B h dag →
  let h' := (getOrAddVertex dag id h).1 in
  let p := (getOrAddVertex dag id h).2 in
  Inv (S B) h' dag
  ∧ nodes (dagAt h' dag) !! id = Some p
  ∧ (∀ k q, nodes (dagAt h dag) !! k = Some q → nodes (dagAt h' dag) !! k = Some q)
  ∧ (∀ k, is_Some (nodes (dagAt h' dag) !! k) → is_Some (nodes (dagAt h dag) !! k) ∨ k = id)
  ∧ DagId (dagAt h' dag) = DagId (dagAt h dag)
  ∧ validated (dagAt h' dag) = validated (dagAt h dag).
Proof.
  intros HI. unfold getOrAddVertex.
  destruct (nodes (dagAt h dag) !! id) as [p|] eqn:E; cbn zeta.
  - cbn [fst snd]. split; [apply (Inv_mono B); [done|lia]|]. repeat split; auto.
  - split; [by apply Inv_AddVertex|].
    rewrite nodes_AddVertex, DagId_AddVertex, validated_AddVertex.
    rewrite AddVertex_unfold. cbn [snd].
    repeat split.
    + by rewrite lookup_insert_eq.
    + intros k q Hk. rewrite lookup_insert_ne; [done|]. intros <-. by rewrite E in Hk.
    + intros k. rewrite lookup_insert. case_decide; [by right|by left].
Qed.

Lemma AddEdge_cases dag from to h :
  let h1 := (getOrAddVertex dag from h).1 in
  let fromNode := (getOrAddVertex dag from h).2 in
  let h2 := (getOrAddVertex dag to h1).1 in
  let toNode := (getOrAddVertex dag to h1).2 in
  (AddEdge dag from to h).1 = h2
  ∨ (AddEdge dag from to h = (linkEdge dag fromNode toNode to h2, None)
     ∧ inSlice h2 fromNode (next (nodeAt h2 toNode)) = false
     ∧ inSlice h2 toNode (prev (nodeAt h2 fromNode)) = false).
Proof.
  cbv zeta. unfold AddEdge.
  destruct (getOrAddVertex dag from h) as [h1 fromNode]. cbn [fst snd].
  destruct (getOrAddVertex dag to h1) as [h2 toNode]. cbn [fst snd].
  destruct (inSlice h2 toNode _ || inSlice h2 fromNode (dependsOn _)); [by left|].
  destruct (inSlice h2 fromNode (next _)) eqn:E1; [by left|].
  destruct (inSlice h2 toNode (prev _)) eqn:E2; [by left|].
  by right.
Qed.

Lemma Inv_AddEdge B dag from to h :
  Inv B h dag → from ≠ to → Z.of_nat B + 3 < 2 ^ 63 →
  let h' := (AddEdge dag from to h).1 in
  Inv (B + 3) h' dag
  ∧ (∀ k q, nodes (dagAt h dag) !! k = Some q → nodes (dagAt h' dag) !! k = Some q)
  ∧ (∀ k, is_Some (nodes (dagAt h' dag) !! k) →
          is_Some (nodes (dagAt h dag) !! k) ∨ k = from ∨ k = to)
  ∧ DagId (dagAt h' dag) = DagId (dagAt h dag)
  ∧ validated (dagAt h' dag) = validated (dagAt h dag).
Proof.
  intros HI Hne HB.
  destruct (getOrAddVertex_spec B dag from h HI) as (HI1 & Ef & Hkeep1 & Hdom1 & Hid1 & Hv1).
  destruct (getOrAddVertex_spec (S B) dag to _ HI1) as (HI2 & Et & Hkeep2 & Hdom2 & Hid2 & Hv2).
  pose proof (Hkeep2 _ _ Ef) as Ef2.
  assert (Hdom : ∀ k, is_Some (nodes (dagAt (getOrAddVertex dag to (getOrAddVertex dag from h).1).1 dag) !! k) →
          is_Some (nodes (dagAt h dag) !! k) ∨ k = from ∨ k = to).
  { intros k Hk. destruct (Hdom2 k Hk) as [Hk'| ->]; [|by auto].
    destruct (Hdom1 k Hk') as [?| ->]; auto. }
  destruct (AddEdge_cases dag from to h) as [E|(E & E1 & E2)]; cbn zeta.
  - rewrite E. split; [apply (Inv_mono (S (S B))); [done|lia]|].
    repeat split; auto; congruence.
  - rewrite E. cbn [fst].
    set (h2 := (getOrAddVertex dag to (getOrAddVertex dag from h).1).1) in *.
    set (fromNode := (getOrAddVertex dag from h).2) in *.
    set (toNode := (getOrAddVertex dag to (getOrAddVertex dag from h).1).2) in *.
    destruct (inv_key _ _ _ HI2 _ _ Ef2) as [Hf Hidf].
    destruct (inv_key _ _ _ HI2 _ _ Et) as [Ht Hidt].
    assert (Hnodes : toNode ≠ fromNode) by (intros EE; rewrite EE in Hidt; congruence).
    assert (H3 : fromNode ∉ next (nodeAt h2 toNode)).
    { intros Hin. apply (inSlice_spec (S (S B)) h2 dag) in Hin; try done; [congruence|].
      intros q Hq. apply (inv_alloc _ _ _ HI2 toNode q Ht). by left. }
    assert (H4 : toNode ∉ prev (nodeAt h2 fromNode)).
    { intros Hin. apply (inSlice_spec (S (S B)) h2 dag) in Hin; try done; [congruence|].
      intros q Hq. apply (inv_alloc _ _ _ HI2 fromNode q Hf). by right. }
    split.
    { replace (B + 3)%nat with (S (S (S B))) by lia.
      apply linkEdge_Inv; try done. lia. }
    rewrite nodes_linkEdge.
    rewrite (dagCore_DagId _ _ (dagCore_linkEdge dag fromNode toNode to h2 dag)).
    rewrite (dagCore_validated _ _ (dagCore_linkEdge dag fromNode toNode to h2 dag)).
    repeat split; auto; congruence.
Qed.

(** ** Graphs built by clean calls *)

Lemma Built_NewDag : Built 0 [] (NewDag emptyHeap).1 (NewDag emptyHeap).2.
Proof.
  split; try done.
  - by apply Inv_NewDag.
  - intros id [p Hp]. done.
Qed.

Lemma eqb_false_ne (s t : string) : negb (String.eqb s t) = true → s ≠ t.
Proof. intros H ->. by rewrite String.eqb_refl in H. Qed.

Lemma Built_perform B seen h dag c cs :
  Built B seen h dag → clean_from seen (c :: cs) = true →
  Z.of_nat B + 3 < 2 ^ 63 →
  ∃ seen', Built (B + 3) seen' (perform dag h c) dag ∧ clean_from seen' cs = true.
Proof.
  intros [HI Hseen Hend Hid Hv] Hclean HB. destruct c as [id ops|from to]; simpl in Hclean; cbn [perform].
  - apply andb_prop in Hclean as [Hclean Hrest].
    apply andb_prop in Hclean as [Hnew Hne].
    apply negb_true_iff, bool_decide_eq_false in Hnew.
    apply eqb_false_ne in Hne.
    assert (Hfresh : nodes (dagAt h dag) !! id = None).
    { destruct (nodes (dagAt h dag) !! id) eqn:E; [|done]. destruct Hnew. apply Hseen. eauto. }
    exists (id :: seen). split; [|done]. split.
    + apply (Inv_mono (S B)); [by apply Inv_AddVertex|lia].
    + intros k. rewrite nodes_AddVertex, lookup_insert. case_decide as Ek.
      * subst. intros _. left.
      * intros Hk. right. by apply Hseen.
    + rewrite nodes_AddVertex. by rewrite lookup_insert_ne.
    + by rewrite DagId_AddVertex.
    + by rewrite validated_AddVertex.
  - apply andb_prop in Hclean as [Hclean Hrest].
    apply andb_prop in Hclean as [Hclean Hne2].
    apply andb_prop in Hclean as [Hne Hne1].
    apply eqb_false_ne in Hne, Hne1, Hne2.
    destruct (Inv_AddEdge B dag from to h HI Hne HB) as (HI' & Hkeep & Hdom & Hid' & Hv').
    exists (from :: to :: seen). split; [|done]. split.
    + done.
    + intros k Hk. destruct (Hdom k Hk) as [Hk'|[->| ->]].
      * do 2 right. by apply Hseen.
      * left.
      * right. left.
    + destruct (nodes (dagAt (AddEdge dag from to h).1 dag) !! "end_0"%string) eqn:E; [|done].
      assert (Hsome : is_Some (nodes (dagAt (AddEdge dag from to h).1 dag) !! "end_0"%string))
        by eauto.
      destruct (Hdom "end_0"%string Hsome) as [[x Hx]|[?|?]]; [|congruence|congruence].
      by rewrite Hend in Hx.
    + congruence.
    + congruence.
Qed.

Lemma Built_fold dag cs : ∀ B seen h,
  Built B seen h dag → clean_from seen cs = true →
  Z.of_nat (B + 3 * length cs) < 2 ^ 63 →
  ∃ seen', Built (B + 3 * length cs) seen' (fold_left (perform dag) cs h) dag.
Proof.
  induction cs as [|c cs IH]; intros B seen h HB Hclean Hsmall.
  - exists seen. replace (B + 3 * length (@nil Call))%nat with B by (simpl; lia). done.
  - destruct (Built_perform B seen h dag c cs HB Hclean) as (seen' & HB' & Hclean').
    { simpl in Hsmall. lia. }
    cbn [fold_left]. destruct (IH (B + 3)%nat seen' _ HB' Hclean') as (seen'' & HB'').
    { simpl in Hsmall. lia. }
    exists seen''.
    by replace (B + 3 * length (c :: cs))%nat with (B + 3 + 3 * length cs)%nat by (simpl; lia).
Qed.

Lemma Built_build cs :
  clean cs = true → Z.of_nat (length cs) < 2 ^ 60 →
  ∃ seen, Built (3 * length cs) seen (build cs).1 (build cs).2.
Proof.
  intros Hclean Hsmall.
  destruct (Built_fold (NewDag emptyHeap).2 cs 0 [] (NewDag emptyHeap).1 Built_NewDag Hclean)
    as (seen & HB); [lia|].
  by exists seen.
Qed.

(** Graphs that satisfy the invariant are acyclic *)
Lemma Inv_reach B h dag p q :
  Inv B h dag → allocated h p → tc (edge h) p q → q ∈ next (nodeAt h p).
Proof.
  intros HI Hp Hpq. induction Hpq as [p q Hpq|p r q Hpr Hrq IH].
  - by apply (inv_children _ _ _ HI).
  - assert (Hr : r ∈ next (nodeAt h p)) by by apply (inv_children _ _ _ HI).
    apply (inv_trans _ _ _ HI p r q Hp Hr). apply IH.
    apply (inv_alloc _ _ _ HI p r Hp). by left.
Qed.

Lemma Inv_acyclic B h dag : Inv B h dag → acyclic h dag.
Proof.
  intros HI id p Hp Hcycle. destruct (inv_key _ _ _ HI id p Hp) as [Ha _].
  apply (inv_irrefl _ _ _ HI p Ha). by apply (Inv_reach B h dag).
Qed.

(** A transitive irreflexive relation on a non-empty list of candidates has
    a maximal candidate. *)
Lemma maximal_exists (R : nat → nat → Prop) (l : list nat) :
  (∀ x y, Decision (R x y)) →
  (∀ x, ¬ R x x) → (∀ x y z, R x y → R y z → R x z) →
  l ≠ [] → ∃ m, m ∈ l ∧ ∀ y, y ∈ l → ¬ R m y.
Proof.
  intros Hdec Hirr Htrans. induction l as [|x l IH]; [done|]. intros _.
  destruct l as [|x' l].
  - exists x. split; [left|]. intros y Hy. apply list_elem_of_singleton in Hy as ->. apply Hirr.
  - destruct IH as (m & Hm & Hmax); [done|].
    destruct (decide (R m x)) as [Hmx|Hmx].
    + exists x. split; [left|]. intros y Hy Hxy.
      apply elem_of_cons in Hy as [->|Hy]; [by apply (Hirr x)|].
      apply (Hmax y Hy). by apply (Htrans m x y).
    + exists m. split; [by right|]. intros y Hy.
      apply elem_of_cons in Hy as [->|Hy]; [done|by apply Hmax].
Qed.

Lemma Inv_has_exit B h dag :
  Inv B h dag → nodes (dagAt h dag) ≠ ∅ →
  ∃ id p, nodes (dagAt h dag) !! id = Some p ∧ outdegree (nodeAt h p) = 0.
Proof.
  intros HI Hne.
  assert (Hpos : seq 0 (nodeCount h) ≠ []).
  { destruct (map_choose _ Hne) as (id & p & Hp).
    destruct (inv_key _ _ _ HI id p Hp) as [Ha _]. unfold allocated in Ha.
    destruct (nodeCount h); [lia|done]. }
  destruct (maximal_exists (λ p q, allocated h p ∧ q ∈ next (nodeAt h p)) (seq 0 (nodeCount h)))
    as (m & Hm & Hmax); try done.
  - intros x y. unfold allocated. apply _.
  - intros x [Hx Hxx]. by apply (inv_irrefl _ _ _ HI x).
  - intros x y z [Hx Hxy] [Hy Hyz]. split; [done|]. by apply (inv_trans _ _ _ HI x y z).
  - apply elem_of_seq in Hm. assert (Ha : allocated h m) by (unfold allocated; lia).
    exists (Id (nodeAt h m)), m. split; [by apply (inv_own _ _ _ HI)|].
    rewrite (inv_out _ _ _ HI m Ha).
    rewrite (no_elements (children (nodeAt h m))); [done|].
    intros q Hq. apply (Hmax q).
    + apply elem_of_seq. pose proof (Inv_children_alloc B h dag m q HI Ha Hq) as Hqa.
      unfold allocated in Hqa. lia.
    + split; [done|]. by apply (inv_children _ _ _ HI).
Qed.

Lemma Inv_has_start B h dag :
  Inv B h dag → nodes (dagAt h dag) ≠ ∅ →
  ∃ id p, nodes (dagAt h dag) !! id = Some p ∧ indegree (nodeAt h p) = 0.
Proof.
  intros HI Hne.
  assert (Hpos : seq 0 (nodeCount h) ≠ []).
  { destruct (map_choose _ Hne) as (id & p & Hp).
    destruct (inv_key _ _ _ HI id p Hp) as [Ha _]. unfold allocated in Ha.
    destruct (nodeCount h); [lia|done]. }
  destruct (maximal_exists (λ p q, allocated h q ∧ p ∈ next (nodeAt h q)) (seq 0 (nodeCount h)))
    as (m & Hm & Hmax); try done.
  - intros x y. unfold allocated. apply _.
  - intros x [Hx Hxx]. by apply (inv_irrefl _ _ _ HI x).
  - intros x y z [Hy Hxy] [Hz Hyz]. split; [done|]. by apply (inv_trans _ _ _ HI z y x).
  - apply elem_of_seq in Hm. assert (Ha : allocated h m) by (unfold allocated; lia).
    exists (Id (nodeAt h m)), m. split; [by apply (inv_own _ _ _ HI)|].
    rewrite (inv_in _ _ _ HI m Ha).
    rewrite (no_elements (dependsOn (nodeAt h m))); [done|].
    intros q Hq. pose proof (Inv_dependsOn_alloc B h dag m q HI Ha Hq) as Hqa.
    apply (Hmax q).
    + apply elem_of_seq. unfold allocated in Hqa. lia.
    + split; [done|]. apply (inv_sym _ _ _ HI q m Hqa Ha).
      by apply (inv_dependsOn _ _ _ HI).
Qed.

(** ** Stores of the same shape *)

Lemma same_shape_refl h : same_shape h h.
Proof.
  split; [done|]. split; [|done].
  intros p. exists (uniqueId (nodeAt h p)), (forwarder (nodeAt h p)).
  by destruct (nodeAt h p).
Qed.

Lemma same_shape_trans h1 h2 h3 :
  same_shape h1 h2 → same_shape h2 h3 → same_shape h1 h3.
Proof.
  intros (Hc1 & Hn1 & Hd1) (Hc2 & Hn2 & Hd2). split; [congruence|]. split.
  - intros p. destruct (Hn1 p) as (u1 & f1 & E1), (Hn2 p) as (u2 & f2 & E2).
    exists u2, f2. by rewrite E2, E1.
  - intros d. by rewrite Hd2, Hd1.
Qed.

Lemma same_shape_updNode_uniqueId h b u :
  same_shape h (updNode b (set_uniqueId u) h).
Proof.
  split; [done|]. split; [|done].
  intros p. rewrite nodeAt_updNode. case_decide as E.
  - subst. exists u, (forwarder (nodeAt h b)). by destruct (nodeAt h b).
  - exists (uniqueId (nodeAt h p)), (forwarder (nodeAt h p)). by destruct (nodeAt h p).
Qed.

Lemma same_shape_updDag h d f :
  (∀ g, dagCore (f g) = dagCore g) → same_shape h (updDag d f h).
Proof.
  intros Hf. split; [done|]. split.
  - intros p. rewrite nodeAt_updDag. apply (same_shape_refl h).
  - intros e. rewrite dagAt_updDag. case_decide; [subst; apply Hf|done].
Qed.

Lemma same_shape_AddForwarder h node child fwd :
  same_shape h (AddForwarder node child fwd h).
Proof.
  split; [apply nodeCount_AddForwarder|]. split; [|intros d; apply dagCore_AddForwarder].
  intros p. rewrite nodeAt_AddForwarder. case_decide as E.
  - subst. exists (uniqueId (nodeAt h node)), (<[child := fwd]> (forwarder (nodeAt h node))).
    by destruct (nodeAt h node).
  - exists (uniqueId (nodeAt h p)), (forwarder (nodeAt h p)). by destruct (nodeAt h p).
Qed.

Section shape.
Context (h h' : Heap) (Hs : same_shape h h').

Lemma shape_allocated p : allocated h' p ↔ allocated h p.
Proof. destruct Hs as (Hc & _). unfold allocated. by rewrite Hc. Qed.
Lemma shape_nodes d : nodes (dagAt h' d) = nodes (dagAt h d).
Proof. destruct Hs as (_ & _ & Hd). apply dagCore_nodes, Hd. Qed.
Lemma shape_DagId d : DagId (dagAt h' d) = DagId (dagAt h d).
Proof. destruct Hs as (_ & _ & Hd). apply dagCore_DagId, Hd. Qed.
Lemma shape_validated d : validated (dagAt h' d) = validated (dagAt h d).
Proof. destruct Hs as (_ & _ & Hd). apply dagCore_validated, Hd. Qed.
Lemma shape_Id p : Id (nodeAt h' p) = Id (nodeAt h p).
Proof. destruct Hs as (_ & Hn & _). destruct (Hn p) as (u & f & ->). done. Qed.
Lemma shape_parentDag p : parentDag (nodeAt h' p) = parentDag (nodeAt h p).
Proof. destruct Hs as (_ & Hn & _). destruct (Hn p) as (u & f & ->). done. Qed.
Lemma shape_subDag p : subDag (nodeAt h' p) = subDag (nodeAt h p).
Proof. destruct Hs as (_ & Hn & _). destruct (Hn p) as (u & f & ->). done. Qed.
Lemma shape_conditionalDags p : conditionalDags (nodeAt h' p) = conditionalDags (nodeAt h p).
Proof. destruct Hs as (_ & Hn & _). destruct (Hn p) as (u & f & ->). done. Qed.
Lemma shape_indegree p : indegree (nodeAt h' p) = indegree (nodeAt h p).
Proof. destruct Hs as (_ & Hn & _). destruct (Hn p) as (u & f & ->). done. Qed.
Lemma shape_outdegree p : outdegree (nodeAt h' p) = outdegree (nodeAt h p).
Proof. destruct Hs as (_ & Hn & _). destruct (Hn p) as (u & f & ->). done. Qed.
Lemma shape_children p : children (nodeAt h' p) = children (nodeAt h p).
Proof. destruct Hs as (_ & Hn & _). destruct (Hn p) as (u & f & ->). done. Qed.
Lemma shape_dependsOn p : dependsOn (nodeAt h' p) = dependsOn (nodeAt h p).
Proof. destruct Hs as (_ & Hn & _). destruct (Hn p) as (u & f & ->). done. Qed.
Lemma shape_next p : next (nodeAt h' p) = next (nodeAt h p).
Proof. destruct Hs as (_ & Hn & _). destruct (Hn p) as (u & f & ->). done. Qed.
Lemma shape_prev p : prev (nodeAt h' p) = prev (nodeAt h p).
Proof. destruct Hs as (_ & Hn & _). destruct (Hn p) as (u & f & ->). done. Qed.

Lemma shape_Inv B dag : Inv B h dag → Inv B h' dag.
Proof.
  intros [Ikey Iown Iplain Ialloc Iout Iin Ibound Icount Ichildren IdependsOn Itrans Isym Iirrefl].
  split; intros *;
    rewrite ?shape_allocated, ?shape_nodes, ?shape_Id, ?shape_parentDag, ?shape_subDag,
      ?shape_conditionalDags, ?shape_indegree, ?shape_outdegree, ?shape_children,
      ?shape_dependsOn, ?shape_next, ?shape_prev; eauto.
  pose proof Hs as (Hc & _). by rewrite Hc.
Qed.

Lemma shape_Built B seen dag : Built B seen h dag → Built B seen h' dag.
Proof.
  intros [HI Hseen Hend Hid Hv]. split.
  - by apply shape_Inv.
  - intros id. rewrite shape_nodes. apply Hseen.
  - by rewrite shape_nodes.
  - by rewrite shape_DagId.
  - by rewrite shape_validated.
Qed.
End shape.

(** ** The loops of [Validate] *)

Lemma forEach_leaves {A B X : Type} (P : B → Prop)
    (body : A → X → Heap → Heap * (A + B)) l :
  (∀ a x h h' b, body a x h = (h', inr b) → P b) →
  ∀ a h h' b, forEach body l a h = (h', inr b) → P b.
Proof.
  intros Hbody. induction l as [|x l IH]; intros a h h' b; simpl; [done|].
  destruct (body a x h) as [h1 [a1|b1]] eqn:E.
  - apply IH.
  - intros [= <- <-]. eauto.
Qed.

Section Validate_facts.
Variable range : RangeOrder.

Lemma validateSub_leaves rec dag sub subId h h' o :
  validateSub rec dag sub subId h = (h', inr o) → o ≠ Returns None.
Proof.
  unfold validateSub. destruct (rec sub _) as [h1 [[e|]| |]]; intros [= <- <-]; done.
Qed.

Lemma validateNode_leaves rec dag acc entry h h' o :
  validateNode range rec dag acc entry h = (h', inr o) → o ≠ Returns None.
Proof.
  unfold validateNode. destruct acc as [c ends].
  destruct (indegree _ =? 0); simpl.
  all: match goal with |- context [match subDag ?n with _ => _ end] => destruct (subDag n) as [sub|] end.
  all: try (destruct (validateSub _ _ _ _ _) as [h1 [[]|o1]] eqn:E1;
            [| intros [= <- <-]; by eapply validateSub_leaves]).
  all: match goal with |- context [forEach ?b ?l tt ?h0] =>
         destruct (forEach b l tt h0) as [h2 [[]|o2]] eqn:E2 end.
  all: try done.
  all: intros [= <- <-]; revert E2; apply (forEach_leaves (λ o, o ≠ Returns None));
       intros [] [cond cdag] h3 h4 o3; apply validateSub_leaves.
Qed.

Lemma joinExit_leaves dag endNodeId u b h h' o :
  joinExit dag endNodeId u b h = (h', inr o) → o ≠ Returns None.
Proof.
  unfold joinExit. destruct (AddEdge _ _ _ _) as [h1 [e|]]; intros [= <- <-]; done.
Qed.

Lemma finishValidate_success dag c ends h h' :
  finishValidate dag c ends h = (h', Returns None) →
  validated (dagAt h' dag) = true.
Proof.
  unfold finishValidate. destruct (1 <? c); [done|].
  destruct (1 <? length ends)%nat.
  - rewrite AddVertex_unfold.
    match goal with |- context [forEach ?b ?l tt ?h0] =>
      destruct (forEach b l tt h0) as [h2 [[]|o2]] eqn:E2 end.
    + intros [= <-]. by rewrite dagAt_updDag_eq.
    + intros [= <- ->].
      apply (forEach_leaves (λ o, o ≠ Returns None)) in E2; [done|].
      intros [] b h3 h4 o3. apply joinExit_leaves.
  - destruct ends; [done|]. intros [= <-]. by rewrite dagAt_updDag_eq.
Qed.

Lemma Validate_success fuel dag h h' :
  Validate range fuel dag h = (h', Returns None) →
  validated (dagAt h' dag) = true.
Proof.
  destruct fuel as [|fuel]; simpl; [done|].
  destruct (validated (dagAt h dag)) eqn:Ev.
  { by intros [= <-]. }
  destruct (size _ =? 0)%nat; [done|].
  match goal with |- context [forEach ?b ?l ?a ?h0] =>
    destruct (forEach b l a h0) as [h2 [[c ends]|o2]] eqn:E2 end.
  - apply finishValidate_success.
  - intros [= <- ->].
    apply (forEach_leaves (λ o, o ≠ Returns None)) in E2; [done|].
    intros acc entry h3 h4 o3. apply validateNode_leaves.
Qed.

Lemma Validate_validated fuel dag h :
  validated (dagAt h dag) = true →
  Validate range (S fuel) dag h = (h, Returns None).
Proof. intros E. simpl. by rewrite E. Qed.

End Validate_facts.

Section node_loop.
Context (range : RangeOrder) (Hfair : fair range).
Context (rec : dptr → Heap → Heap * Outcome) (dag : dptr).

Lemma validateNode_plain c ends entry h :
  subDag (nodeAt h entry.2) = None →
  conditionalDags (nodeAt h entry.2) = ∅ →
  ∃ h',
    validateNode range rec dag (c, ends) entry h
      = (h', inl (if indegree (nodeAt h entry.2) =? 0 then wrap64 (c + 1) else c,
                  if outdegree (nodeAt h entry.2) =? 0 then ends ++ [entry.2] else ends))
    ∧ same_shape h h'.
Proof.
  intros Hsub Hcond. unfold validateNode.
  set (b := entry.2) in *.
  set (h1 := updNode b (set_uniqueId (generateUniqueId h b (DagId (dagAt h dag)))) h).
  assert (Hs1 : same_shape h h1) by apply same_shape_updNode_uniqueId.
  rewrite (shape_indegree h h1 Hs1 b).
  set (h2 := if indegree (nodeAt h b) =? 0
             then updDag dag (set_initialNode (Some b)) h1 else h1).
  assert (Hs2 : same_shape h h2).
  { unfold h2. case_match; [|done].
    eapply same_shape_trans; [exact Hs1|]. by apply same_shape_updDag. }
  assert (E2 : (if indegree (nodeAt h b) =? 0
                then (updDag dag (set_initialNode (Some b)) h1, wrap64 (c + 1))
                else (h1, c))
               = (h2, if indegree (nodeAt h b) =? 0 then wrap64 (c + 1) else c)).
  { unfold h2. by case_match. }
  rewrite E2. clear E2.
  rewrite (shape_outdegree h h2 Hs2 b), (shape_subDag h h2 Hs2 b), Hsub.
  match goal with
  | |- context [forEach _ (range (conditionalDags (nodeAt ?hh b))) () _] =>
      set (h3 := hh)
  end.
  assert (Hs3 : same_shape h h3).
  { unfold h3. case_match; [|done].
    eapply same_shape_trans; [exact Hs2|]. by apply same_shape_updDag. }
  assert (E : range (∅ : gmap string dptr) = []) by apply (fair_empty range Hfair).
  rewrite (shape_conditionalDags h h3 Hs3 b), Hcond, E.
  simpl. by exists h3.
Qed.

Lemma filter_same_shape h h' (f : Node → Z) (l : list nptr) :
  (∀ p, f (nodeAt h' p) = f (nodeAt h p)) →
  filter (λ p, f (nodeAt h' p) = 0) l = filter (λ p, f (nodeAt h p) = 0) l.
Proof. intros E. apply list_filter_iff. intros p. by rewrite E. Qed.

Lemma validate_loop L : ∀ c ends h,
  (∀ e, e ∈ L → subDag (nodeAt h e.2) = None ∧ conditionalDags (nodeAt h e.2) = ∅) →
  0 ≤ c → c + Z.of_nat (length L) < 2 ^ 63 →
  ∃ h',
    forEach (validateNode range rec dag) L (c, ends) h
      = (h', inl (c + Z.of_nat (length (filter (λ p, indegree (nodeAt h p) = 0) L.*2)),
                  ends ++ filter (λ p, outdegree (nodeAt h p) = 0) L.*2))
    ∧ same_shape h h'.
Proof.
  induction L as [|e L IH]; intros c ends h Hplain Hc Hsmall.
  - exists h. simpl. rewrite Z.add_0_r, app_nil_r. split; [done|apply same_shape_refl].
  - destruct (Hplain e) as [Hsub Hcond]; [left|].
    destruct (validateNode_plain c ends e h Hsub Hcond) as (h1 & E1 & Hs1).
    simpl in Hsmall. cbn [forEach]. rewrite E1.
    destruct (IH (if indegree (nodeAt h e.2) =? 0 then wrap64 (c + 1) else c)
                 (if outdegree (nodeAt h e.2) =? 0 then ends ++ [e.2] else ends) h1)
      as (h2 & E2 & Hs2).
    + intros e' He'. rewrite (shape_subDag h h1 Hs1), (shape_conditionalDags h h1 Hs1).
      apply Hplain. by right.
    + case_match; [rewrite wrap64_small|]; lia.
    + case_match; [rewrite wrap64_small|]; lia.
    + exists h2. split; [|by eapply same_shape_trans].
      rewrite E2. f_equal. f_equal.
      rewrite (filter_same_shape h h1 indegree) by apply (shape_indegree h h1 Hs1).
      rewrite (filter_same_shape h h1 outdegree) by apply (shape_outdegree h h1 Hs1).
      cbn [fmap list_fmap]. rewrite !filter_cons.
      destruct (Z.eqb_spec (indegree (nodeAt h e.2)) 0) as [Ei|Ei];
        destruct (Z.eqb_spec (outdegree (nodeAt h e.2)) 0) as [Eo|Eo].
      all: rewrite ?(decide_True (P := indegree _ = 0)) by done;
           rewrite ?(decide_False (P := indegree _ = 0)) by done;
           rewrite ?(decide_True (P := outdegree _ = 0)) by done;
           rewrite ?(decide_False (P := outdegree _ = 0)) by done.
      all: f_equal; rewrite ?wrap64_small by lia; rewrite <- ?app_assoc; simpl; try lia; done.
Qed.
End node_loop.

Lemma uniqueId_AddForwarder node child fwd h p :
  uniqueId (nodeAt (AddForwarder node child fwd h) p) = uniqueId (nodeAt h p).
Proof. rewrite nodeAt_AddForwarder. by case_decide; subst. Qed.

Lemma forwarder_AddForwarder node child fwd h p :
  forwarder (nodeAt (AddForwarder node child fwd h) p)
  = if decide (p = node) then <[child := fwd]> (forwarder (nodeAt h node))
    else forwarder (nodeAt h p).
Proof. rewrite nodeAt_AddForwarder. by case_decide; subst. Qed.

Lemma joinExit_step h0 dag endNodeId E tied b todo B h :
  Joining h0 dag endNodeId E tied (b :: todo) B h →
  Z.of_nat B + 1 < 2 ^ 63 →
  ∃ h', joinExit dag endNodeId () b h = (h', inl ())
        ∧ Joining h0 dag endNodeId E (tied ++ [b]) todo (S B) h'.
Proof.
  intros [HI Hnodes Hend Hnext Htodo Hnodup Htied Hrest Hcore Huid] HB.
  destruct (Htodo b) as (Hb & HbE & Hch & Hdep & Hnt); [left|].
  destruct (inv_key _ _ _ HI _ _ Hend) as [HE HidE].
  assert (H3 : b ∉ next (nodeAt h E)) by (rewrite Hnext; apply not_elem_of_nil).
  assert (H4 : E ∉ prev (nodeAt h b)).
  { intros Hin. apply H3. by apply (inv_sym _ _ _ HI E b HE Hb). }
  assert (HEb : E ≠ b) by done.
  unfold joinExit.
  assert (EA : AddEdge dag (Id (nodeAt h b)) endNodeId h
               = (linkEdge dag b E endNodeId h, None)).
  { apply (AddEdge_accepted B); try done.
    - exact (inv_own _ _ _ HI b Hb).
    - rewrite Hch. apply not_elem_of_nil. }
  rewrite EA.
  set (h1 := linkEdge dag b E endNodeId h).
  set (h2 := AddForwarder b endNodeId None h1).
  exists h2. split; [done|].
  assert (HI1 : Inv (S B) h1 dag) by by apply linkEdge_Inv.
  assert (Hs : same_shape h1 h2) by apply same_shape_AddForwarder.
  assert (Hchildren : ∀ p, children (nodeAt h2 p)
            = if decide (p = b) then children (nodeAt h p) ++ [E] else children (nodeAt h p)).
  { intros p. rewrite (shape_children h1 h2 Hs). by apply linkEdge_children. }
  assert (Hout : ∀ p, outdegree (nodeAt h2 p)
            = if decide (p = b) then int_incr (outdegree (nodeAt h p)) else outdegree (nodeAt h p)).
  { intros p. rewrite (shape_outdegree h1 h2 Hs). by apply linkEdge_outdegree. }
  assert (HnotIn : (b ∉ todo) ∧ NoDup todo) by by apply NoDup_cons.
  destruct HnotIn as [Hbtodo Hnodup'].
  split.
  - by apply (shape_Inv h1 h2 Hs).
  - rewrite (shape_nodes h1 h2 Hs). unfold h1. by rewrite nodes_linkEdge.
  - rewrite (shape_nodes h1 h2 Hs). unfold h1. by rewrite nodes_linkEdge.
  - rewrite (shape_next h1 h2 Hs). apply no_elements. intros q Hq.
    apply (linkEdge_next h dag b E endNodeId HEb H3 H4) in Hq as [Hq|[HF _]].
    + rewrite Hnext in Hq. by apply elem_of_nil in Hq.
    + apply elem_of_cons in HF as [?|?]; done.
  - intros b' Hb'. destruct (Htodo b') as (Hb'a & Hb'E & Hb'ch & Hb'dep & Hb'nt); [by right|].
    assert (b' ≠ b) by (intros EE; apply Hbtodo; by rewrite <- EE).
    split; [rewrite (shape_allocated h1 h2 Hs); unfold h1; by rewrite linkEdge_allocated|].
    split; [done|]. split; [by rewrite Hchildren, decide_False|].
    split.
    + rewrite (shape_dependsOn h1 h2 Hs), (linkEdge_dependsOn h dag b E endNodeId HEb H3 H4).
      rewrite decide_True by done. rewrite elem_of_app, list_elem_of_singleton. tauto.
    + rewrite elem_of_app, list_elem_of_singleton. tauto.
  - done.
  - intros b' Hb'. rewrite Hchildren, Hout. unfold h2.
    rewrite forwarder_AddForwarder. unfold h1.
    apply elem_of_app in Hb' as [Hb'|Hb'].
    + assert (b' ≠ b) by (intros EE; apply Hnt; by rewrite <- EE).
      rewrite !decide_False by done.
      rewrite (linkEdge_forwarder h dag b E endNodeId HEb H3 H4), decide_False by done.
      by apply Htied.
    + apply list_elem_of_singleton in Hb' as ->. rewrite !decide_True by done.
      rewrite Hch, (inv_out _ _ _ HI b Hb), Hch, lookup_insert_eq. done.
  - intros p Hp. rewrite Hout. rewrite decide_False.
    + apply Hrest. intros ?. apply Hp. apply elem_of_app. by left.
    + intros ->. apply Hp. apply elem_of_app. right. left.
  - intros d. destruct Hs as (_ & _ & Hd). rewrite Hd. unfold h1.
    by rewrite dagCore_linkEdge.
  - intros p. unfold h2. rewrite uniqueId_AddForwarder.
    by rewrite (linkEdge_uniqueId h dag b E endNodeId HEb H3 H4).
Qed.

Lemma joinExit_loop h0 dag endNodeId E todo : ∀ tied B h,
  Joining h0 dag endNodeId E tied todo B h →
  Z.of_nat (B + length todo) < 2 ^ 63 →
  ∃ h', forEach (joinExit dag endNodeId) todo () h = (h', inl ())
        ∧ Joining h0 dag endNodeId E (tied ++ todo) [] (B + length todo) h'.
Proof.
  induction todo as [|b todo IH]; intros tied B h HJ HB.
  - exists h. split; [done|]. rewrite app_nil_r.
    by replace (B + length (@nil nptr))%nat with B by (simpl; lia).
  - destruct (joinExit_step h0 dag endNodeId E tied b todo B h HJ) as (h1 & E1 & HJ1).
    { simpl in HB. lia. }
    destruct (IH (tied ++ [b]) (S B) h1 HJ1) as (h2 & E2 & HJ2).
    { simpl in HB. lia. }
    exists h2. cbn [forEach]. rewrite E1. split; [done|].
    rewrite <- app_assoc in HJ2.
    by replace (B + length (b :: todo))%nat with (S B + length todo)%nat by (simpl; lia).
Qed.

Lemma elem_of_vertices h dag p :
  p ∈ vertices h dag ↔ ∃ id, nodes (dagAt h dag) !! id = Some p.
Proof.
  unfold vertices. rewrite list_elem_of_fmap. split.
  - intros ([id q] & -> & Hin). exists id. by apply elem_of_map_to_list.
  - intros (id & Hid). exists (id, p). split; [done|]. by apply elem_of_map_to_list.
Qed.

Lemma Inv_vertices_NoDup B h dag : Inv B h dag → NoDup (vertices h dag).
Proof.
  intros HI. unfold vertices. apply NoDup_fmap_2_strong; [|apply NoDup_map_to_list].
  intros [k p] [k' p'] Hin Hin' E. simpl in E. subst p'.
  apply elem_of_map_to_list in Hin, Hin'.
  destruct (inv_key _ _ _ HI _ _ Hin) as [_ <-].
  destruct (inv_key _ _ _ HI _ _ Hin') as [_ <-]. done.
Qed.

Lemma Inv_vertices_length B h dag :
  Inv B h dag → (length (vertices h dag) ≤ B)%nat.
Proof.
  intros HI. pose proof (inv_count _ _ _ HI) as Hc.
  assert (Hsub : vertices h dag ⊆+ seq 0 (nodeCount h)).
  { apply NoDup_submseteq; [by apply (Inv_vertices_NoDup B)|].
    intros p Hp. apply elem_of_vertices in Hp as [id Hid].
    destruct (inv_key _ _ _ HI _ _ Hid) as [Ha _]. apply elem_of_seq.
    unfold allocated in Ha. lia. }
  apply submseteq_length in Hsub. rewrite length_seq in Hsub. lia.
Qed.

Section ranged.
Context (range : RangeOrder) (Hfair : fair range).

Lemma range_vertices h dag : (range (nodes (dagAt h dag))).*2 ≡ₚ vertices h dag.
Proof. unfold vertices. by rewrite (Hfair (nodes (dagAt h dag))). Qed.

Lemma visited_exits_perm h dag : visited_exits range h dag ≡ₚ exits h dag.
Proof. unfold visited_exits, exits. by rewrite range_vertices. Qed.

Lemma visited_starts_length h dag :
  length (filter (λ p, indegree (nodeAt h p) = 0) (range (nodes (dagAt h dag))).*2)
  = length (starts h dag).
Proof. unfold starts. by rewrite range_vertices. Qed.

End ranged.


Lemma finishValidate_single_exit dag c e h :
  c ≤ 1 → finishValidate dag c [e] h
          = (updDag dag (set_validated true) (updDag dag (set_endNode (Some e)) h),
             Returns None).
Proof. intros Hc. unfold finishValidate. by rewrite (proj2 (Z.ltb_ge 1 c) Hc). Qed.

Lemma finishValidate_join B seen dag c ends h :
  Built B seen h dag → c ≤ 1 → (1 < length ends)%nat → NoDup ends →
  (∀ b, b ∈ ends → allocated h b ∧ outdegree (nodeAt h b) = 0) →
  Z.of_nat (S B + length ends) < 2 ^ 63 →
  ∃ h2,
    Joining (AddVertex dag "end_0" [BlankOperation] h).1 dag "end_0" (nodeCount h)
      ends [] (S B + length ends) h2
    ∧ finishValidate dag c ends h
      = (updDag dag (set_validated true)
           (updDag dag (set_endNode (Some (nodeCount h))) h2),
         Returns None).
Proof.
  intros [HI Hseen Hend Hid Hv] Hc Hlen Hnodup Hends HB.
  set (h0 := (AddVertex dag "end_0" [BlankOperation] h).1).
  assert (Hnode : nodeAt h0 (nodeCount h)
                  = newNode dag "end_0" [BlankOperation] (wrap64 (nodeIndex (dagAt h dag) + 1))).
  { unfold h0. rewrite nodeAt_AddVertex. by rewrite decide_True. }
  assert (Hold : ∀ p, allocated h p → nodeAt h0 p = nodeAt h p).
  { intros p Hp. unfold h0. rewrite nodeAt_AddVertex, decide_False; [done|].
    unfold allocated in Hp. lia. }
  assert (HJ : Joining h0 dag "end_0" (nodeCount h) [] ends (S B) h0).
  { split; try done.
    - by apply Inv_AddVertex.
    - unfold h0. by rewrite nodes_AddVertex, lookup_insert_eq.
    - by rewrite Hnode.
    - intros b Hb. destruct (Hends b Hb) as [Ha Hout].
      split; [unfold allocated, h0 in *; rewrite nodeCount_AddVertex; lia|].
      split; [unfold allocated in Ha; lia|].
      rewrite Hnode, (Hold b Ha). simpl.
      split; [|split; apply not_elem_of_nil].
      rewrite (inv_out _ _ _ HI b Ha) in Hout.
      destruct (children (nodeAt h b)); [done|]. simpl in Hout. lia.
    - intros b Hb. by apply elem_of_nil in Hb. }
  destruct (joinExit_loop h0 dag "end_0" (nodeCount h) ends [] (S B) h0 HJ HB)
    as (h2 & E2 & HJ2).
  exists h2. split; [done|].
  unfold finishValidate. rewrite (proj2 (Z.ltb_ge 1 c) Hc).
  rewrite (proj2 (Nat.ltb_lt 1 (length ends)) Hlen).
  rewrite Hid. change ("end_" +:+ "0") with "end_0"%string.
  assert (EA : AddVertex dag "end_0" [BlankOperation] h = (h0, nodeCount h)).
  { unfold h0. by rewrite AddVertex_unfold. }
  rewrite EA. cbv beta iota zeta. by rewrite E2.
Qed.

(** ** [Validate] on a graph built by clean calls *)



Lemma exits_nonempty B h dag :
  Inv B h dag → nodes (dagAt h dag) ≠ ∅ → (1 ≤ length (exits h dag))%nat.
Proof.
  intros HI Hne. destruct (Inv_has_exit B h dag HI Hne) as (id & p & Hp & Hout).
  assert (Hs : p ∈ exits h dag).
  { unfold exits. apply list_elem_of_filter. split; [done|].
    apply elem_of_vertices. eauto. }
  destruct (exits h dag); [by apply elem_of_nil in Hs|simpl; lia].
Qed.

Section validate_built.
Context (range : RangeOrder) (Hfair : fair range).
Context (B : nat) (seen : list string) (h : Heap) (dag : dptr) (fuel : nat).
Hypothesis HB : Built B seen h dag.
Hypothesis Hsmall : Z.of_nat (2 * B + 1) < 2 ^ 63.
Hypothesis Hne : nodes (dagAt h dag) ≠ ∅.


Lemma visited_exits_facts h1 :
  same_shape h h1 →
  NoDup (visited_exits range h dag)
  ∧ (∀ b, b ∈ visited_exits range h dag →
          allocated h1 b ∧ outdegree (nodeAt h1 b) = 0)
  ∧ (length (visited_exits range h dag) ≤ B)%nat.
Proof.
  intros Hs1. pose proof (built_inv _ _ _ _ HB) as HI.
  pose proof (visited_exits_perm range Hfair h dag) as Hperm.
  split; [|split].
  - rewrite Hperm. unfold exits. apply NoDup_filter. by apply (Inv_vertices_NoDup B).
  - intros b Hb. rewrite Hperm in Hb. unfold exits in Hb.
    apply list_elem_of_filter in Hb as [Hout Hb].
    apply elem_of_vertices in Hb as [id Hid].
    destruct (inv_key _ _ _ HI _ _ Hid) as [Ha _].
    by rewrite (shape_allocated h h1 Hs1), (shape_outdegree h h1 Hs1).
  - rewrite Hperm. unfold exits.
    etrans; [apply length_filter|]. by apply Inv_vertices_length.
Qed.

End validate_built.

(** ** The scheduler *)

(** No step closes the ready channel. *)
Lemma send_closed x ch ch' : send x ch = Some ch' → closed ch' = closed ch.
Proof. unfold send. case_match; [|done]. by intros [= <-]. Qed.

Lemma main_step_open s s' :
  main_step s = Some s' → closed (readyChan s) = false →
  closed (readyChan s') = false ∧ Run_returned s' = false.
Proof.
  unfold main_step, Run_returned. intros Hstep Hopen.
  destruct (main s) as [[|node rest]| |] eqn:Em; try done.
  - injection Hstep as <-. done.
  - destruct (indegree _ =? 0).
    + destruct (send node (readyChan s)) as [ch|] eqn:Es; [|done].
      injection Hstep as <-. simpl. by rewrite (send_closed _ _ _ Es).
    + injection Hstep as <-. done.
  - destruct (buffer (readyChan s)) as [|nodeTask q].
    + by rewrite Hopen in Hstep.
    + injection Hstep as <-. done.
Qed.

Lemma goroutine_step_open rev i s s' :
  goroutine_step rev i s = Some s' →
  closed (readyChan s') = closed (readyChan s) ∧ main s' = main s.
Proof.
  unfold goroutine_step. destruct (goroutines s !! i) as [g|]; [|done]. simpl.
  destruct g as [node|node err [|child rest]|node err child rest|].
  - destruct (task _) as [t|]; [destruct (taskRun t (data s))|]; by intros [= <-].
  - by intros [= <-].
  - by intros [= <-].
  - destruct (send child (readyChan s)) as [ch|] eqn:Es; [|done]. simpl.
    intros [= <-]. simpl. by rewrite (send_closed _ _ _ Es).
  - done.
Qed.

Lemma step_open rev c s s' :
  step rev c s = Some s' →
  closed (readyChan s) = false → Run_returned s = false →
  closed (readyChan s') = false ∧ Run_returned s' = false.
Proof.
  unfold step. destruct (crashed s); [done|]. destruct c as [|i].
  - intros Hs Ho _. by apply (main_step_open s).
  - intros Hs Ho Hr. destruct (goroutine_step_open rev i s s' Hs) as [Ec Em].
    unfold Run_returned. by rewrite Ec, Em.
Qed.

Lemma exec_open rev cs : ∀ s s',
  exec rev cs s = Some s' →
  closed (readyChan s) = false → Run_returned s = false →
  closed (readyChan s') = false ∧ Run_returned s' = false.
Proof.
  induction cs as [|c cs IH]; intros s s'; simpl.
  - by intros [= <-].
  - destruct (step rev c s) as [s1|] eqn:E1; [|done]. simpl. intros He Ho Hr.
    destruct (step_open rev c s s1 E1 Ho Hr). by apply (IH s1).
Qed.

(** When the work is done the caller is parked at the receive for good. *)
Lemma Run_parked rev s :
  main s = Receiving → buffer (readyChan s) = [] → closed (readyChan s) = false →
  step rev Main s = None.
Proof.
  intros Em Eb Ec. unfold step, main_step. rewrite Em, Eb, Ec. by destruct (crashed s).
Qed.

Lemma nodeAt_mute_heap h p : nodeAt (mute_heap h) p = mute_node (nodeAt h p).
Proof.
  unfold nodeAt, mute_heap. simpl. rewrite lookup_fmap.
  by destruct (nodeStore h !! p).
Qed.

Lemma mute_heap_decr h child :
  mute_heap (updNode child (λ n, set_indegree (int_decr (indegree n)) n) h)
  = updNode child (λ n, set_indegree (int_decr (indegree n)) n) (mute_heap h).
Proof.
  unfold updNode. rewrite nodeAt_mute_heap. unfold mute_heap. simpl.
  by rewrite fmap_insert.
Qed.

Lemma main_step_silence s :
  main_step (silence s) = silence <$> main_step s.
Proof.
  unfold main_step. simpl.
  destruct (main s) as [[|node rest]| |]; try done.
  - rewrite nodeAt_mute_heap. simpl. destruct (indegree _ =? 0); [|done].
    by destruct (send node (readyChan s)).
  - destruct (buffer (readyChan s)) as [|nodeTask q].
    + by destruct (closed (readyChan s)).
    + simpl. unfold silence. simpl. by rewrite fmap_app.
Qed.

Lemma goroutine_step_silence rev i s :
  goroutine_step rev i (silence s) = silence <$> goroutine_step rev i s.
Proof.
  unfold goroutine_step. simpl. rewrite list_lookup_fmap.
  destruct (goroutines s !! i) as [g|]; [|done]. simpl.
  destruct g as [node|node err [|child rest]|node err child rest|]; simpl.
  - rewrite nodeAt_mute_heap. simpl.
    destruct (task (nodeAt (store s) node)) as [t|]; [|done]. simpl.
    destruct (taskRun t (data s)) as [ds err]. simpl. unfold silence. simpl.
    rewrite list_fmap_insert. simpl.
    assert (E : RunNodeDone_children rev (mute_heap (store s)) node
                = RunNodeDone_children rev (store s) node).
    { destruct rev; [|done]. simpl. by rewrite nodeAt_mute_heap. }
    by rewrite E.
  - unfold silence, set_goroutine. simpl. by rewrite list_fmap_insert.
  - unfold silence. simpl. rewrite <- mute_heap_decr.
    rewrite list_fmap_insert, !nodeAt_mute_heap. simpl. by case_match.
  - destruct (send child (readyChan s)); [|done]. simpl. unfold silence. simpl.
    by rewrite list_fmap_insert.
  - done.
Qed.

Lemma step_silence rev c s :
  step rev c (silence s) = silence <$> step rev c s.
Proof.
  unfold step. simpl. destruct (crashed s); [done|]. destruct c.
  - apply main_step_silence.
  - apply goroutine_step_silence.
Qed.

Lemma exec_app rev cs1 cs2 s :
  exec rev (cs1 ++ cs2) s = exec rev cs1 s ≫= exec rev cs2.
Proof.
  revert s. induction cs1 as [|c cs1 IH]; intros s; simpl; [done|].
  destruct (step rev c s) as [s1|]; [|done]. simpl. apply IH.
Qed.

(** The first loop of [Run]: one step of the caller per node. *)
Lemma Run_enqueues rev l : ∀ h ch ds gs,
  closed ch = false →
  (length (buffer ch) + length l ≤ capacity ch)%nat →
  exec rev (replicate (S (length l)) Main)
    (mkRunState h ch ds (Enqueuing l) gs false)
  = Some (mkRunState h
            (mkChan (buffer ch ++ filter (λ p, indegree (nodeAt h p) = 0) l)
                    (capacity ch) (closed ch))
            ds Receiving gs false).
Proof.
  induction l as [|node l IH]; intros h ch ds gs Hopen Hcap.
  - simpl. rewrite app_nil_r. by destruct ch.
  - change (replicate (S (length (node :: l))) Main)
      with (Main :: replicate (S (length l)) Main).
    cbn [exec]. unfold step. cbn [crashed main_step main store readyChan].
    rewrite filter_cons.
    destruct (Z.eqb_spec (indegree (nodeAt h node)) 0) as [E0|E0].
    + rewrite decide_True by done. unfold send.
      assert (Hlt : (length (buffer ch) <? capacity ch)%nat = true).
      { apply Nat.ltb_lt. simpl in Hcap. lia. }
      rewrite Hlt. cbn [mbind option_bind].
      cbn [data goroutines crashed].
      rewrite IH; cbn [buffer capacity closed]; try done.
      * by rewrite <- app_assoc.
      * rewrite length_app. simpl in *. lia.
    + rewrite decide_False by done. cbn [mbind option_bind data goroutines crashed].
      rewrite IH; try done. simpl in Hcap. lia.
Qed.

(** The second loop: every receive starts a goroutine. *)
Lemma Run_dispatches rev q1 : ∀ h q2 cap ds gs,
  exec rev (replicate (length q1) Main)
    (mkRunState h (mkChan (q1 ++ q2) cap false) ds Receiving gs false)
  = Some (mkRunState h (mkChan q2 cap false) ds Receiving
            (gs ++ (Starting <$> q1)) false).
Proof.
  induction q1 as [|node q1 IH]; intros h q2 cap ds gs.
  - simpl. by rewrite app_nil_r.
  - change (replicate (length (node :: q1)) Main)
      with (Main :: replicate (length q1) Main).
    cbn [exec]. unfold step.
    cbn [crashed main_step main readyChan buffer app mbind option_bind
         store capacity closed data goroutines].
    rewrite IH. by rewrite <- app_assoc.
Qed.

(** ** An edge from a vertex to itself *)

Lemma adjacency_extendNext toNode h b p :
  adjacency (nodeAt (extendNext toNode h b) p) = adjacency (nodeAt h p).
Proof.
  unfold extendNext. rewrite !nodeAt_updNode. by repeat case_decide; subst.
Qed.

Lemma adjacency_extendPrev fromNode h b p :
  adjacency (nodeAt (extendPrev fromNode h b) p) = adjacency (nodeAt h p).
Proof.
  unfold extendPrev. rewrite !nodeAt_updNode. by repeat case_decide; subst.
Qed.

Lemma adjacency_fold_extendNext toNode l : ∀ h p,
  adjacency (nodeAt (fold_left (extendNext toNode) l h) p) = adjacency (nodeAt h p).
Proof.
  induction l as [|b l IH]; intros h p; simpl; [done|].
  by rewrite IH, adjacency_extendNext.
Qed.

Lemma adjacency_fold_extendPrev fromNode l : ∀ h p,
  adjacency (nodeAt (fold_left (extendPrev fromNode) l h) p) = adjacency (nodeAt h p).
Proof.
  induction l as [|b l IH]; intros h p; simpl; [done|].
  by rewrite IH, adjacency_extendPrev.
Qed.

(** * The claims of the specification *)

(** ** C1: what [Validate] accepts *)




(** ** C2: an edge that closes a cycle *)

(** C2 fails on the code: [AddEdge(id, id)] for an [id] that is not yet a
    vertex returns nil, and leaves a vertex that is its own child and its own
    parent, with indegree and outdegree 1: a cycle of length one. *)
Theorem AddEdge_accepts_self_loop h dag id :
  nodes (dagAt h dag) !! id = None →
  let h' := (AddEdge dag id id h).1 in
  let p := nodeCount h in
  (AddEdge dag id id h).2 = None
  ∧ nodes (dagAt h' dag) !! id = Some p
  ∧ children (nodeAt h' p) = [p]
  ∧ dependsOn (nodeAt h' p) = [p]
  ∧ indegree (nodeAt h' p) = 1
  ∧ outdegree (nodeAt h' p) = 1
  ∧ tc (edge h') p p.
Proof.
  intros Hnew. cbv zeta.
  set (h1 := (AddVertex dag id [] h).1).
  assert (E1 : getOrAddVertex dag id h = (h1, nodeCount h)).
  { unfold getOrAddVertex. rewrite Hnew. unfold h1. by rewrite AddVertex_unfold. }
  assert (E2 : getOrAddVertex dag id h1 = (h1, nodeCount h)).
  { unfold getOrAddVertex, h1. by rewrite nodes_AddVertex, lookup_insert_eq. }
  assert (Hnode : nodeAt h1 (nodeCount h)
                  = newNode dag id [] (wrap64 (nodeIndex (dagAt h dag) + 1))).
  { unfold h1. rewrite nodeAt_AddVertex. by rewrite decide_True. }
  assert (EA : AddEdge dag id id h
               = (linkEdge dag (nodeCount h) (nodeCount h) id h1, None)).
  { unfold AddEdge. rewrite E1, E2. by rewrite Hnode. }
  rewrite EA. cbn [fst snd].
  set (p := nodeCount h) in *.
  assert (HN : nodes (dagAt (linkEdge dag p p id h1) dag) !! id = Some p).
  { rewrite nodes_linkEdge. unfold h1. by rewrite nodes_AddVertex, lookup_insert_eq. }
  assert (Hadj : adjacency (nodeAt (linkEdge dag p p id h1) p) = ([p], [p], 1, 1)).
  { unfold linkEdge. rewrite nodeAt_flagEdge, nodeAt_AddForwarder, decide_True by done.
    unfold countEdge, Dynamic. 
    set (h2 := updatePrev p p (updateNext p p h1)).
    assert (Eadj : adjacency (nodeAt h2 p) = ([], [], 0, 0)).
    { unfold h2, updatePrev, updateNext.
      rewrite adjacency_fold_extendPrev, adjacency_extendPrev,
        adjacency_fold_extendNext, adjacency_extendNext.
      by rewrite Hnode. }
    clearbody h2. unfold Dynamic.
    rewrite !nodeAt_updNode_eq.
    destruct (dynamic _); rewrite ?nodeAt_updNode_eq;
      remember (nodeAt h2 p) as n eqn:En; clear En;
      destruct n; unfold adjacency in *; cbn in *;
      injection Eadj as -> -> -> ->; reflexivity. }
  set (h' := linkEdge dag p p id h1) in *. clearbody h'.
  unfold adjacency in Hadj.
  assert (Hc : children (nodeAt h' p) = [p]) by congruence.
  assert (Hd : dependsOn (nodeAt h' p) = [p]) by congruence.
  assert (Hi : indegree (nodeAt h' p) = 1) by congruence.
  assert (Ho : outdegree (nodeAt h' p) = 1) by congruence.
  split; [done|]. split; [done|].
  repeat split; try done.
  apply tc_once. unfold edge. rewrite Hc. left.
Qed.

(** C2: [AddEdge("A", "A")] on a new graph. *)
Lemma AddEdge_accepts_self_loop_witness :
  nodes (dagAt (NewDag emptyHeap).1 0%nat) !! "A"%string = None
  ∧ (AddEdge 0%nat "A" "A" (NewDag emptyHeap).1).2 = None
  ∧ nodes (dagAt selfLoop 0%nat) !! "A"%string = Some 0%nat
  ∧ children (nodeAt selfLoop 0%nat) = [0%nat]
  ∧ dependsOn (nodeAt selfLoop 0%nat) = [0%nat]
  ∧ indegree (nodeAt selfLoop 0%nat) = 1
  ∧ outdegree (nodeAt selfLoop 0%nat) = 1
  ∧ tc (edge selfLoop) 0%nat 0%nat.
Proof.
  split; [reflexivity|].
  exact (AddEdge_accepts_self_loop (NewDag emptyHeap).1 0%nat "A" eq_refl).
Defined.

(** ** C3: the errors of the tasks *)

(** C3 fails on the code: under every schedule, the run in which every task
    returns nil instead of its error goes through the same states as the run
    with the errors, up to the goroutines' local variable [err]: no state of
    the run records an error, and nothing the caller can see depends on
    one. *)
Theorem Run_discards_task_errors rev cs : ∀ s,
  exec rev cs (silence s) = silence <$> exec rev cs s.
Proof.
  induction cs as [|c cs IH]; intros s; simpl; [done|].
  rewrite step_silence. destruct (step rev c s) as [s1|]; [|done]. simpl. apply IH.
Qed.

(** A run to the end of the one task of [validatedVertex], which fails: the
    task has run, its goroutine has exited, and the state holds no trace of
    the error. *)
Lemma Run_failing_task_example :
  exec Cascade oneTaskSchedule (Run_start listed validatedVertex 0%nat)
  = Some (mkRunState validatedVertex (make_chan 1) (DataSet_Set "ran" "yes" NewDataSet)
            Receiving [Exited] false).
Proof. by vm_compute. Qed.

(** ** C4: [Validate] never panics *)

Lemma filter_none {A} (P : A → Prop) `{∀ x, Decision (P x)} (l : list A) :
  (∀ x, x ∈ l → ¬ P x) → filter P l = [].
Proof.
  intros Hl. apply no_elements. intros x Hx.
  apply list_elem_of_filter in Hx as [HP Hx]. by apply (Hl x).
Qed.

Lemma Validate_panics_without_exit range fuel h dag :
  fair range →
  validated (dagAt h dag) = false →
  nodes (dagAt h dag) ≠ ∅ →
  Z.of_nat (size (nodes (dagAt h dag))) < 2 ^ 63 →
  (∀ id p, nodes (dagAt h dag) !! id = Some p →
           subDag (nodeAt h p) = None ∧ conditionalDags (nodeAt h p) = ∅
           ∧ indegree (nodeAt h p) ≠ 0 ∧ outdegree (nodeAt h p) ≠ 0) →
  (Validate range (S fuel) dag h).2 = Panics.
Proof.
  intros Hfair Hv Hne Hsmall Hall. cbn [Validate]. rewrite Hv.
  assert (Hsize : (size (nodes (dagAt h dag)) =? 0)%nat = false).
  { apply Nat.eqb_neq. intros E. by apply map_size_empty_iff in E. }
  rewrite Hsize.
  assert (Hlen : length (range (nodes (dagAt h dag))) = size (nodes (dagAt h dag))).
  { rewrite (Hfair (nodes (dagAt h dag))). apply length_map_to_list. }
  destruct (validate_loop range Hfair (Validate range fuel) dag
              (range (nodes (dagAt h dag))) 0 [] h) as (h1 & E1 & Hs1).
  - intros [k p] Hin. apply (fair_elem range _ _ _ Hfair) in Hin.
    destruct (Hall k p Hin) as (? & ? & _). done.
  - lia.
  - match goal with |- 0 + Z.of_nat ?n < _ =>
      assert (n = size (nodes (dagAt h dag))) by exact Hlen end. lia.
  - rewrite E1.
    assert (Hmem : ∀ p, p ∈ (range (nodes (dagAt h dag))).*2 →
                        indegree (nodeAt h p) ≠ 0 ∧ outdegree (nodeAt h p) ≠ 0).
    { intros p Hp. apply list_elem_of_fmap in Hp as ([k q] & -> & Hin).
      apply (fair_elem range _ _ _ Hfair) in Hin.
      destruct (Hall k q Hin) as (_ & _ & ? & ?). done. }
    rewrite !filter_none; [done| |]; intros p Hp; by destruct (Hmem p Hp).
Qed.

(** C4 fails on the code: on the graph made by [AddEdge("A", "A")] no node
    has outdegree 0, and [Validate] panics at [endNodes[0]], whatever the
    order in which the map is visited. *)
Theorem Validate_panics_on_self_loop range fuel :
  fair range → (Validate range (S fuel) 0%nat selfLoop).2 = Panics.
Proof.
  intros Hfair.
  assert (EN : nodes (dagAt selfLoop 0%nat) = {["A"%string := 0%nat]}) by by vm_compute.
  apply Validate_panics_without_exit.
  - done.
  - by vm_compute.
  - rewrite EN. apply map_non_empty_singleton.
  - rewrite EN, map_size_singleton. by vm_compute.
  - intros id p. rewrite EN. intros Hp. apply lookup_singleton_Some in Hp as [<- <-].
    by vm_compute.
Qed.

(** C4: with the order of [listed]. *)
Lemma Validate_panics_on_self_loop_witness :
  fair listed ∧ (Validate listed 1 0%nat selfLoop).2 = Panics.
Proof.
  split; [exact fair_listed|].
  exact (Validate_panics_on_self_loop listed 0 fair_listed).
Defined.

(** ** C5: [Run] returns *)

(** C5 fails on the code: in no state reached from the start of [Run], under
    any schedule and in either revision, has [Run] returned: the caller's
    loop over the ready channel ends only when the channel is closed, and no
    step closes it. *)
Theorem Run_never_returns rev range h dag cs s :
  exec rev cs (Run_start range h dag) = Some s → Run_returned s = false.
Proof. intros He. by apply (exec_open rev cs _ s He). Qed.

(** C5: after the one task of [validatedVertex] is done, [Run] has not
    returned and the caller cannot move. *)
Lemma Run_never_returns_witness :
  ∃ s, exec Cascade oneTaskSchedule (Run_start listed validatedVertex 0%nat) = Some s
       ∧ Run_returned s = false
       ∧ step Cascade Main s = None.
Proof.
  eexists. split; [apply Run_failing_task_example|].
  split; [|reflexivity].
  exact (Run_never_returns Cascade listed validatedVertex 0%nat oneTaskSchedule _
           Run_failing_task_example).
Defined.

(** ** C6: [Run] on a graph that was not validated *)




(** ** C7: [AddVertex] with an id that is in use *)

(** C7 as stated fails: after a second [AddVertex("A", ...)] the id [A]
    names another node than before. *)
Lemma AddVertex_replaces_example :
  nodes (dagAt oneVertex 0%nat) !! "A"%string = Some 0%nat ∧
  nodes (dagAt (AddVertex 0%nat "A" [] oneVertex).1 0%nat) !! "A"%string = Some 1%nat.
Proof. split; reflexivity. Qed.

(** C7, amended: for every graph and every id already present as a vertex,
    [AddVertex(id, operations)] returns no error: it makes a new node with
    the next index and no edges and stores it under [id] in place of the
    node stored there before; that node itself and the entries of all other
    ids are left as they were. *)
Theorem AddVertex_replaces h dag id ops p :
  nodes (dagAt h dag) !! id = Some p →
  (p < nodeCount h)%nat →
  let '(h', q) := AddVertex dag id ops h in
  q = nodeCount h ∧ q ≠ p ∧
  nodes (dagAt h' dag) !! id = Some q ∧
  index (nodeAt h' q) = wrap64 (nodeIndex (dagAt h dag) + 1) ∧
  children (nodeAt h' q) = [] ∧ dependsOn (nodeAt h' q) = [] ∧
  nodeAt h' p = nodeAt h p ∧
  (∀ id', id' ≠ id → nodes (dagAt h' dag) !! id' = nodes (dagAt h dag) !! id').
Proof.
  intros Hin Hp. rewrite AddVertex_unfold.
  rewrite !nodeAt_updDag, !dagAt_updDag_eq, !nodeAt_allocNode.
  rewrite decide_True by done. rewrite decide_False by lia. simpl.
  rewrite lookup_insert_eq.
  repeat split; try done; try lia.
  intros id' Hne. by rewrite lookup_insert_ne.
Qed.

(** C7, amended, on [oneVertex]. *)
Lemma AddVertex_replaces_witness :
  nodes (dagAt oneVertex 0%nat) !! "A"%string = Some 0%nat
  ∧ (0 < nodeCount oneVertex)%nat
  ∧ let '(h', q) := AddVertex 0%nat "A" [] oneVertex in
    q = nodeCount oneVertex ∧ q ≠ 0%nat
    ∧ nodes (dagAt h' 0%nat) !! "A"%string = Some q
    ∧ index (nodeAt h' q) = wrap64 (nodeIndex (dagAt oneVertex 0%nat) + 1)
    ∧ children (nodeAt h' q) = [] ∧ dependsOn (nodeAt h' q) = []
    ∧ nodeAt h' 0%nat = nodeAt oneVertex 0%nat
    ∧ (∀ id', id' ≠ "A"%string →
              nodes (dagAt h' 0%nat) !! id' = nodes (dagAt oneVertex 0%nat) !! id').
Proof.
  assert (Hlt : (0 < nodeCount oneVertex)%nat) by (vm_compute; lia).
  split; [reflexivity|]. split; [exact Hlt|].
  exact (AddVertex_replaces oneVertex 0%nat "A" [] 0%nat eq_refl Hlt).
Defined.

(** ** C8: the synthetic exit *)


(** Nor does it hold when a vertex already bears the name of the synthetic
    exit: [Validate] returns nil and leaves no node of outdegree 0. *)
Lemma Validate_end_name_clash :
  clean clash = false
  ∧ length (starts (build clash).1 (build clash).2) = 1%nat
  ∧ length (exits (build clash).1 (build clash).2) = 2%nat
  ∧ (Validate listed 1 (build clash).2 (build clash).1).2 = Returns None
  ∧ exits (Validate listed 1 (build clash).2 (build clash).1).1 (build clash).2 = [].
Proof. repeat split; by vm_compute. Qed.



(** ** C9: [Validate] is idempotent *)

(** C9: once [Validate] has returned nil on a graph, every later call on it
    returns nil and leaves the whole store as it is, the unique ids of the
    nodes included. *)
Theorem Validate_idempotent range fuel dag h h' :
  Validate range fuel dag h = (h', Returns None) →
  ∀ fuel', Validate range (S fuel') dag h' = (h', Returns None).
Proof.
  intros Hv fuel'. apply Validate_validated. by eapply Validate_success.
Qed.

(** C9 on the graph [A -> B], [A -> C]. *)
Lemma Validate_idempotent_witness :
  ∃ h', Validate listed 1 (build fork).2 (build fork).1 = (h', Returns None)
        ∧ ∀ fuel', Validate listed (S fuel') (build fork).2 h' = (h', Returns None).
Proof.
  eexists. split; [by vm_compute|].
  apply (Validate_idempotent listed 1 (build fork).2 (build fork).1). by vm_compute.
Defined.

(** ** C10: [Append] *)

(** C10: whatever the order in which the map is visited, [Append] changes
    nothing in the store, and returns the duplicate-vertex error when the
    appended graph has a node and nil when it has none. *)
Theorem Append_reports_duplicate range dag appendDag h :
  fair range →
  Append range dag appendDag h =
    (h, if decide (nodes (dagAt h appendDag) = ∅) then None else Some ErrDuplicateVertex).
Proof.
  intros Hf. unfold Append.
  destruct (range (nodes (dagAt h appendDag))) as [|[nodeId node] rest] eqn:E.
  - apply (fair_nil _ _ Hf) in E. simpl. by rewrite decide_True.
  - assert (Hin : nodes (dagAt h appendDag) !! nodeId = Some node).
    { apply (fair_elem range _ _ _ Hf). rewrite E. left. }
    simpl. rewrite bool_decide_eq_true_2 by eauto.
    rewrite decide_False; [done|]. intros Hempty. rewrite Hempty in Hin.
    by rewrite lookup_empty in Hin.
Qed.

(** C10 on the graph [A -> B], appended to itself. *)
Lemma Append_reports_duplicate_witness :
  fair listed
  ∧ Append listed 0%nat 0%nat twoNodes = (twoNodes, Some ErrDuplicateVertex).
Proof.
  split; [exact fair_listed|].
  exact (Append_reports_duplicate listed 0%nat 0%nat twoNodes fair_listed).
Defined.

(** * Further properties of the package *)

(** ** Invariants of graphs built by clean calls *)

(** The three ways out of [AddEdge] between two vertices of a graph that
    satisfies the invariant. *)
Lemma AddEdge_outcome B dag from to h fromNode toNode :
  Inv B h dag →
  nodes (dagAt h dag) !! from = Some fromNode →
  nodes (dagAt h dag) !! to = Some toNode →
  AddEdge dag from to h =
    if decide (toNode ∈ children (nodeAt h fromNode)
               ∨ fromNode ∈ dependsOn (nodeAt h toNode))
    then (h, Some ErrDuplicateEdge)
    else if decide (fromNode ∈ next (nodeAt h toNode)
                    ∨ toNode ∈ prev (nodeAt h fromNode))
    then (h, Some ErrCyclic)
    else (linkEdge dag fromNode toNode to h, None).
Proof.
  intros HI Ef Et.
  destruct (inv_key _ _ _ HI _ _ Ef) as [Hf _].
  destruct (inv_key _ _ _ HI _ _ Et) as [Ht _].
  rewrite (AddEdge_present dag from to h fromNode toNode Ef Et).
  assert (E1 : inSlice h toNode (children (nodeAt h fromNode))
               = bool_decide (toNode ∈ children (nodeAt h fromNode))).
  { apply eq_true_iff_eq. rewrite bool_decide_eq_true.
    apply (inSlice_spec B h dag); try done. intros q. by apply (Inv_children_alloc B h dag). }
  assert (E2 : inSlice h fromNode (dependsOn (nodeAt h toNode))
               = bool_decide (fromNode ∈ dependsOn (nodeAt h toNode))).
  { apply eq_true_iff_eq. rewrite bool_decide_eq_true.
    apply (inSlice_spec B h dag); try done. intros q. by apply (Inv_dependsOn_alloc B h dag). }
  assert (E3 : inSlice h fromNode (next (nodeAt h toNode))
               = bool_decide (fromNode ∈ next (nodeAt h toNode))).
  { apply eq_true_iff_eq. rewrite bool_decide_eq_true.
    apply (inSlice_spec B h dag); try done.
    intros q Hq. apply (inv_alloc _ _ _ HI toNode q Ht). by left. }
  assert (E4 : inSlice h toNode (prev (nodeAt h fromNode))
               = bool_decide (toNode ∈ prev (nodeAt h fromNode))).
  { apply eq_true_iff_eq. rewrite bool_decide_eq_true.
    apply (inSlice_spec B h dag); try done.
    intros q Hq. apply (inv_alloc _ _ _ HI fromNode q Hf). by right. }
  rewrite E1, E2, E3, E4.
  repeat case_decide; repeat case_bool_decide; simpl; try done; tauto.
Qed.

(** A property of the root graph that [AddVertex] with a new id and the
    linking of an accepted edge keep holds of every graph built by clean
    calls. *)
Lemma build_invariant (P : nat → Heap → dptr → Prop) :
  P 0%nat (NewDag emptyHeap).1 (NewDag emptyHeap).2 →
  (∀ B B' h dag, P B h dag → (B ≤ B')%nat → P B' h dag) →
  (∀ B h dag id ops,
     Inv B h dag → P B h dag → nodes (dagAt h dag) !! id = None →
     Z.of_nat B + 1 < 2 ^ 63 →
     P (S B) (AddVertex dag id ops h).1 dag) →
  (∀ B h dag from to fromNode toNode,
     Inv B h dag → P B h dag →
     nodes (dagAt h dag) !! from = Some fromNode →
     nodes (dagAt h dag) !! to = Some toNode →
     toNode ≠ fromNode →
     toNode ∉ children (nodeAt h fromNode) →
     fromNode ∉ dependsOn (nodeAt h toNode) →
     fromNode ∉ next (nodeAt h toNode) →
     toNode ∉ prev (nodeAt h fromNode) →
     Z.of_nat B + 1 < 2 ^ 63 →
     P (S B) (linkEdge dag fromNode toNode to h) dag) →
  ∀ cs, clean cs = true → Z.of_nat (length cs) < 2 ^ 60 →
        P (3 * length cs)%nat (build cs).1 (build cs).2.
Proof.
  intros P0 Pmono Pvertex Plink.
  assert (Pget : ∀ B h dag id, Inv B h dag → P B h dag → Z.of_nat B + 1 < 2 ^ 63 →
                 P (S B) (getOrAddVertex dag id h).1 dag).
  { intros B h dag id HI HP HB. unfold getOrAddVertex.
    destruct (nodes (dagAt h dag) !! id) as [p|] eqn:E.
    - apply (Pmono B); [done|lia].
    - by apply Pvertex. }
  assert (Pstep : ∀ B seen h dag c cs,
            Built B seen h dag → P B h dag → clean_from seen (c :: cs) = true →
            Z.of_nat B + 3 < 2 ^ 63 → P (B + 3)%nat (perform dag h c) dag).
  { intros B seen h dag c cs [HI Hseen Hend Hid Hv] HP Hclean HB.
    destruct c as [id ops|from to]; simpl in Hclean; cbn [perform].
    - apply andb_prop in Hclean as [Hclean Hrest].
      apply andb_prop in Hclean as [Hnew Hne].
      apply negb_true_iff, bool_decide_eq_false in Hnew.
      assert (Hfresh : nodes (dagAt h dag) !! id = None).
      { destruct (nodes (dagAt h dag) !! id) eqn:E; [|done]. destruct Hnew. apply Hseen. eauto. }
      apply (Pmono (S B)); [|lia]. apply Pvertex; try done. lia.
    - apply andb_prop in Hclean as [Hclean Hrest].
      apply andb_prop in Hclean as [Hclean Hne2].
      apply andb_prop in Hclean as [Hne Hne1].
      apply eqb_false_ne in Hne.
      destruct (getOrAddVertex_spec B dag from h HI) as (HI1 & Ef & Hkeep1 & _).
      destruct (getOrAddVertex_spec (S B) dag to _ HI1) as (HI2 & Et & Hkeep2 & _).
      pose proof (Hkeep2 _ _ Ef) as Ef2.
      pose proof (Pget B h dag from HI HP ltac:(lia)) as HP1.
      pose proof (Pget (S B) _ dag to HI1 HP1 ltac:(lia)) as HP2.
      assert (EA : AddEdge dag from to h
                   = AddEdge dag from to (getOrAddVertex dag to (getOrAddVertex dag from h).1).1).
      { unfold AddEdge at 1.
        destruct (getOrAddVertex dag from h) as [h1 fromNode] eqn:E1. cbn [fst snd] in *.
        destruct (getOrAddVertex dag to h1) as [h2 toNode] eqn:E2. cbn [fst snd] in *.
        by rewrite (AddEdge_present dag from to h2 fromNode toNode Ef2 Et). }
      rewrite EA.
      set (h2 := (getOrAddVertex dag to (getOrAddVertex dag from h).1).1) in *.
      set (fromNode := (getOrAddVertex dag from h).2) in *.
      set (toNode := (getOrAddVertex dag to (getOrAddVertex dag from h).1).2) in *.
      rewrite (AddEdge_outcome (S (S B)) dag from to h2 fromNode toNode HI2 Ef2 Et).
      replace (B + 3)%nat with (S (S (S B))) by lia.
      destruct (inv_key _ _ _ HI2 _ _ Ef2) as [Hf Hidf].
      destruct (inv_key _ _ _ HI2 _ _ Et) as [Ht Hidt].
      assert (Hnodes : toNode ≠ fromNode) by (intros EE; rewrite EE in Hidt; congruence).
      repeat case_decide; cbn [fst].
      + apply (Pmono (S (S B))); [done|lia].
      + apply (Pmono (S (S B))); [done|lia].
      + apply (Plink (S (S B)) h2 dag from to); try done; try tauto. lia. }
  assert (Pfold : ∀ dag cs B seen h,
            Built B seen h dag → P B h dag → clean_from seen cs = true →
            Z.of_nat (B + 3 * length cs) < 2 ^ 63 →
            P (B + 3 * length cs)%nat (fold_left (perform dag) cs h) dag).
  { intros dag cs. induction cs as [|c cs IH]; intros B seen h HB HP Hclean Hsmall.
    - replace (B + 3 * length (@nil Call))%nat with B by (simpl; lia). done.
    - destruct (Built_perform B seen h dag c cs HB Hclean) as (seen' & HB' & Hclean').
      { simpl in Hsmall. lia. }
      assert (HP' : P (B + 3)%nat (perform dag h c) dag).
      { apply (Pstep B seen h dag c cs); try done. simpl in Hsmall. lia. }
      cbn [fold_left].
      replace (B + 3 * length (c :: cs))%nat with (B + 3 + 3 * length cs)%nat by (simpl; lia).
      apply (IH (B + 3)%nat seen'); try done. simpl in Hsmall. lia. }
  intros cs Hclean Hsmall.
  apply (Pfold (NewDag emptyHeap).2 cs 0%nat [] (NewDag emptyHeap).1 Built_NewDag P0 Hclean).
  lia.
Qed.

Lemma tc_edge_mono B h dag h' p q :
  Inv B h dag →
  (∀ r x, allocated h r → x ∈ children (nodeAt h r) → x ∈ children (nodeAt h' r)) →
  allocated h p → tc (edge h) p q → tc (edge h') p q.
Proof.
  intros HI Hsub Hp Hpq. induction Hpq as [p q Hpq|p r q Hpr Hrq IH].
  - apply tc_once. by apply Hsub.
  - apply (tc_l _ p r q); [by apply Hsub|]. apply IH.
    by apply (Inv_children_alloc B h dag p r).
Qed.

Lemma Wired_NewDag : Wired (NewDag emptyHeap).1.
Proof. split; unfold allocated; simpl; intros; lia. Qed.

Lemma Wired_AddVertex B h dag id ops :
  Inv B h dag → Wired h → Wired (AddVertex dag id ops h).1.
Proof.
  intros HI [Hmirror Hchildren HdependsOn Hclosure].
  assert (Hold : ∀ p, allocated h p → nodeAt (AddVertex dag id ops h).1 p = nodeAt h p).
  { intros p Hp. rewrite nodeAt_AddVertex. rewrite decide_False; [done|].
    unfold allocated in Hp; lia. }
  assert (Hnode : nodeAt (AddVertex dag id ops h).1 (nodeCount h)
                  = newNode dag id ops (wrap64 (nodeIndex (dagAt h dag) + 1))).
  { rewrite nodeAt_AddVertex. by rewrite decide_True. }
  assert (Hcase : ∀ p, allocated (AddVertex dag id ops h).1 p → p = nodeCount h ∨ allocated h p).
  { intros p. unfold allocated. rewrite nodeCount_AddVertex. lia. }
  assert (Hnew : ¬ allocated h (nodeCount h)) by (unfold allocated; lia).
  split.
  - intros p q Hp Hq. destruct (Hcase p Hp) as [->|Hp'], (Hcase q Hq) as [->|Hq'].
    + rewrite Hnode. simpl. by rewrite !elem_of_nil.
    + rewrite Hnode, Hold by done. simpl. rewrite elem_of_nil. split; [done|].
      intros Hin. destruct Hnew. by apply (Inv_dependsOn_alloc B h dag q).
    + rewrite Hnode, Hold by done. simpl. rewrite elem_of_nil. split; [|done].
      intros Hin. destruct Hnew. by apply (Inv_children_alloc B h dag p).
    + rewrite !Hold by done. by apply Hmirror.
  - intros p Hp. destruct (Hcase p Hp) as [->|Hp'].
    + rewrite Hnode. simpl. apply NoDup_nil_2.
    + rewrite Hold by done. by apply Hchildren.
  - intros p Hp. destruct (Hcase p Hp) as [->|Hp'].
    + rewrite Hnode. simpl. apply NoDup_nil_2.
    + rewrite Hold by done. by apply HdependsOn.
  - intros p q Hp. destruct (Hcase p Hp) as [->|Hp'].
    + rewrite Hnode. simpl. by rewrite elem_of_nil.
    + rewrite Hold by done. intros Hq.
      apply (tc_edge_mono B h dag); try done; [|by apply Hclosure].
      intros r x Hr. by rewrite Hold.
Qed.

Lemma Wired_linkEdge B h dag fromNode toNode to :
  Inv B h dag → Wired h →
  allocated h fromNode → allocated h toNode →
  toNode ≠ fromNode →
  toNode ∉ children (nodeAt h fromNode) →
  fromNode ∉ dependsOn (nodeAt h toNode) →
  fromNode ∉ next (nodeAt h toNode) →
  toNode ∉ prev (nodeAt h fromNode) →
  Wired (linkEdge dag fromNode toNode to h).
Proof.
  intros HI [Hmirror Hchildren HdependsOn Hclosure] Hf Ht Hne Hc Hd Hnext Hprev.
  assert (Hmono : ∀ p q, allocated h p → tc (edge h) p q →
                         tc (edge (linkEdge dag fromNode toNode to h)) p q).
  { intros p q Hp. apply (tc_edge_mono B h dag); [done| |done].
    intros r x Hr. rewrite linkEdge_children by done.
    case_decide; [|done]. rewrite elem_of_app. by left. }
  assert (Hedge : edge (linkEdge dag fromNode toNode to h) fromNode toNode).
  { unfold edge. rewrite linkEdge_children, decide_True by done.
    rewrite elem_of_app, list_elem_of_singleton. by right. }
  split.
  - intros p q. rewrite !linkEdge_allocated. intros Hp Hq.
    rewrite linkEdge_children, linkEdge_dependsOn by done.
    pose proof (Hmirror p q Hp Hq) as Hpq.
    repeat case_decide; subst; rewrite ?elem_of_app, ?list_elem_of_singleton;
      intuition congruence.
  - intros p. rewrite linkEdge_allocated, linkEdge_children by done. intros Hp.
    case_decide; [subst|by apply Hchildren].
    apply NoDup_app. split; [by apply Hchildren|]. split; [|apply NoDup_singleton].
    intros x Hx. rewrite list_elem_of_singleton. by intros ->.
  - intros p. rewrite linkEdge_allocated, linkEdge_dependsOn by done. intros Hp.
    case_decide; [subst|by apply HdependsOn].
    apply NoDup_app. split; [by apply HdependsOn|]. split; [|apply NoDup_singleton].
    intros x Hx. rewrite list_elem_of_singleton. by intros ->.
  - intros p q. rewrite linkEdge_allocated, linkEdge_next by done.
    intros Hp [Hq|[Hpf Hqt]].
    + apply Hmono; [done|]. by apply Hclosure.
    + assert (Hfq : tc (edge (linkEdge dag fromNode toNode to h)) fromNode q).
      { apply elem_of_cons in Hqt as [->|Hqt]; [by apply tc_once|].
        apply (tc_l _ fromNode toNode q); [done|].
        apply Hmono; [done|]. by apply Hclosure. }
      apply (before_from B h dag fromNode HI Hf p Hp) in Hpf as [->|Hpf]; [done|].
      etrans; [|exact Hfq]. apply Hmono; [done|]. by apply Hclosure.
Qed.

Lemma Wired_build cs :
  clean cs = true → Z.of_nat (length cs) < 2 ^ 60 → Wired (build cs).1.
Proof.
  apply (build_invariant (λ _ h _, Wired h)).
  - apply Wired_NewDag.
  - done.
  - intros B h dag id ops HI HW _ _. by apply (Wired_AddVertex B).
  - intros B h dag from to fromNode toNode HI HW Ef Et Hne Hc Hd Hn Hp _.
    destruct (inv_key _ _ _ HI _ _ Ef) as [Hf _].
    destruct (inv_key _ _ _ HI _ _ Et) as [Ht _].
    by apply (Wired_linkEdge B).
Qed.

Lemma Inv_build cs :
  clean cs = true → Z.of_nat (length cs) < 2 ^ 60 →
  Inv (3 * length cs) (build cs).1 (build cs).2.
Proof.
  intros Hclean Hsmall. by destruct (Built_build cs Hclean Hsmall) as (seen & [HI _ _ _ _]).
Qed.

(** The counters and the adjacency slices of a graph built by clean calls. *)
Theorem build_adjacency cs id p :
  clean cs = true → Z.of_nat (length cs) < 2 ^ 60 →
  let h := (build cs).1 in
  let dag := (build cs).2 in
  nodes (dagAt h dag) !! id = Some p →
  indegree (nodeAt h p) = Z.of_nat (length (dependsOn (nodeAt h p)))
  ∧ outdegree (nodeAt h p) = Z.of_nat (length (children (nodeAt h p)))
  ∧ NoDup (children (nodeAt h p))
  ∧ NoDup (dependsOn (nodeAt h p))
  ∧ (∀ q, q ∈ children (nodeAt h p) →
          p ∈ dependsOn (nodeAt h q)
          ∧ nodes (dagAt h dag) !! Id (nodeAt h q) = Some q)
  ∧ (∀ q, q ∈ dependsOn (nodeAt h p) →
          p ∈ children (nodeAt h q)
          ∧ nodes (dagAt h dag) !! Id (nodeAt h q) = Some q).
Proof.
  intros Hclean Hsmall. cbv zeta. intros Hp.
  pose proof (Inv_build cs Hclean Hsmall) as HI.
  pose proof (Wired_build cs Hclean Hsmall) as [Hmirror Hchildren HdependsOn _].
  destruct (inv_key _ _ _ HI _ _ Hp) as [Ha _].
  split; [by apply (inv_in _ _ _ HI)|]. split; [by apply (inv_out _ _ _ HI)|].
  split; [by apply Hchildren|]. split; [by apply HdependsOn|]. split.
  - intros q Hq. pose proof (Inv_children_alloc _ _ _ p q HI Ha Hq) as Hqa.
    split; [by apply Hmirror|by apply (inv_own _ _ _ HI)].
  - intros q Hq. pose proof (Inv_dependsOn_alloc _ _ _ p q HI Ha Hq) as Hqa.
    split; [by apply Hmirror|by apply (inv_own _ _ _ HI)].
Qed.

(** The closure slices are the transitive closure of the edges. *)
Theorem build_closure cs id id' p q :
  clean cs = true → Z.of_nat (length cs) < 2 ^ 60 →
  let h := (build cs).1 in
  let dag := (build cs).2 in
  nodes (dagAt h dag) !! id = Some p →
  nodes (dagAt h dag) !! id' = Some q →
  (q ∈ next (nodeAt h p) ↔ tc (edge h) p q)
  ∧ (p ∈ prev (nodeAt h q) ↔ tc (edge h) p q).
Proof.
  intros Hclean Hsmall. cbv zeta. intros Hp Hq.
  pose proof (Inv_build cs Hclean Hsmall) as HI.
  pose proof (Wired_build cs Hclean Hsmall) as [_ _ _ Hclosure].
  destruct (inv_key _ _ _ HI _ _ Hp) as [Ha _].
  destruct (inv_key _ _ _ HI _ _ Hq) as [Hqa _].
  assert (E : q ∈ next (nodeAt (build cs).1 p) ↔ tc (edge (build cs).1) p q).
  { split; [by apply Hclosure|by apply (Inv_reach (3 * length cs) _ (build cs).2)]. }
  split; [done|]. by rewrite <- (inv_sym _ _ _ HI p q Ha Hqa).
Qed.

(** ** [AddEdge] on a graph built by clean calls *)

(** An edge that is already there. *)
Theorem AddEdge_duplicate cs from to p q :
  clean cs = true → Z.of_nat (length cs) < 2 ^ 60 →
  let h := (build cs).1 in
  let dag := (build cs).2 in
  nodes (dagAt h dag) !! from = Some p →
  nodes (dagAt h dag) !! to = Some q →
  q ∈ children (nodeAt h p) →
  AddEdge dag from to h = (h, Some ErrDuplicateEdge).
Proof.
  intros Hclean Hsmall. cbv zeta. intros Hp Hq Hin.
  pose proof (Inv_build cs Hclean Hsmall) as HI.
  rewrite (AddEdge_outcome _ _ from to _ p q HI Hp Hq).
  rewrite decide_True; [done|by left].
Qed.

(** An edge between two vertices that would close a cycle. *)
Theorem AddEdge_rejects_cycle cs from to p q :
  clean cs = true → Z.of_nat (length cs) < 2 ^ 60 →
  let h := (build cs).1 in
  let dag := (build cs).2 in
  nodes (dagAt h dag) !! from = Some p →
  nodes (dagAt h dag) !! to = Some q →
  tc (edge h) q p →
  AddEdge dag from to h = (h, Some ErrCyclic).
Proof.
  intros Hclean Hsmall. cbv zeta. intros Hp Hq Hqp.
  pose proof (Inv_build cs Hclean Hsmall) as HI.
  pose proof (Wired_build cs Hclean Hsmall) as [Hmirror _ _ _].
  destruct (inv_key _ _ _ HI _ _ Hp) as [Hpa _].
  destruct (inv_key _ _ _ HI _ _ Hq) as [Hqa _].
  rewrite (AddEdge_outcome _ _ from to _ p q HI Hp Hq).
  assert (Hnot : q ∉ children (nodeAt (build cs).1 p)).
  { intros Hin. apply (Inv_acyclic _ _ _ HI to q Hq).
    etrans; [exact Hqp|]. by apply tc_once. }
  rewrite decide_False.
  2:{ intros [?|Hd]; [done|]. by apply (Hmirror p q Hpa Hqa) in Hd. }
  rewrite decide_True; [done|]. left. by apply (Inv_reach (3 * length cs) _ (build cs).2).
Qed.

(** An edge between two vertices that is new and closes no cycle. *)
Theorem AddEdge_links cs from to p q :
  clean cs = true → Z.of_nat (length cs) < 2 ^ 60 →
  let h := (build cs).1 in
  let dag := (build cs).2 in
  nodes (dagAt h dag) !! from = Some p →
  nodes (dagAt h dag) !! to = Some q →
  from ≠ to →
  q ∉ children (nodeAt h p) →
  ¬ tc (edge h) q p →
  let h' := (AddEdge dag from to h).1 in
  (AddEdge dag from to h).2 = None
  ∧ nodes (dagAt h' dag) = nodes (dagAt h dag)
  ∧ children (nodeAt h' p) = children (nodeAt h p) ++ [q]
  ∧ dependsOn (nodeAt h' q) = dependsOn (nodeAt h q) ++ [p]
  ∧ outdegree (nodeAt h' p) = outdegree (nodeAt h p) + 1
  ∧ indegree (nodeAt h' q) = indegree (nodeAt h q) + 1
  ∧ forwarder (nodeAt h' p) !! to = Some (Some DefaultForwarder)
  ∧ hasEdge (dagAt h' dag) = true
  ∧ (∀ r, r ≠ p → children (nodeAt h' r) = children (nodeAt h r)
                   ∧ outdegree (nodeAt h' r) = outdegree (nodeAt h r))
  ∧ (∀ r, r ≠ q → dependsOn (nodeAt h' r) = dependsOn (nodeAt h r)
                   ∧ indegree (nodeAt h' r) = indegree (nodeAt h r)).
Proof.
  intros Hclean Hsmall. cbv zeta. intros Hp Hq Hne Hnew Hreach.
  pose proof (Inv_build cs Hclean Hsmall) as HI.
  pose proof (Wired_build cs Hclean Hsmall) as [Hmirror _ _ Hclosure].
  destruct (inv_key _ _ _ HI _ _ Hp) as [Hpa Hpid].
  destruct (inv_key _ _ _ HI _ _ Hq) as [Hqa Hqid].
  assert (Hqp : q ≠ p) by (intros ->; congruence).
  assert (H1 : p ∉ dependsOn (nodeAt (build cs).1 q)).
  { intros Hd. by apply (Hmirror p q Hpa Hqa) in Hd. }
  assert (H2 : p ∉ next (nodeAt (build cs).1 q)).
  { intros Hn. apply Hreach. by apply Hclosure. }
  assert (H3 : q ∉ prev (nodeAt (build cs).1 p)).
  { intros Hn. apply H2. by apply (inv_sym _ _ _ HI q p Hqa Hpa). }
  rewrite (AddEdge_outcome _ _ from to _ p q HI Hp Hq).
  rewrite decide_False by tauto. rewrite decide_False by tauto. cbn [fst snd].
  rewrite linkEdge_nodes, !linkEdge_children, !linkEdge_dependsOn,
    !linkEdge_outdegree, !linkEdge_indegree, linkEdge_forwarder by done.
  rewrite !decide_True by done. rewrite lookup_insert_eq.
  destruct (inv_bound _ _ _ HI p Hpa) as [Hbc _].
  destruct (inv_bound _ _ _ HI q Hqa) as [_ Hbd].
  rewrite (inv_out _ _ _ HI p Hpa), (inv_in _ _ _ HI q Hqa).
  unfold int_incr. rewrite !wrap64_small by lia.
  do 7 (split; [done|]).
  split; [unfold linkEdge, flagEdge; by rewrite dagAt_updDag_eq|].
  split; intros r Hr.
  - rewrite linkEdge_children, linkEdge_outdegree by done. by rewrite !decide_False.
  - rewrite linkEdge_dependsOn, linkEdge_indegree by done. by rewrite !decide_False.
Qed.

(** Whatever it returns, [AddEdge] leaves both ends as vertices and keeps
    every vertex that was there. *)
Theorem AddEdge_vertices cs from to :
  clean cs = true → Z.of_nat (length cs) < 2 ^ 60 →
  from ≠ to →
  let h := (build cs).1 in
  let dag := (build cs).2 in
  let h' := (AddEdge dag from to h).1 in
  is_Some (nodes (dagAt h' dag) !! from)
  ∧ is_Some (nodes (dagAt h' dag) !! to)
  ∧ (∀ k r, nodes (dagAt h dag) !! k = Some r → nodes (dagAt h' dag) !! k = Some r)
  ∧ (∀ k, is_Some (nodes (dagAt h' dag) !! k) →
          is_Some (nodes (dagAt h dag) !! k) ∨ k = from ∨ k = to).
Proof.
  intros Hclean Hsmall Hne. cbv zeta.
  pose proof (Inv_build cs Hclean Hsmall) as HI.
  destruct (Inv_AddEdge _ _ from to _ HI Hne) as (_ & Hkeep & Hdom & _); [lia|].
  destruct (getOrAddVertex_spec _ _ from _ HI) as (HI1 & Ef & Hkeep1 & _).
  destruct (getOrAddVertex_spec _ _ to _ HI1) as (HI2 & Et & Hkeep2 & _).
  pose proof (Hkeep2 _ _ Ef) as Ef2.
  assert (Hsub : ∀ k r,
            nodes (dagAt (getOrAddVertex (build cs).2 to
                            (getOrAddVertex (build cs).2 from (build cs).1).1).1
                     (build cs).2) !! k = Some r →
            nodes (dagAt (AddEdge (build cs).2 from to (build cs).1).1 (build cs).2) !! k
            = Some r).
  { intros k r Hk.
    destruct (AddEdge_cases (build cs).2 from to (build cs).1) as [E|(E & _)].
    - by rewrite E.
    - rewrite E. cbn [fst]. by rewrite nodes_linkEdge. }
  split; [eexists; by apply Hsub|]. split; [eexists; by apply Hsub|]. done.
Qed.

(** ** The flags of a graph built by clean calls *)

Lemma dagAt_AddForwarder_data node child f h dag :
  parentDag (nodeAt h node) = dag →
  dagAt (AddForwarder node child (Some f) h) dag
  = set_executionFlow false
      (set_dataForwarderCount (wrap64 (dataForwarderCount (dagAt h dag) + 1))
         (dagAt h dag)).
Proof.
  intros Hpd. unfold AddForwarder. rewrite nodeAt_updNode_eq. simpl. rewrite Hpd.
  by rewrite !dagAt_updDag_eq, dagAt_updNode.
Qed.

Lemma dagAt_flagEdge dag fromNode toNode h :
  dagAt (flagEdge dag fromNode toNode h) dag
  = set_hasEdge true
      (if (1 <? indegree (nodeAt h toNode)) || (1 <? outdegree (nodeAt h fromNode))
       then set_hasBranch true (dagAt h dag) else dagAt h dag).
Proof.
  unfold flagEdge.
  destruct ((1 <? indegree (nodeAt h toNode)) || (1 <? outdegree (nodeAt h fromNode))).
  - by rewrite !dagAt_updDag_eq.
  - by rewrite dagAt_updDag_eq.
Qed.

Section link_flags.
Context (B : nat) (h : Heap) (dag : dptr) (fromNode toNode : nptr) (to : string).
Hypothesis HI : Inv B h dag.
Hypothesis Hfrom : allocated h fromNode.
Hypothesis Hto : allocated h toNode.
Hypothesis Hne : toNode ≠ fromNode.
Hypothesis Hnext : fromNode ∉ next (nodeAt h toNode).
Hypothesis Hprev : toNode ∉ prev (nodeAt h fromNode).

Local Abbreviation h' := (linkEdge dag fromNode toNode to h).
Local Abbreviation hf :=
  (AddForwarder fromNode to (Some DefaultForwarder)
     (countEdge fromNode toNode (updatePrev fromNode toNode (updateNext fromNode toNode h)))).

Lemma linkEdge_flagEdge : h' = flagEdge dag fromNode toNode hf.
Proof. done. Qed.

Lemma nodeAt_before_flagEdge p : nodeAt hf p = nodeAt h' p.
Proof. by rewrite linkEdge_flagEdge, nodeAt_flagEdge. Qed.

Lemma dagAt_before_flagEdge :
  dagAt hf dag
  = set_executionFlow false
      (set_dataForwarderCount (wrap64 (dataForwarderCount (dagAt h dag) + 1))
         (dagAt h dag)).
Proof.
  rewrite dagAt_AddForwarder_data.
  - by rewrite dagAt_countEdge, dagAt_updatePrev, dagAt_updateNext.
  - destruct (inv_plain _ _ _ HI fromNode Hfrom) as (Epd & _).
    etrans; [|exact Epd].
    destruct (linkEdge_plain h dag fromNode toNode to Hne Hnext Hprev fromNode) as (E & _).
    rewrite <- E. unfold linkEdge.
    by rewrite nodeAt_flagEdge, nodeAt_AddForwarder, decide_True.
Qed.

Lemma dagAt_linkEdge :
  dagAt h' dag
  = set_hasEdge true
      ((if (1 <? indegree (nodeAt h' toNode)) || (1 <? outdegree (nodeAt h' fromNode))
        then set_hasBranch true else id)
         (set_executionFlow false
            (set_dataForwarderCount (wrap64 (dataForwarderCount (dagAt h dag) + 1))
               (dagAt h dag)))).
Proof.
  rewrite <- !nodeAt_before_flagEdge, <- dagAt_before_flagEdge.
  rewrite linkEdge_flagEdge.
  generalize hf. intros h0. rewrite dagAt_flagEdge. by case_match.
Qed.

Lemma hasEdge_linkEdge : hasEdge (dagAt h' dag) = true.
Proof. by rewrite dagAt_linkEdge. Qed.

Lemma executionFlow_linkEdge : executionFlow (dagAt h' dag) = false.
Proof. rewrite dagAt_linkEdge. by case_match. Qed.

Lemma hasBranch_linkEdge :
  hasBranch (dagAt h' dag)
  = (1 <? indegree (nodeAt h' toNode)) || (1 <? outdegree (nodeAt h' fromNode))
    || hasBranch (dagAt h dag).
Proof. rewrite dagAt_linkEdge. by case_match. Qed.

Lemma nodeIndex_linkEdge : nodeIndex (dagAt h' dag) = nodeIndex (dagAt h dag).
Proof. rewrite dagAt_linkEdge. by case_match. Qed.

Lemma Flagged_linkEdge :
  Z.of_nat B + 1 < 2 ^ 63 → Flagged h dag → Flagged h' dag.
Proof.
  intros HB [HE HBr HF]. split.
  - rewrite hasEdge_linkEdge. split; [|done]. intros _. exists fromNode.
    rewrite linkEdge_allocated, linkEdge_children, decide_True by done.
    split; [done|]. by destruct (children (nodeAt h fromNode)).
  - rewrite hasBranch_linkEdge, !orb_true_iff, !Z.ltb_lt, HBr. split.
    + intros [[Hi|Ho]|(p & Hp & Hd)].
      * exists toNode. rewrite linkEdge_allocated. tauto.
      * exists fromNode. rewrite linkEdge_allocated. tauto.
      * exists p. rewrite linkEdge_allocated. split; [done|].
        rewrite linkEdge_indegree, linkEdge_outdegree by done.
        destruct (inv_bound _ _ _ HI p Hp).
        rewrite (inv_in _ _ _ HI p Hp), (inv_out _ _ _ HI p Hp) in *.
        unfold int_incr. repeat case_decide; rewrite ?wrap64_small by lia; lia.
    + intros (p & Hp & Hd). rewrite linkEdge_allocated in Hp.
      rewrite linkEdge_indegree, linkEdge_outdegree in Hd by done.
      rewrite (linkEdge_indegree h dag fromNode toNode to Hne Hnext Hprev toNode).
      rewrite (linkEdge_outdegree h dag fromNode toNode to Hne Hnext Hprev fromNode).
      rewrite !decide_True by done.
      destruct (decide (p = toNode)) as [Ept|Hpt];
        destruct (decide (p = fromNode)) as [Epf|Hpf].
      * congruence.
      * subst p. destruct Hd as [Hd|Hd]; [tauto|]. right. by exists toNode; auto.
      * subst p. destruct Hd as [Hd|Hd]; [|tauto]. right. by exists fromNode; auto.
      * right. by exists p.
  - by rewrite executionFlow_linkEdge, hasEdge_linkEdge.
Qed.
End link_flags.

Lemma Flagged_NewDag : Flagged (NewDag emptyHeap).1 (NewDag emptyHeap).2.
Proof.
  split.
  - split; [done|]. intros (p & Hp & _). unfold allocated in Hp. simpl in Hp. lia.
  - split; [done|]. intros (p & Hp & _). unfold allocated in Hp. simpl in Hp. lia.
  - done.
Qed.

Lemma Flagged_AddVertex h dag id ops :
  Flagged h dag → Flagged (AddVertex dag id ops h).1 dag.
Proof.
  intros [HE HBr HF].
  assert (Hold : ∀ p, allocated h p → nodeAt (AddVertex dag id ops h).1 p = nodeAt h p).
  { intros p Hp. rewrite nodeAt_AddVertex. rewrite decide_False; [done|].
    unfold allocated in Hp; lia. }
  assert (Hnode : nodeAt (AddVertex dag id ops h).1 (nodeCount h)
                  = newNode dag id ops (wrap64 (nodeIndex (dagAt h dag) + 1))).
  { rewrite nodeAt_AddVertex. by rewrite decide_True. }
  assert (Hcase : ∀ p, allocated (AddVertex dag id ops h).1 p ↔ p = nodeCount h ∨ allocated h p).
  { intros p. unfold allocated. rewrite nodeCount_AddVertex. lia. }
  assert (Hdag : ∀ f : Dag → bool,
            (∀ g v, f (set_nodeIndex v g) = f g) → (∀ g v, f (set_nodes v g) = f g) →
            f (dagAt (AddVertex dag id ops h).1 dag) = f (dagAt h dag)).
  { intros f H1 H2. rewrite AddVertex_unfold. cbn [fst].
    by rewrite !dagAt_updDag_eq, H2, H1, dagAt_allocNode. }
  split.
  - rewrite (Hdag hasEdge) by done. rewrite HE. split.
    + intros (p & Hp & Hc). exists p. rewrite Hcase, Hold by done. tauto.
    + intros (p & Hp & Hc). apply Hcase in Hp as [->|Hp].
      * by rewrite Hnode in Hc.
      * exists p. by rewrite Hold in Hc.
  - rewrite (Hdag hasBranch) by done. rewrite HBr. split.
    + intros (p & Hp & Hc). exists p. rewrite Hcase, Hold by done. tauto.
    + intros (p & Hp & Hc). apply Hcase in Hp as [->|Hp].
      * rewrite Hnode in Hc. simpl in Hc. lia.
      * exists p. by rewrite Hold in Hc.
  - by rewrite (Hdag executionFlow), (Hdag hasEdge).
Qed.

Lemma Flagged_build cs :
  clean cs = true → Z.of_nat (length cs) < 2 ^ 60 →
  Flagged (build cs).1 (build cs).2.
Proof.
  apply (build_invariant (λ _ h dag, Flagged h dag)).
  - apply Flagged_NewDag.
  - done.
  - intros B h dag id ops HI HW _ _. by apply Flagged_AddVertex.
  - intros B h dag from to fromNode toNode HI HW Ef Et Hne Hc Hd Hn Hp HB.
    destruct (inv_key _ _ _ HI _ _ Ef) as [Hf _].
    destruct (inv_key _ _ _ HI _ _ Et) as [Ht _].
    by apply (Flagged_linkEdge B).
Qed.

(** What [HasEdge], [HasBranch] and [IsExecutionFlow] answer on a graph
    built by clean calls. *)
Theorem build_flags cs :
  clean cs = true → Z.of_nat (length cs) < 2 ^ 60 →
  let h := (build cs).1 in
  let dag := (build cs).2 in
  (hasEdge (dagAt h dag) = true
   ↔ ∃ id p, nodes (dagAt h dag) !! id = Some p ∧ children (nodeAt h p) ≠ [])
  ∧ (hasBranch (dagAt h dag) = true
     ↔ ∃ id p, nodes (dagAt h dag) !! id = Some p
               ∧ (1 < indegree (nodeAt h p) ∨ 1 < outdegree (nodeAt h p)))
  ∧ executionFlow (dagAt h dag) = negb (hasEdge (dagAt h dag)).
Proof.
  intros Hclean Hsmall. cbv zeta.
  pose proof (Inv_build cs Hclean Hsmall) as HI.
  destruct (Flagged_build cs Hclean Hsmall) as [HE HBr HF].
  split; [|split; [|done]].
  - rewrite HE. split.
    + intros (p & Hp & Hc). exists (Id (nodeAt (build cs).1 p)), p.
      split; [by apply (inv_own _ _ _ HI)|done].
    + intros (id & p & Hp & Hc). exists p.
      by destruct (inv_key _ _ _ HI _ _ Hp).
  - rewrite HBr. split.
    + intros (p & Hp & Hc). exists (Id (nodeAt (build cs).1 p)), p.
      split; [by apply (inv_own _ _ _ HI)|done].
    + intros (id & p & Hp & Hc). exists p.
      by destruct (inv_key _ _ _ HI _ _ Hp).
Qed.

(** ** The fields that the construction calls leave alone *)

Lemma linked_bare fromNode toNode to p en ep n :
  task (linked fromNode toNode to false p en ep n) = task n
  ∧ dynamic (linked fromNode toNode to false p en ep n) = dynamic n
  ∧ dynamicIndegree (linked fromNode toNode to false p en ep n) = dynamicIndegree n
  ∧ index (linked fromNode toNode to false p en ep n) = index n.
Proof. unfold linked. by repeat case_decide. Qed.

Lemma Bare_NewDag : Bare (NewDag emptyHeap).1 (NewDag emptyHeap).2.
Proof. split; try done; unfold allocated; simpl; intros; lia. Qed.

Lemma Bare_AddVertex B h dag id ops :
  Inv B h dag → Z.of_nat B + 1 < 2 ^ 63 →
  Bare h dag → Bare (AddVertex dag id ops h).1 dag.
Proof.
  intros HI HB [Htask Hstatic Huid Hindex HnodeIndex].
  pose proof (inv_count _ _ _ HI) as Hcount.
  assert (Hold : ∀ p, allocated h p → nodeAt (AddVertex dag id ops h).1 p = nodeAt h p).
  { intros p Hp. rewrite nodeAt_AddVertex. rewrite decide_False; [done|].
    unfold allocated in Hp; lia. }
  assert (Hnode : nodeAt (AddVertex dag id ops h).1 (nodeCount h)
                  = newNode dag id ops (Z.of_nat (S (nodeCount h)))).
  { rewrite nodeAt_AddVertex, decide_True by done. rewrite HnodeIndex.
    rewrite wrap64_small by lia. f_equal. lia. }
  assert (Hcase : ∀ p, allocated (AddVertex dag id ops h).1 p → p = nodeCount h ∨ allocated h p).
  { intros p. unfold allocated. rewrite nodeCount_AddVertex. lia. }
  split.
  - intros p Hp. destruct (Hcase p Hp) as [->|Hp']; [by rewrite Hnode|].
    rewrite Hold by done. by apply Htask.
  - intros p Hp. destruct (Hcase p Hp) as [->|Hp']; [by rewrite Hnode|].
    rewrite Hold by done. by apply Hstatic.
  - intros p Hp. destruct (Hcase p Hp) as [->|Hp']; [by rewrite Hnode|].
    rewrite Hold by done. by apply Huid.
  - intros p Hp. destruct (Hcase p Hp) as [->|Hp']; [by rewrite Hnode|].
    rewrite Hold by done. by apply Hindex.
  - rewrite nodeCount_AddVertex, AddVertex_unfold. cbn [fst].
    rewrite !dagAt_updDag_eq. cbn [nodeIndex set_nodes set_nodeIndex].
    rewrite dagAt_allocNode, HnodeIndex.
    rewrite wrap64_small by lia. lia.
Qed.

Lemma Bare_linkEdge B h dag fromNode toNode to :
  Inv B h dag → allocated h fromNode → allocated h toNode →
  toNode ≠ fromNode →
  fromNode ∉ next (nodeAt h toNode) → toNode ∉ prev (nodeAt h fromNode) →
  Bare h dag → Bare (linkEdge dag fromNode toNode to h) dag.
Proof.
  intros HI Hf Ht Hne Hnext Hprev [Htask Hstatic Huid Hindex HnodeIndex].
  assert (Hnode : ∀ p, ∃ en ep,
            nodeAt (linkEdge dag fromNode toNode to h) p
            = linked fromNode toNode to false p en ep (nodeAt h p)).
  { intros p.
    destruct (linkEdge_nodeAt dag fromNode toNode to h p Hne Hprev Hnext)
      as (en & ep & E & _).
    exists en, ep. rewrite E. by destruct (Hstatic fromNode Hf) as [-> _]. }
  split.
  - intros p. rewrite linkEdge_allocated. intros Hp.
    destruct (Hnode p) as (en & ep & ->).
    destruct (linked_bare fromNode toNode to p en ep (nodeAt h p)) as (-> & _).
    by apply Htask.
  - intros p. rewrite linkEdge_allocated. intros Hp.
    destruct (Hnode p) as (en & ep & ->).
    destruct (linked_bare fromNode toNode to p en ep (nodeAt h p)) as (_ & -> & -> & _).
    by apply Hstatic.
  - intros p. rewrite linkEdge_allocated, linkEdge_uniqueId by done. apply Huid.
  - intros p. rewrite linkEdge_allocated. intros Hp.
    destruct (Hnode p) as (en & ep & ->).
    destruct (linked_bare fromNode toNode to p en ep (nodeAt h p)) as (_ & _ & _ & ->).
    by apply Hindex.
  - rewrite (nodeIndex_linkEdge B) by done. by rewrite linkEdge_nodeCount.
Qed.

Lemma Bare_build cs :
  clean cs = true → Z.of_nat (length cs) < 2 ^ 60 →
  Bare (build cs).1 (build cs).2.
Proof.
  apply (build_invariant (λ _ h dag, Bare h dag)).
  - apply Bare_NewDag.
  - done.
  - intros B h dag id ops HI HW _ HB. by apply (Bare_AddVertex B).
  - intros B h dag from to fromNode toNode HI HW Ef Et Hne Hc Hd Hn Hp HB.
    destruct (inv_key _ _ _ HI _ _ Ef) as [Hf _].
    destruct (inv_key _ _ _ HI _ _ Et) as [Ht _].
    by apply (Bare_linkEdge B).
Qed.

(** The vertices of a graph that satisfies the invariant are the nodes of
    the store. *)
Lemma Inv_vertices B h dag :
  Inv B h dag → vertices h dag ≡ₚ seq 0%nat (nodeCount h).
Proof.
  intros HI. apply NoDup_Permutation.
  - by apply (Inv_vertices_NoDup B).
  - apply NoDup_seq.
  - intros p. rewrite elem_of_vertices, elem_of_seq. split.
    + intros (id & Hid). destruct (inv_key _ _ _ HI _ _ Hid) as [Ha _].
      unfold allocated in Ha. lia.
    + intros Hp. exists (Id (nodeAt h p)). apply (inv_own _ _ _ HI). unfold allocated. lia.
Qed.

Lemma Inv_size B h dag : Inv B h dag → size (nodes (dagAt h dag)) = nodeCount h.
Proof.
  intros HI. rewrite <- (length_seq (nodeCount h) 0%nat), <- (Inv_vertices B h dag HI).
  unfold vertices. by rewrite length_fmap, length_map_to_list.
Qed.

(** The indices of the vertices of a graph built by clean calls. *)
Theorem build_indices cs :
  clean cs = true → Z.of_nat (length cs) < 2 ^ 60 →
  let h := (build cs).1 in
  let dag := (build cs).2 in
  nodeIndex (dagAt h dag) = Z.of_nat (size (nodes (dagAt h dag)))
  ∧ (∀ id p, nodes (dagAt h dag) !! id = Some p →
             1 ≤ index (nodeAt h p) ≤ Z.of_nat (size (nodes (dagAt h dag))))
  ∧ (∀ id id' p q,
       nodes (dagAt h dag) !! id = Some p → nodes (dagAt h dag) !! id' = Some q →
       index (nodeAt h p) = index (nodeAt h q) → id = id').
Proof.
  intros Hclean Hsmall. cbv zeta.
  pose proof (Inv_build cs Hclean Hsmall) as HI.
  destruct (Bare_build cs Hclean Hsmall) as [_ _ _ Hindex HnodeIndex].
  rewrite (Inv_size _ _ _ HI).
  split; [done|]. split.
  - intros id p Hp. destruct (inv_key _ _ _ HI _ _ Hp) as [Ha _].
    rewrite (Hindex p Ha). unfold allocated in Ha. lia.
  - intros id id' p q Hp Hq.
    destruct (inv_key _ _ _ HI _ _ Hp) as [Hpa <-].
    destruct (inv_key _ _ _ HI _ _ Hq) as [Hqa <-].
    rewrite (Hindex p Hpa), (Hindex q Hqa). intros E.
    assert (p = q) by lia. by subst.
Qed.

(** ** The two loops of [Run] *)

(** The first loop of [Run] never waits: the channel has room for every
    vertex.  It ends with the indegree-0 vertices in the channel, in the
    order of the visit, and nothing else done. *)
Theorem Run_first_loop rev range h dag :
  fair range →
  exec rev (replicate (S (size (nodes (dagAt h dag)))) Main) (Run_start range h dag)
  = Some (mkRunState h
            (mkChan (filter (λ p, indegree (nodeAt h p) = 0)
                       (range (nodes (dagAt h dag))).*2)
                    (size (nodes (dagAt h dag))) false)
            NewDataSet Receiving [] false)
  ∧ filter (λ p, indegree (nodeAt h p) = 0) (range (nodes (dagAt h dag))).*2
    ≡ₚ starts h dag.
Proof.
  intros Hfair.
  assert (Hlen : length (range (nodes (dagAt h dag))).*2 = size (nodes (dagAt h dag))).
  { rewrite length_fmap, (Hfair (nodes (dagAt h dag))). apply length_map_to_list. }
  split.
  - rewrite <- Hlen at 1. unfold Run_start.
    rewrite (Run_enqueues rev _ h (make_chan (size (nodes (dagAt h dag)))) NewDataSet []);
      [done|done|exact (Nat.eq_le_incl _ _ Hlen)].
  - unfold starts. by rewrite (range_vertices range Hfair).
Qed.

(** *** A graph whose nodes hold no task *)

Lemma untouched_step rev h c s s' :
  (∀ p, allocated h p → task (nodeAt h p) = None) →
  untouched h s → step rev c s = Some s' → untouched h s'.
Proof.
  intros Hnil (Hs & Hd & Hm & Hb & Hg). unfold step.
  destruct (crashed s); [done|]. destruct c as [|i].
  - unfold main_step. destruct (main s) as [[|node rest]| |] eqn:Em; try done.
    + intros [= <-]. by split_and!.
    + pose proof (Hm _ eq_refl) as Hrest. apply Forall_cons in Hrest as [Hnode Hrest].
      destruct (indegree _ =? 0).
      * unfold send. case_match; [|done]. simpl. intros [= <-].
        unfold untouched. cbn [store data main readyChan buffer goroutines].
        split_and!; try done.
        -- by intros ? [= <-].
        -- rewrite Forall_app, Forall_singleton. split; [exact Hb|exact Hnode].
      * intros [= <-]. unfold untouched. cbn [store data main readyChan buffer goroutines].
        split_and!; try done. by intros ? [= <-].
    + destruct (buffer (readyChan s)) as [|nodeTask q] eqn:Eb.
      * destruct (closed (readyChan s)); [|done]. intros [= <-].
        unfold untouched. cbn [store data main readyChan buffer goroutines].
        by rewrite Eb.
      * apply Forall_cons in Hb as [Hn Hq]. intros [= <-].
        unfold untouched. cbn [store data main readyChan buffer goroutines].
        split_and!; try done.
        rewrite Forall_app, Forall_singleton. split; [exact Hg|eauto].
  - unfold goroutine_step. destruct (goroutines s !! i) as [g|] eqn:Eg; [|done]. simpl.
    destruct (proj1 (Forall_lookup _ _) Hg i g Eg) as (n & -> & Hn).
    rewrite Hs, (Hnil n Hn). intros [= <-]. by split_and!.
Qed.

Lemma untouched_exec rev h cs : ∀ s s',
  (∀ p, allocated h p → task (nodeAt h p) = None) →
  untouched h s → exec rev cs s = Some s' → untouched h s'.
Proof.
  induction cs as [|c cs IH]; intros s s' Hnil Hu; simpl.
  - by intros [= <-].
  - destruct (step rev c s) as [s1|] eqn:E1; [|done]. simpl.
    apply IH; [done|]. by apply (untouched_step rev h c s).
Qed.

(** The caller up to the start of the goroutine of a vertex of indegree 0. *)
Lemma Run_reaches rev range h dag id p :
  fair range →
  nodes (dagAt h dag) !! id = Some p →
  indegree (nodeAt h p) = 0 →
  ∃ cs s i,
    exec rev cs (Run_start range h dag) = Some s
    ∧ store s = h ∧ data s = NewDataSet ∧ crashed s = false
    ∧ goroutines s !! i = Some (Starting p).
Proof.
  intros Hfair Hid Hin.
  destruct (Run_first_loop rev range h dag Hfair) as [E1 _].
  set (ready := filter (λ p, indegree (nodeAt h p) = 0) (range (nodes (dagAt h dag))).*2) in *.
  assert (Hp : p ∈ ready).
  { apply list_elem_of_filter. split; [done|]. apply list_elem_of_fmap.
    exists (id, p). split; [done|]. by apply (fair_elem range _ _ _ Hfair). }
  apply list_elem_of_split in Hp as (q1 & q2 & Eq).
  exists (replicate (S (size (nodes (dagAt h dag)))) Main ++ replicate (length (q1 ++ [p])) Main).
  exists (mkRunState h (mkChan q2 (size (nodes (dagAt h dag))) false) NewDataSet Receiving
            ([] ++ (Starting <$> (q1 ++ [p]))) false).
  exists (length q1).
  split; [|split; [done|split; [done|split; [done|]]]].
  - rewrite exec_app, E1. cbn [mbind option_bind].
    rewrite Eq, (cons_middle p q1 q2), (app_assoc q1 [p] q2).
    apply Run_dispatches.
  - cbn [goroutines app]. rewrite fmap_app. apply list_lookup_middle. by rewrite length_fmap.
Qed.

(** On a graph built by the construction calls alone every node's task is
    nil: no task ever runs, whatever the schedule, and the run crashes as
    soon as a goroutine calls [Run] on its node's task. *)
Theorem Run_without_tasks rev range cs :
  fair range → clean cs = true → Z.of_nat (length cs) < 2 ^ 60 →
  let h := (build cs).1 in
  let dag := (build cs).2 in
  (∀ id p, nodes (dagAt h dag) !! id = Some p → task (nodeAt h p) = None)
  ∧ (∀ sched s, exec rev sched (Run_start range h dag) = Some s →
                store s = h ∧ data s = NewDataSet
                ∧ ∀ i g, goroutines s !! i = Some g → ∃ n, g = Starting n)
  ∧ (nodes (dagAt h dag) ≠ ∅ →
     ∃ sched s, exec rev sched (Run_start range h dag) = Some s ∧ crashed s = true).
Proof.
  intros Hfair Hclean Hsmall. cbv zeta.
  pose proof (Inv_build cs Hclean Hsmall) as HI.
  destruct (Bare_build cs Hclean Hsmall) as [Htask _ _ _ _].
  split; [|split].
  - intros id p Hp. apply Htask. by destruct (inv_key _ _ _ HI _ _ Hp).
  - intros sched s He.
    assert (Hu : untouched (build cs).1 (Run_start range (build cs).1 (build cs).2)).
    { unfold untouched. cbn [Run_start store data main readyChan buffer goroutines make_chan].
      split_and!; try done; [|apply Forall_nil_2..].
      intros rest [= <-]. apply Forall_forall. intros p Hp.
      apply list_elem_of_fmap in Hp as ([k q] & -> & Hin).
      apply (fair_elem range _ _ _ Hfair) in Hin.
      by destruct (inv_key _ _ _ HI _ _ Hin). }
    destruct (untouched_exec rev _ sched _ s Htask Hu He) as (Hs & Hd & _ & _ & Hg).
    split; [done|]. split; [done|]. intros i g Eg.
    destruct (proj1 (Forall_lookup _ _) Hg i g Eg) as (n & -> & _). eauto.
  - intros Hne.
    destruct (Inv_has_start _ _ _ HI Hne) as (id & p & Hp & Hin).
    destruct (Run_reaches rev range _ _ id p Hfair Hp Hin)
      as (sched & s & i & He & Hs & Hd & Hc & Hg).
    exists (sched ++ [Go i]).
    exists (mkRunState (store s) (readyChan s) (data s) (main s) (goroutines s) true).
    split; [|done]. rewrite exec_app, He. cbn [mbind option_bind exec].
    unfold step. rewrite Hc. unfold goroutine_step. rewrite Hg. cbn [mbind option_bind].
    rewrite Hs, (Htask p); [done|]. by destruct (inv_key _ _ _ HI _ _ Hp).
Qed.

(** ** What a successful [Validate] records *)

(** *** The initial node is left alone by everything but the loop over the
    nodes *)

Lemma initialNode_AddVertex dag id ops h d :
  initialNode (dagAt (AddVertex dag id ops h).1 d) = initialNode (dagAt h d).
Proof.
  destruct (decide (d = dag)) as [->|Hd]; [|by rewrite dagAt_AddVertex_other].
  rewrite AddVertex_unfold. cbn [fst]. by rewrite 2!dagAt_updDag_eq.
Qed.

Lemma initialNode_AddForwarder node child fwd h d :
  initialNode (dagAt (AddForwarder node child fwd h) d) = initialNode (dagAt h d).
Proof.
  unfold AddForwarder. destruct fwd; [|case_match];
    rewrite ?dagAt_updDag; repeat case_decide; subst; simpl;
    rewrite ?dagAt_updDag; repeat case_decide; subst; simpl;
    by rewrite ?dagAt_updNode.
Qed.

Lemma initialNode_flagEdge dag fromNode toNode h d :
  initialNode (dagAt (flagEdge dag fromNode toNode h) d) = initialNode (dagAt h d).
Proof.
  unfold flagEdge. case_match;
    rewrite ?dagAt_updDag; repeat case_decide; subst; simpl;
    rewrite ?dagAt_updDag; repeat case_decide; subst; simpl; done.
Qed.

Lemma initialNode_linkEdge dag fromNode toNode to h d :
  initialNode (dagAt (linkEdge dag fromNode toNode to h) d) = initialNode (dagAt h d).
Proof.
  unfold linkEdge.
  by rewrite initialNode_flagEdge, initialNode_AddForwarder, dagAt_countEdge,
    dagAt_updatePrev, dagAt_updateNext.
Qed.

Lemma initialNode_getOrAddVertex dag id h d :
  initialNode (dagAt (getOrAddVertex dag id h).1 d) = initialNode (dagAt h d).
Proof. unfold getOrAddVertex. case_match; [done|apply initialNode_AddVertex]. Qed.

Lemma initialNode_AddEdge dag from to h d :
  initialNode (dagAt (AddEdge dag from to h).1 d) = initialNode (dagAt h d).
Proof.
  destruct (AddEdge_cases dag from to h) as [E|(E & _)]; rewrite E; cbn [fst].
  - by rewrite !initialNode_getOrAddVertex.
  - by rewrite initialNode_linkEdge, !initialNode_getOrAddVertex.
Qed.

Lemma initialNode_joinExit dag endNodeId b h d :
  initialNode (dagAt (joinExit dag endNodeId () b h).1 d) = initialNode (dagAt h d).
Proof.
  unfold joinExit.
  pose proof (initialNode_AddEdge dag (Id (nodeAt h b)) endNodeId h d) as E.
  destruct (AddEdge dag (Id (nodeAt h b)) endNodeId h) as [h1 [err|]]; cbn [fst] in *.
  - done.
  - by rewrite initialNode_AddForwarder.
Qed.

Lemma initialNode_join dag endNodeId d l : ∀ h,
  initialNode (dagAt (forEach (joinExit dag endNodeId) l () h).1 d)
  = initialNode (dagAt h d).
Proof.
  induction l as [|b l IH]; intros h; cbn [forEach]; [done|].
  pose proof (initialNode_joinExit dag endNodeId b h d) as E.
  destruct (joinExit dag endNodeId () b h) as [h1 [[]|o]]; cbn [fst] in *.
  - by rewrite IH.
  - done.
Qed.

(** *** The loop over the nodes *)

Section bare_loop.
Context (range : RangeOrder) (Hfair : fair range).
Context (rec : dptr → Heap → Heap * Outcome) (dag : dptr).

(** One turn of the loop at a node without nested graphs that is not
    dynamic. *)
Lemma validateNode_bare c ends entry h :
  subDag (nodeAt h entry.2) = None →
  conditionalDags (nodeAt h entry.2) = ∅ →
  dynamic (nodeAt h entry.2) = false →
  let h1 := updNode entry.2
              (set_uniqueId (generateUniqueId h entry.2 (DagId (dagAt h dag)))) h in
  validateNode range rec dag (c, ends) entry h
  = (if indegree (nodeAt h entry.2) =? 0
     then updDag dag (set_initialNode (Some entry.2)) h1 else h1,
     inl (if indegree (nodeAt h entry.2) =? 0 then wrap64 (c + 1) else c,
          if outdegree (nodeAt h entry.2) =? 0 then ends ++ [entry.2] else ends)).
Proof.
  intros Hsub Hcond Hdyn h1. unfold validateNode.
  set (b := entry.2) in *. fold h1.
  assert (Hs1 : same_shape h h1) by apply same_shape_updNode_uniqueId.
  assert (Hd1 : ∀ p, dynamic (nodeAt h1 p) = dynamic (nodeAt h p)).
  { intros p. unfold h1. rewrite nodeAt_updNode. by case_decide; subst. }
  rewrite (shape_indegree h h1 Hs1 b).
  set (h2 := if indegree (nodeAt h b) =? 0
             then updDag dag (set_initialNode (Some b)) h1 else h1).
  assert (Hs2 : same_shape h h2).
  { unfold h2. case_match; [|done].
    eapply same_shape_trans; [exact Hs1|]. by apply same_shape_updDag. }
  assert (Hd2 : dynamic (nodeAt h2 b) = false).
  { unfold h2. case_match; by rewrite ?nodeAt_updDag, Hd1. }
  assert (E2 : (if indegree (nodeAt h b) =? 0
                then (updDag dag (set_initialNode (Some b)) h1, wrap64 (c + 1))
                else (h1, c))
               = (h2, if indegree (nodeAt h b) =? 0 then wrap64 (c + 1) else c)).
  { unfold h2. by case_match. }
  rewrite E2. clear E2.
  rewrite (shape_outdegree h h2 Hs2 b), (shape_subDag h h2 Hs2 b), Hsub.
  rewrite Hd2. cbn [andb].
  assert (E : range (∅ : gmap string dptr) = []) by apply (fair_empty range Hfair).
  rewrite (shape_conditionalDags h h2 Hs2 b), Hcond, E.
  done.
Qed.

(** The loop over nodes of that kind: the unique ids it assigns and the
    initial node it leaves. *)
Lemma validate_loop_records L : ∀ c ends h,
  (∀ e, e ∈ L → subDag (nodeAt h e.2) = None ∧ conditionalDags (nodeAt h e.2) = ∅
                ∧ dynamic (nodeAt h e.2) = false) →
  ∃ h' r,
    forEach (validateNode range rec dag) L (c, ends) h = (h', inl r)
    ∧ same_shape h h'
    ∧ (∀ p, uniqueId (nodeAt h' p)
            = if decide (p ∈ L.*2) then generateUniqueId h p (DagId (dagAt h dag))
              else uniqueId (nodeAt h p))
    ∧ (∀ p, index (nodeAt h' p) = index (nodeAt h p)
            ∧ dynamic (nodeAt h' p) = dynamic (nodeAt h p)
            ∧ task (nodeAt h' p) = task (nodeAt h p)
            ∧ forwarder (nodeAt h' p) = forwarder (nodeAt h p))
    ∧ initialNode (dagAt h' dag)
      = from_option Some (initialNode (dagAt h dag))
          (last (filter (λ p, indegree (nodeAt h p) = 0) L.*2)).
Proof.
  induction L as [|e L IH]; intros c ends h Hplain.
  - exists h, (c, ends). split; [done|]. split; [apply same_shape_refl|].
    split; [|done]. intros p. rewrite decide_False; [done|]. apply not_elem_of_nil.
  - destruct (Hplain e) as (Hsub & Hcond & Hdyn); [left|].
    pose proof (validateNode_bare c ends e h Hsub Hcond Hdyn) as E1. cbv zeta in E1.
    set (h0 := updNode e.2 (set_uniqueId (generateUniqueId h e.2 (DagId (dagAt h dag)))) h) in *.
    set (h1 := if indegree (nodeAt h e.2) =? 0
               then updDag dag (set_initialNode (Some e.2)) h0 else h0) in *.
    assert (Hn1 : ∀ p, nodeAt h1 p = nodeAt h0 p).
    { intros p. unfold h1. case_match; by rewrite ?nodeAt_updDag. }
    assert (Hs1 : same_shape h h1).
    { unfold h1. case_match; [|apply same_shape_updNode_uniqueId].
      eapply same_shape_trans; [apply same_shape_updNode_uniqueId|].
      by apply same_shape_updDag. }
    assert (Hf1 : ∀ p, index (nodeAt h1 p) = index (nodeAt h p)
                       ∧ dynamic (nodeAt h1 p) = dynamic (nodeAt h p)
                       ∧ task (nodeAt h1 p) = task (nodeAt h p)
                       ∧ forwarder (nodeAt h1 p) = forwarder (nodeAt h p)).
    { intros p. rewrite Hn1. unfold h0. rewrite nodeAt_updNode. by case_decide; subst. }
    destruct (IH (if indegree (nodeAt h e.2) =? 0 then wrap64 (c + 1) else c)
                 (if outdegree (nodeAt h e.2) =? 0 then ends ++ [e.2] else ends) h1)
      as (h2 & r & E2 & Hs2 & Hu2 & Hf2 & Hi2).
    { intros e' He'. rewrite (shape_subDag h h1 Hs1), (shape_conditionalDags h h1 Hs1).
      destruct (Hf1 e'.2) as (_ & -> & _). apply Hplain. by right. }
    exists h2, r. cbn [forEach]. rewrite E1. split; [done|].
    split; [by eapply same_shape_trans|]. split; [|split].
    + intros p. rewrite Hu2.
      assert (Eg : generateUniqueId h1 p (DagId (dagAt h1 dag))
                   = generateUniqueId h p (DagId (dagAt h dag))).
      { unfold generateUniqueId. destruct (Hf1 p) as (-> & _).
        by rewrite (shape_Id h h1 Hs1), (shape_DagId h h1 Hs1). }
      rewrite Eg. cbn [fmap list_fmap]. 
      destruct (decide (p ∈ L.*2)) as [Hin|Hnin].
      * rewrite decide_True; [done|]. by right.
      * rewrite Hn1. unfold h0. rewrite nodeAt_updNode.
        destruct (decide (p = e.2)) as [->|Hpe].
        -- rewrite decide_True; [done|]. left.
        -- rewrite decide_False; [done|]. by apply not_elem_of_cons.
    + intros p. destruct (Hf2 p) as (-> & -> & -> & ->). apply Hf1.
    + rewrite Hi2.
      rewrite (filter_same_shape h h1 indegree) by apply (shape_indegree h h1 Hs1).
      cbn [fmap list_fmap]. rewrite filter_cons.
      destruct (Z.eqb_spec (indegree (nodeAt h e.2)) 0) as [Ei|Ei].
      * rewrite decide_True by done. rewrite last_cons.
        unfold h1. rewrite dagAt_updDag_eq. cbn [initialNode set_initialNode].
        by repeat case_match.
      * rewrite decide_False by done.
        unfold h1, h0. by rewrite dagAt_updNode.
Qed.
End bare_loop.

Lemma initialNode_finishValidate dag c ends h :
  initialNode (dagAt (finishValidate dag c ends h).1 dag) = initialNode (dagAt h dag).
Proof.
  unfold finishValidate. destruct (1 <? c); [done|].
  destruct (1 <? length ends)%nat.
  - rewrite AddVertex_unfold.
    match goal with |- context [forEach ?b ?l tt ?h0] =>
      pose proof (initialNode_join dag ("end_" +:+ DagId (dagAt h dag)) dag l h0) as E;
      destruct (forEach b l tt h0) as [h2 [[]|o2]] end; cbn [fst] in *.
    + rewrite !dagAt_updDag_eq. cbn [initialNode set_validated set_endNode]. rewrite E.
      change (initialNode (dagAt (AddVertex dag ("end_" +:+ DagId (dagAt h dag))
                                    [BlankOperation] h).1 dag) = initialNode (dagAt h dag)).
      apply initialNode_AddVertex.
    + rewrite E.
      change (initialNode (dagAt (AddVertex dag ("end_" +:+ DagId (dagAt h dag))
                                    [BlankOperation] h).1 dag) = initialNode (dagAt h dag)).
      apply initialNode_AddVertex.
  - destruct ends; [done|]. cbn [fst]. by rewrite !dagAt_updDag_eq.
Qed.

(** A successful [Validate] on a graph built by clean calls: the initial
    node, the unique ids, and the end node. *)
Theorem Validate_records range cs fuel :
  fair range → clean cs = true → Z.of_nat (length cs) < 2 ^ 60 →
  let h := (build cs).1 in
  let dag := (build cs).2 in
  length (starts h dag) = 1%nat →
  ∃ h' s,
    Validate range (S fuel) dag h = (h', Returns None)
    ∧ starts h dag = [s]
    ∧ initialNode (dagAt h' dag) = Some s
    ∧ (∀ id p, nodes (dagAt h dag) !! id = Some p →
               nodes (dagAt h' dag) !! id = Some p
               ∧ Id (nodeAt h' p) = id
               ∧ uniqueId (nodeAt h' p)
                 = "0_" +:+ pretty (index (nodeAt h p)) +:+ "_" +:+ id)
    ∧ (∀ e, exits h dag = [e] →
            nodes (dagAt h' dag) = nodes (dagAt h dag)
            ∧ endNode (dagAt h' dag) = Some e)
    ∧ ((1 < length (exits h dag))%nat →
       ∃ E, endNode (dagAt h' dag) = Some E
            ∧ Id (nodeAt h' E) = "end_0"%string
            ∧ uniqueId (nodeAt h' E) = EmptyString).
Proof.
  intros Hfair Hclean Hsmall. cbv zeta. intros Hstart.
  destruct (Built_build cs Hclean Hsmall) as (seen & HB).
  set (h := (build cs).1) in *. set (dag := (build cs).2) in *.
  pose proof HB as [HI Hseen Hend Hid Hv].
  destruct (Bare_build cs Hclean Hsmall) as [_ Hstatic _ _ _]. fold h dag in Hstatic.
  assert (Hne : nodes (dagAt h dag) ≠ ∅).
  { intros He. unfold starts, vertices in Hstart.
    rewrite He, map_to_list_empty in Hstart. simpl in Hstart. lia. }
  assert (Hsize : (size (nodes (dagAt h dag)) =? 0)%nat = false).
  { apply Nat.eqb_neq. intros E. by apply map_size_empty_iff in E. }
  assert (Hplain : ∀ e, e ∈ range (nodes (dagAt h dag)) →
            subDag (nodeAt h e.2) = None ∧ conditionalDags (nodeAt h e.2) = ∅
            ∧ dynamic (nodeAt h e.2) = false).
  { intros [k p] Hin. apply (fair_elem range _ _ _ Hfair) in Hin.
    destruct (inv_key _ _ _ HI _ _ Hin) as [Ha _].
    destruct (inv_plain _ _ _ HI p Ha) as (_ & ? & ?).
    by destruct (Hstatic p Ha). }
  destruct (validate_loop_records range Hfair (Validate range fuel) dag
              (range (nodes (dagAt h dag))) 0 [] h Hplain)
    as (h1 & r & E1 & Hs1 & Hu1 & Hf1 & Hi1).
  destruct (validate_loop range Hfair (Validate range fuel) dag
              (range (nodes (dagAt h dag))) 0 [] h) as (h1' & E1' & _).
  { intros e He. destruct (Hplain e He) as (? & ? & _). done. }
  { lia. }
  { pose proof (Inv_vertices_length _ h dag HI) as Hlen.
    rewrite <- (range_vertices range Hfair), length_fmap in Hlen.
    match goal with |- 0 + Z.of_nat ?n < _ =>
      assert (n ≤ 3 * length cs)%nat by exact Hlen end. lia. }
  rewrite E1 in E1'. injection E1' as <- ->.
  rewrite Z.add_0_l in E1.
  rewrite (visited_starts_length range Hfair), Hstart in E1.
  fold (visited_exits range h dag) in E1.
  assert (EV : Validate range (S fuel) dag h
               = finishValidate dag (Z.of_nat 1) (visited_exits range h dag) h1).
  { cbn [Validate]. fold h dag. by rewrite Hv, Hsize, E1. }
  (* the one start *)
  destruct (starts h dag) as [|s [|]] eqn:Es; try done.
  match type of Hi1 with context [last ?l] => assert (Eready : l = [s]) end.
  { apply Permutation_singleton_r.
    pose proof (range_vertices range Hfair h dag) as Hrv.
    etrans; [apply (filter_Permutation _ _ _ Hrv)|].
    change (starts h dag ≡ₚ [s]). by rewrite Es. }
  rewrite Eready in Hi1. cbn [last from_option] in Hi1.
  (* the vertices keep their place and get their ids *)
  assert (Hids : ∀ id p, nodes (dagAt h dag) !! id = Some p →
            uniqueId (nodeAt h1 p) = "0_" +:+ pretty (index (nodeAt h p)) +:+ "_" +:+ id).
  { intros id p Hp. destruct (inv_key _ _ _ HI _ _ Hp) as [_ Eid].
    rewrite Hu1, decide_True.
    - unfold generateUniqueId. by rewrite Hid, Eid.
    - apply list_elem_of_fmap. exists (id, p). split; [done|].
      by apply (fair_elem range _ _ _ Hfair). }
  pose proof (visited_exits_perm range Hfair h dag) as Hperm.
  pose proof (exits_nonempty _ h dag HI Hne) as Hex.
  destruct (visited_exits_facts range Hfair (3 * length cs) seen h dag HB h1 Hs1) as (Hnodup & Hends & Hlen).
  destruct (visited_exits range h dag) as [|e [|e' ends]] eqn:Eex.
  - rewrite <- Hperm in Hex. simpl in Hex. lia.
  - (* one exit *)
    rewrite (finishValidate_single_exit dag (Z.of_nat 1) e h1) in EV by lia.
    eexists _, s. split; [exact EV|]. split; [done|].
    split; [by rewrite !dagAt_updDag_eq|].
    split; [|split].
    + intros id p Hp. rewrite !dagAt_updDag_eq, !nodeAt_updDag.
      cbn [nodes set_validated set_endNode].
      rewrite (shape_nodes h h1 Hs1), (shape_Id h h1 Hs1).
      split; [done|]. split; [by destruct (inv_key _ _ _ HI _ _ Hp)|by apply Hids].
    + intros e0 Ee0. rewrite !dagAt_updDag_eq. cbn [nodes endNode set_validated set_endNode].
      rewrite (shape_nodes h h1 Hs1). split; [done|].
      rewrite Ee0 in Hperm. apply Permutation_singleton_r in Hperm. congruence.
    + intros Hmany. rewrite <- Hperm in Hmany. simpl in Hmany. lia.
  - (* several exits *)
    destruct (finishValidate_join (3 * length cs) seen dag (Z.of_nat 1) (e :: e' :: ends) h1)
      as (h2 & HJ & E2); try done.
    { by apply (shape_Built h h1 Hs1). }
    { simpl. lia. }
    { lia. }
    pose proof (initialNode_finishValidate dag (Z.of_nat 1) (e :: e' :: ends) h1) as Hinit.
    rewrite E2 in Hinit, EV. cbn [fst] in Hinit.
    destruct HJ as [HI2 Hnodes Hend2 Hnext Htodo Hnodup2 Htied Hrest Hcore Huid].
    destruct (Hs1) as (Hc1 & _).
    assert (Hold : ∀ p, allocated h p →
              nodeAt (AddVertex dag "end_0" [BlankOperation] h1).1 p = nodeAt h1 p).
    { intros p Hp. rewrite nodeAt_AddVertex, decide_False; [done|].
      rewrite Hc1. unfold allocated in Hp. lia. }
    eexists _, s. split; [exact EV|]. split; [done|].
    split; [by rewrite Hinit|].
    split; [|split].
    + intros id p Hp. rewrite !dagAt_updDag_eq, !nodeAt_updDag.
      cbn [nodes set_validated set_endNode].
      destruct (inv_key _ _ _ HI _ _ Hp) as [Ha Eid].
      assert (Hp2 : nodes (dagAt h2 dag) !! id = Some p).
      { rewrite Hnodes, nodes_AddVertex, (shape_nodes h h1 Hs1).
        rewrite lookup_insert_ne; [done|]. intros <-. by rewrite Hend in Hp. }
      split; [done|]. split; [by destruct (inv_key _ _ _ HI2 _ _ Hp2)|].
      rewrite Huid, (Hold p Ha). by apply Hids.
    + intros e0 Ee0. rewrite Ee0 in Hperm. apply Permutation_length in Hperm.
      simpl in Hperm. lia.
    + intros _. exists (nodeCount h1). rewrite !dagAt_updDag_eq, !nodeAt_updDag.
      cbn [endNode set_validated set_endNode].
      split; [done|]. split; [by destruct (inv_key _ _ _ HI2 _ _ Hend2)|].
      rewrite Huid, nodeAt_AddVertex, decide_True; done.
Qed.

(** ** [GetNodes] *)

Lemma GetNodes_flat_loop rec h opt L : ∀ acc,
  (∀ e, e ∈ L → dynamic (nodeAt h e.2) = true ∨ subDag (nodeAt h e.2) = None) →
  fold_left (GetNodes_body rec h opt) L (Some acc)
  = Some (acc ++ (nodeIdFor h opt <$> L.*2)).
Proof.
  induction L as [|e L IH]; intros acc Hflat; cbn [fold_left fmap list_fmap].
  - by rewrite app_nil_r.
  - assert (E : GetNodes_body rec h opt (Some acc) e
                = Some (acc ++ [nodeIdFor h opt e.2])).
    { unfold GetNodes_body. simpl.
      destruct (Hflat e) as [Hd|Hs]; [left|by rewrite Hd|].
      rewrite Hs. by destruct (dynamic _). }
    rewrite E, IH.
    + by rewrite <- app_assoc.
    + intros e' He'. apply Hflat. by right.
Qed.

(** On a graph none of whose nodes holds a nested graph that is looked
    into, [GetNodes] returns one entry per vertex: its unique id, followed
    by [_] and the option when one is given. *)
Theorem GetNodes_flat range fuel h dag opt :
  fair range →
  (∀ id p, nodes (dagAt h dag) !! id = Some p →
           dynamic (nodeAt h p) = true ∨ subDag (nodeAt h p) = None) →
  ∃ l, GetNodes range (S fuel) h dag opt = Some l
       ∧ l ≡ₚ nodeIdFor h opt <$> vertices h dag
       ∧ length l = size (nodes (dagAt h dag)).
Proof.
  intros Hfair Hflat. exists (nodeIdFor h opt <$> (range (nodes (dagAt h dag))).*2).
  split; [|split].
  - cbn [GetNodes]. rewrite GetNodes_flat_loop; [done|].
    intros [k p] Hin. apply Hflat with k. by apply (fair_elem range _ _ _ Hfair).
  - unfold vertices. by rewrite (Hfair (nodes (dagAt h dag))).
  - rewrite !length_fmap, (Hfair (nodes (dagAt h dag))). apply length_map_to_list.
Qed.

(** ** [AddSubDag] *)

Lemma climbsTo_nesting h sub d l :
  nesting h d l →
  ∀ fuel, (length l ≤ fuel)%nat →
          climbsTo fuel h d sub = Some (bool_decide (sub ∈ l)).
Proof.
  induction 1 as [d Hroot|d pn l Hpn Hl IH]; intros fuel Hfuel.
  - destruct fuel as [|fuel]; [simpl in Hfuel; lia|]. simpl.
    destruct (Nat.eqb_spec d sub) as [->|Hne].
    + rewrite bool_decide_eq_true_2; [done|]. left.
    + rewrite Hroot, bool_decide_eq_false_2; [done|].
      rewrite list_elem_of_singleton. congruence.
  - destruct fuel as [|fuel]; [simpl in Hfuel; lia|]. simpl.
    destruct (Nat.eqb_spec d sub) as [->|Hne].
    + rewrite bool_decide_eq_true_2; [done|]. left.
    + rewrite Hpn, IH by (simpl in Hfuel; lia).
      f_equal. apply bool_decide_ext. rewrite elem_of_cons. intuition congruence.
Qed.

(** [AddSubDag] refuses exactly the graphs the node is nested in, and
    otherwise ties the node and the graph to each other. *)
Theorem AddSubDag_nesting fuel node sub h l :
  nesting h (parentDag (nodeAt h node)) l →
  (length l ≤ fuel)%nat →
  AddSubDag fuel node sub h
  = Some (if decide (sub ∈ l) then (h, Some ErrRecursiveDep)
          else (updDag sub (set_parentNode (Some node))
                  (updNode node (set_subDag (Some sub)) h), None)).
Proof.
  intros Hl Hfuel. unfold AddSubDag.
  rewrite (climbsTo_nesting h sub _ l Hl fuel Hfuel).
  by case_bool_decide; [rewrite decide_True|rewrite decide_False].
Qed.

(** What an accepted [AddSubDag] leaves behind. *)
Theorem AddSubDag_accepted fuel node sub h h' :
  AddSubDag fuel node sub h = Some (h', None) →
  sub ≠ parentDag (nodeAt h node)
  ∧ subDag (nodeAt h' node) = Some sub
  ∧ parentNode (dagAt h' sub) = Some node
  ∧ nodes (dagAt h' sub) = nodes (dagAt h sub)
  ∧ (∀ p, p ≠ node → nodeAt h' p = nodeAt h p)
  ∧ (∀ d, d ≠ sub → dagAt h' d = dagAt h d).
Proof.
  unfold AddSubDag. destruct (climbsTo fuel h _ sub) as [[|]|] eqn:E; try done.
  intros [= <-]. split.
  - intros ->. destruct fuel as [|fuel]; [done|]. simpl in E.
    by rewrite Nat.eqb_refl in E.
  - rewrite nodeAt_updDag, nodeAt_updNode_eq, dagAt_updDag_eq, dagAt_updNode.
    split; [done|]. split; [done|]. split; [done|]. split.
    + intros p Hp. by rewrite nodeAt_updDag, nodeAt_updNode_ne.
    + intros d Hd. by rewrite dagAt_updDag, decide_False, dagAt_updNode.
Qed.

(** ** The data set *)

(** [Get] after [Set]: the value just set under its key, and whatever was
    there under any other; a key never set is reported absent. *)
Theorem DataSet_Get_Set key key' data ds :
  DataSet_Get key' (DataSet_Set key data ds)
  = (if decide (key' = key) then (data, true) else DataSet_Get key' ds)
  ∧ (DataSet_Get key NewDataSet).2 = false
  ∧ DataSet_Set key data (DataSet_Set key key' ds) = DataSet_Set key data ds.
Proof.
  unfold DataSet_Get, DataSet_Set, NewDataSet. split; [|split].
  - rewrite (lookup_insert (M := gmap string) (A := Value) ds).
    destruct (decide (key' = key)) as [->|Hne];
      [by rewrite decide_True|by rewrite decide_False].
  - reflexivity.
  - apply (insert_insert_eq (M := gmap string) (A := Value) ds).
Qed.

(** ** The order in which [Run] starts the nodes *)

(** *** Lists *)

Lemma ordered_snoc h T n :
  ordered h T → (∀ p, p ∈ dependsOn (nodeAt h n) → p ∈ T) → ordered h (T ++ [n]).
Proof.
  intros HT Hn i q Hi p Hp.
  destruct (decide (i < length T)%nat) as [Hlt|Hge].
  - rewrite lookup_app_l in Hi by done.
    rewrite take_app_le by lia. by apply (HT i q).
  - rewrite lookup_app_r in Hi by lia.
    destruct (i - length T)%nat as [|k] eqn:Ek; [|done]. injection Hi as <-.
    rewrite take_app_ge by lia. apply elem_of_app. left. by apply Hn.
Qed.

Lemma take_suffix {A} (pre rest : list A) :
  take (length (pre ++ rest) - length rest) (pre ++ rest) = pre.
Proof.
  rewrite length_app. replace (length pre + length rest - length rest)%nat
    with (length pre) by lia.
  by rewrite take_app_length.
Qed.

Lemma filter_agree {A} (P Q : A → Prop) `{∀ x, Decision (P x)}
    `{∀ x, Decision (Q x)} (l : list A) :
  (∀ x, x ∈ l → P x ↔ Q x) → filter P l = filter Q l.
Proof.
  induction l as [|x l IH]; intros Hiff; [done|]. rewrite !filter_cons.
  assert (Hx : P x ↔ Q x) by (apply Hiff; left).
  rewrite IH by (intros y Hy; apply Hiff; by right).
  destruct (decide (P x)), (decide (Q x)); tauto || done.
Qed.

(** Withdrawing one element from what a filter lets through. *)
Lemma filter_length_remove `{EqDecision A} (P Q : A → Prop) `{∀ x, Decision (P x)}
    `{∀ x, Decision (Q x)} (l : list A) (a : A) :
  NoDup l → a ∈ l → P a → ¬ Q a → (∀ x, x ≠ a → Q x ↔ P x) →
  length (filter P l) = S (length (filter Q l)).
Proof.
  intros Hnd Ha HP HQ Hiff. induction l as [|x l IH]; [by apply elem_of_nil in Ha|].
  apply NoDup_cons in Hnd as [Hx Hnd]. rewrite !filter_cons.
  destruct (decide (x = a)) as [->|Hxa].
  - rewrite decide_True, decide_False by done. simpl. f_equal. f_equal.
    apply filter_agree. intros y Hy. symmetry. apply Hiff. by intros ->.
  - apply elem_of_cons in Ha as [->|Ha]; [done|].
    specialize (IH Hnd Ha). specialize (Hiff x Hxa).
    destruct (decide (P x)), (decide (Q x)); simpl; try tauto; lia.
Qed.

Lemma insert_middle {A} (l1 l2 : list A) (x y : A) :
  <[length l1 := y]> (l1 ++ x :: l2) = l1 ++ y :: l2.
Proof. induction l1 as [|a l1 IH]; simpl; [done|]. by rewrite IH. Qed.

Lemma lookup_fst_split (zs : list (Goroutine * nptr)) i g :
  zs.*1 !! i = Some g →
  ∃ zs1 n zs2, zs = zs1 ++ (g, n) :: zs2 ∧ i = length zs1.
Proof.
  rewrite list_lookup_fmap. intros Hi.
  destruct (zs !! i) as [[g' n]|] eqn:E; [|done]. injection Hi as <-.
  apply list_elem_of_split_length in E as (zs1 & zs2 & -> & ->). eauto.
Qed.

(** *** The released nodes, piece by piece *)

Lemma released_middle h s zs1 g n zs2 :
  released h s (zs1 ++ (g, n) :: zs2)
  ≡ₚ n :: waits g ++ released h s (zs1 ++ zs2).
Proof.
  unfold released. rewrite !fmap_app, !fmap_cons, !bind_app, bind_cons. cbn [fst snd].
  rewrite <- !app_assoc, <- app_comm_cons, <- Permutation_middle.
  apply Permutation_cons; [done|].
  rewrite (Permutation_app_swap_app (zs1.*1 ≫= waits) (waits g)).
  rewrite (Permutation_app_swap_app (pending h (main s)) (waits g)).
  rewrite (Permutation_app_swap_app (buffer (readyChan s)) (waits g)).
  rewrite (Permutation_app_swap_app (zs2.*2) (waits g)).
  by rewrite (Permutation_app_swap_app (zs1.*2) (waits g)).
Qed.

Lemma released_snoc h s zs n :
  released h s (zs ++ [(Starting n, n)]) ≡ₚ n :: released h s zs.
Proof.
  rewrite released_middle. by rewrite app_nil_r.
Qed.

(** The same goroutines in a state that differs in the channel only. *)
Lemma released_buffer h s s' zs :
  main s' = main s →
  released h s' zs
  = zs.*2 ++ buffer (readyChan s') ++ pending h (main s) ++ (zs.*1 ≫= waits).
Proof. intros E. unfold released. by rewrite E. Qed.

(** *** Who has released whom *)

Lemma served_app kids zs1 zs2 p q :
  served kids (zs1 ++ zs2) p q ↔ served kids zs1 p q ∨ served kids zs2 p q.
Proof. unfold served. apply Exists_app. Qed.

Lemma served_cons kids z zs p q :
  served kids (z :: zs) p q ↔ (z.2 = p ∧ q ∈ done_of kids z) ∨ served kids zs p q.
Proof. unfold served. apply Exists_cons. Qed.

Lemma served_middle kids zs1 z zs2 p q :
  served kids (zs1 ++ z :: zs2) p q
  ↔ (z.2 = p ∧ q ∈ done_of kids z) ∨ served kids (zs1 ++ zs2) p q.
Proof. rewrite !served_app, served_cons. tauto. Qed.

Lemma served_node kids zs p q : served kids zs p q → p ∈ zs.*2.
Proof.
  unfold served. rewrite Exists_exists. intros ([g n] & Hz & <- & _).
  apply list_elem_of_fmap. by exists (g, n).
Qed.

Lemma filter_all {A} (P : A → Prop) `{∀ x, Decision (P x)} (l : list A) :
  (∀ x, x ∈ l → P x) → filter P l = l.
Proof.
  induction l as [|x l IH]; intros Hall; [done|].
  rewrite filter_cons_True by (apply Hall; left).
  f_equal. apply IH. intros y Hy. apply Hall. by right.
Qed.

Lemma filter_lets_none {A} (P : A → Prop) `{∀ x, Decision (P x)} (l : list A) :
  length (filter P l) = 0%nat → ∀ x, x ∈ l → ¬ P x.
Proof.
  intros E x Hx HP. apply nil_length_inv in E.
  assert (Hin : x ∈ filter P l) by by apply list_elem_of_filter.
  rewrite E in Hin. by apply elem_of_nil in Hin.
Qed.

Lemma released_split h s zs1 g n zs2 :
  released h s (zs1 ++ (g, n) :: zs2)
  ≡ₚ (buffer (readyChan s) ++ waits g)
     ++ n :: (zs1 ++ zs2).*2 ++ pending h (main s) ++ ((zs1 ++ zs2).*1 ≫= waits).
Proof.
  rewrite released_middle. unfold released.
  rewrite <- Permutation_middle. apply Permutation_cons; [done|].
  rewrite <- (app_assoc (buffer (readyChan s))).
  rewrite (Permutation_app_swap_app (buffer (readyChan s)) (waits g)).
  apply Permutation_app_head, Permutation_app_swap_app.
Qed.

Lemma set_indegree_twice v w n : set_indegree v (set_indegree w n) = set_indegree v n.
Proof. by destruct n. Qed.

Lemma set_indegree_same n : set_indegree (indegree n) n = n.
Proof. by destruct n. Qed.

Section running.
Variables (rev : Revision) (h : Heap).
Hypothesis HL : Mirrored h.
Local Abbreviation kids := (RunNodeDone_children rev h).

Lemma kids_children n q : q ∈ kids n → q ∈ children (nodeAt h n).
Proof. destruct rev; simpl; [done|]. by intros ?%elem_of_nil. Qed.

Lemma kids_NoDup n : allocated h n → NoDup (kids n).
Proof. destruct rev; simpl; [apply (mirrored_children _ HL)|constructor]. Qed.

Lemma kids_store s zs T n :
  Running rev h s zs T → RunNodeDone_children rev (store s) n = kids n.
Proof.
  intros HR. destruct rev; simpl; [|done]. by rewrite (run_store _ _ _ _ _ HR n).
Qed.

Lemma task_store s zs T n :
  Running rev h s zs T → task (nodeAt (store s) n) = task (nodeAt h n).
Proof. intros HR. by rewrite (run_store _ _ _ _ _ HR n). Qed.

Lemma released_nodes s zs : NoDup (released h s zs) → NoDup zs.*2.
Proof. unfold released. by intros [? _]%NoDup_app. Qed.

Lemma node_released s zs z : z ∈ zs → z.2 ∈ released h s zs.
Proof.
  intros Hz. unfold released. apply elem_of_app. left.
  apply list_elem_of_fmap. by exists z.
Qed.

Lemma alone s zs1 g n zs2 q :
  NoDup (released h s (zs1 ++ (g, n) :: zs2)) → ¬ served kids (zs1 ++ zs2) n q.
Proof.
  intros Hnd%released_nodes Hs%served_node.
  rewrite fmap_app, fmap_cons in Hnd. rewrite fmap_app in Hs.
  apply NoDup_app in Hnd as (_ & H1 & [H2 _]%NoDup_cons).
  apply elem_of_app in Hs as [Hs|Hs]; [|done].
  apply (H1 n Hs). left.
Qed.

(** A node whose task is about to be called comes after all the nodes it
    depends on, and has not been called before. *)
Lemma Running_call s zs T i n :
  Running rev h s zs T → goroutines s !! i = Some (Starting n) →
  NoDup (T ++ [n]) ∧ ordered h (T ++ [n]).
Proof.
  intros HR Hi. rewrite (run_goroutines _ _ _ _ _ HR) in Hi.
  apply lookup_fst_split in Hi as (zs1 & n' & zs2 & Ezs & _).
  assert (Hin : (Starting n, n') ∈ zs) by (rewrite Ezs; apply elem_of_app; right; left).
  assert (n = n') as <-.
  { pose proof (run_proper _ _ _ _ _ HR) as Hp. rewrite Forall_forall in Hp.
    exact (Hp _ Hin). }
  pose proof (node_released s zs _ Hin) as Hrel. cbn [snd] in Hrel.
  pose proof (run_allocated _ _ _ _ _ HR n Hrel) as Hn.
  split.
  - apply NoDup_app. split; [exact (run_nodup _ _ _ _ _ HR)|]. split; [|apply NoDup_singleton].
    intros x Hx ->%list_elem_of_singleton.
    destruct (run_called _ _ _ _ _ HR n Hx) as ([g m] & Hz & Em & Hb). cbn [fst snd] in *.
    subst m. pose proof (run_released _ _ _ _ _ HR) as Hnd%released_nodes.
    rewrite Ezs in Hz, Hnd. rewrite fmap_app, fmap_cons in Hnd.
    apply NoDup_app in Hnd as (_ & H1 & [H2 _]%NoDup_cons). cbn [snd] in *.
    apply elem_of_app in Hz as [Hz|Hz].
    + apply (H1 n); [|left]. apply list_elem_of_fmap. by exists (g, n).
    + apply elem_of_cons in Hz as [Hz|Hz]; [by injection Hz as ->|].
      apply H2. apply list_elem_of_fmap. by exists (g, n).
  - apply ordered_snoc; [exact (run_ordered _ _ _ _ _ HR)|].
    intros p Hp.
    pose proof (run_count _ _ _ _ _ HR n Hn) as Hc.
    rewrite (run_ready _ _ _ _ _ HR n Hrel) in Hc.
    assert (Hs : served kids zs p n).
    { destruct (decide (served kids zs p n)) as [|Hno]; [done|].
      exfalso.
      apply (filter_lets_none (λ p, ¬ served kids zs p n) (dependsOn (nodeAt h n))
               ltac:(lia) p Hp Hno). }
    unfold served in Hs. apply Exists_exists in Hs as (z & Hz & <- & Hd).
    apply (run_begun _ _ _ _ _ HR z Hz).
    destruct z as [[] m]; try done. by apply elem_of_nil in Hd.
Qed.

Lemma served_ext zs' zs q (l : list nptr) :
  (∀ p, served kids zs' p q ↔ served kids zs p q) →
  filter (λ p, ¬ served kids zs' p q) l = filter (λ p, ¬ served kids zs p q) l.
Proof. intros Hiff. apply filter_agree. intros p _. by rewrite Hiff. Qed.

(** The caller's thread moves and starts no goroutine. *)
Lemma Running_frame s s' zs T :
  Running rev h s zs T →
  store s' = store s → goroutines s' = goroutines s →
  released h s' zs ≡ₚ released h s zs →
  (∀ rest', main s' = Enqueuing rest' → ∃ rest, main s = Enqueuing rest) →
  Running rev h s' zs T.
Proof.
  intros [Hst Hgo Hpr Hnd Hal Hfi Hco Hre Hbe Hca HT Hor] Es Eg Hrel Hm.
  split; rewrite ?Es, ?Eg; try done.
  - by rewrite Hrel.
  - intros q. rewrite Hrel. auto.
  - intros rest' [rest E]%Hm. eauto.
  - intros q. rewrite Hrel. auto.
Qed.

(** The caller's thread takes a node from the channel and starts its
    goroutine. *)
Lemma Running_spawn s zs T n q :
  Running rev h s zs T → main s = Receiving → buffer (readyChan s) = n :: q →
  Running rev h
    (mkRunState (store s) (mkChan q (capacity (readyChan s)) (closed (readyChan s)))
       (data s) Receiving (goroutines s ++ [Starting n]) (crashed s))
    (zs ++ [(Starting n, n)]) T.
Proof.
  intros [Hst Hgo Hpr Hnd Hal Hfi Hco Hre Hbe Hca HT Hor] Em Eb.
  assert (Hrel : released h
            (mkRunState (store s) (mkChan q (capacity (readyChan s)) (closed (readyChan s)))
               (data s) Receiving (goroutines s ++ [Starting n]) (crashed s))
            (zs ++ [(Starting n, n)]) ≡ₚ released h s zs).
  { rewrite released_snoc. unfold released. cbn [readyChan buffer main].
    rewrite Em, Eb. rewrite <- app_comm_cons. apply Permutation_middle. }
  assert (Hsv : ∀ p q, served kids (zs ++ [(Starting n, n)]) p q ↔ served kids zs p q).
  { intros p x. rewrite served_app, served_cons. unfold done_of. cbn [fst snd].
    unfold served at 2. rewrite Exists_nil. rewrite elem_of_nil. tauto. }
  split; cbn [store goroutines main]; try done.
  - by rewrite Hgo, fmap_app.
  - apply Forall_app. split; [done|]. by apply Forall_singleton.
  - by rewrite Hrel.
  - intros x. rewrite Hrel. auto.
  - intros x Hx. rewrite (served_ext (zs ++ [(Starting n, n)]) zs) by (intros; apply Hsv). auto.
  - intros x. rewrite Hrel. auto.
  - intros z [Hz|Hz]%elem_of_app; [auto|].
    apply list_elem_of_singleton in Hz as ->. done.
  - intros x Hx. destruct (Hca x Hx) as (z & Hz & E & Hb). exists z.
    split; [|done]. apply elem_of_app. by left.
Qed.

(** A goroutine moves on without touching the store or releasing a child. *)
Lemma Running_replace s s' zs1 g g' n zs2 T T' :
  Running rev h s (zs1 ++ (g, n) :: zs2) T →
  store s' = store s → main s' = main s →
  goroutines s' = <[length zs1 := g']> (goroutines s) →
  proper kids (g', n) → done_of kids (g', n) = done_of kids (g, n) →
  buffer (readyChan s') ++ waits g' ≡ₚ buffer (readyChan s) ++ waits g →
  (begun g = true → begun g' = true) →
  (begun g' = true → n ∈ T') →
  (∀ x, x ∈ T → x ∈ T') →
  (∀ x, x ∈ T' → x ∈ T ∨ x = n ∧ begun g' = true) →
  NoDup T' → ordered h T' →
  Running rev h s' (zs1 ++ (g', n) :: zs2) T'.
Proof.
  intros [Hst Hgo Hpr Hnd Hal Hfi Hco Hre Hbe Hca HT Hor] Es Em Eg Hp Hd Hb Hgg HnT Hsub Hsup
    HT' Hor'.
  assert (Hrel : released h s' (zs1 ++ (g', n) :: zs2)
                 ≡ₚ released h s (zs1 ++ (g, n) :: zs2)).
  { rewrite !released_split. by rewrite Em, Hb. }
  assert (Hsv : ∀ p q, served kids (zs1 ++ (g', n) :: zs2) p q
                       ↔ served kids (zs1 ++ (g, n) :: zs2) p q).
  { intros p q. rewrite !served_middle. cbn [snd]. by rewrite Hd. }
  split; rewrite ?Es; try done.
  - rewrite Eg, Hgo, !fmap_app, !fmap_cons. cbn [fst].
    rewrite <- (length_fmap fst zs1). apply insert_middle.
  - apply Forall_app in Hpr as (H1 & [_ H2]%Forall_cons).
    apply Forall_app. split; [done|]. by apply Forall_cons.
  - by rewrite Hrel.
  - intros q. rewrite Hrel. auto.
  - intros rest. rewrite Em. intros [E _]%Hfi. by destruct zs1.
  - intros q Hq. rewrite (served_ext _ (zs1 ++ (g, n) :: zs2)) by (intros; apply Hsv). auto.
  - intros q. rewrite Hrel. auto.
  - intros z [Hz|Hz]%elem_of_app.
    + intros ?. apply Hsub, Hbe; [|done]. apply elem_of_app. by left.
    + apply elem_of_cons in Hz as [->|Hz]; [done|].
      intros ?. apply Hsub, Hbe; [|done]. apply elem_of_app. right. by right.
  - intros x [Hx|[-> Hx]]%Hsup.
    + destruct (Hca x Hx) as (z & Hz & E & Hbz).
      apply elem_of_app in Hz as [Hz|Hz].
      * exists z. split; [|done]. apply elem_of_app. by left.
      * apply elem_of_cons in Hz as [->|Hz].
        -- exists (g', n). split; [apply elem_of_app; right; left|]. split; [done|].
           by apply Hgg.
        -- exists z. split; [|done]. apply elem_of_app. right. by right.
    + exists (g', n). split; [apply elem_of_app; right; left|]. done.
Qed.

(** A goroutine in [RunNodeDone] decrements the indegree of the next child
    and finds it ready or not. *)
Lemma Running_release s zs1 n err c rest zs2 T :
  Running rev h s (zs1 ++ (Finishing n err (c :: rest), n) :: zs2) T →
  let hs := updNode c (λ m, set_indegree (int_decr (indegree m)) m) (store s) in
  let g := if indegree (nodeAt hs c) =? 0
           then Sending n err c rest else Finishing n err rest in
  Running rev h
    (mkRunState hs (readyChan s) (data s) (main s)
       (<[length zs1 := g]> (goroutines s)) (crashed s))
    (zs1 ++ (g, n) :: zs2) T.
Proof.
  intros HR hs g.
  pose proof HR as [Hst Hgo Hpr Hnd Hal Hfi Hco Hre Hbe Hca HT Hor].
  set (zs := zs1 ++ (Finishing n err (c :: rest), n) :: zs2) in *.
  assert (Hz : (Finishing n err (c :: rest), n) ∈ zs)
    by (apply elem_of_app; right; left).
  assert (Hn : allocated h n) by apply (Hal n (node_released s zs _ Hz)).
  assert (Hsuf : (c :: rest) `suffix_of` kids n).
  { rewrite Forall_forall in Hpr. by destruct (Hpr _ Hz) as [_ ?]. }
  destruct Hsuf as [pre Ek].
  assert (Hcn : c ∈ children (nodeAt h n)).
  { apply kids_children. rewrite Ek. apply elem_of_app. right. left. }
  destruct (mirrored_child _ HL n c Hn Hcn) as [Hc Hnc].
  assert (Hpre : c ∉ pre).
  { pose proof (kids_NoDup n Hn) as Hk. rewrite Ek in Hk.
    apply NoDup_app in Hk as (_ & Hk & _). intros Hin. apply (Hk c Hin). left. }
  assert (Eold : done_of kids (Finishing n err (c :: rest), n) = pre).
  { unfold done_of. cbn [fst snd]. rewrite Ek. apply take_suffix. }
  assert (Enew : done_of kids (g, n) = pre ++ [c]).
  { assert (E : take (length (kids n) - length rest) (kids n) = pre ++ [c]).
    { rewrite Ek, (cons_middle c pre rest), app_assoc. apply take_suffix. }
    unfold g, done_of. by destruct (_ =? 0). }
  assert (Sold : ∀ p q, served kids zs p q
                        ↔ (n = p ∧ q ∈ pre) ∨ served kids (zs1 ++ zs2) p q).
  { intros p q. unfold zs. rewrite served_middle. cbn [snd]. by rewrite Eold. }
  assert (Snew : ∀ p q, served kids (zs1 ++ (g, n) :: zs2) p q
                        ↔ (n = p ∧ (q ∈ pre ∨ q = c)) ∨ served kids (zs1 ++ zs2) p q).
  { intros p q. rewrite served_middle. cbn [snd].
    by rewrite Enew, elem_of_app, list_elem_of_singleton. }
  assert (Hnot : ¬ served kids zs n c).
  { rewrite Sold. intros [[_ ?]|Hs]; [done|]. by apply (alone s zs1 _ n zs2 c Hnd). }
  assert (Hlen : length (filter (λ p, ¬ served kids zs p c) (dependsOn (nodeAt h c)))
                 = S (length (filter (λ p, ¬ served kids (zs1 ++ (g, n) :: zs2) p c)
                                (dependsOn (nodeAt h c))))).
  { apply (filter_length_remove _ _ _ n); [by apply HL|done|done| |].
    - intros Hno. apply Hno. apply Snew. left. auto.
    - intros p Hp. rewrite Snew, Sold. split; intros Hx Hy; apply Hx.
      + destruct Hy as [[? _]|?]; [done|by right].
      + destruct Hy as [[? _]|?]; [done|by right]. }
  assert (Hdec : indegree (nodeAt hs c)
                 = Z.of_nat (length (filter (λ p, ¬ served kids (zs1 ++ (g, n) :: zs2) p c)
                                       (dependsOn (nodeAt h c))))).
  { unfold hs. rewrite nodeAt_updNode_eq. cbn [indegree set_indegree].
    rewrite (Hco c Hc), Hlen. unfold int_decr.
    destruct (mirrored_indegree _ HL c Hc) as [_ Hb].
    pose proof (length_filter (λ p, ¬ served kids zs p c) (dependsOn (nodeAt h c))) as Hle.
    rewrite Hlen in Hle. rewrite wrap64_small by lia. lia. }
  assert (Hother : ∀ q, q ≠ c → nodeAt hs q = nodeAt (store s) q).
  { intros q Hq. unfold hs. by rewrite nodeAt_updNode_ne. }
  assert (Hout : c ∉ released h s zs).
  { intros Hin. pose proof (Hre c Hin) as E0. rewrite (Hco c Hc), Hlen in E0. lia. }
  assert (Hrel : released h
            (mkRunState hs (readyChan s) (data s) (main s)
               (<[length zs1 := g]> (goroutines s)) (crashed s))
            (zs1 ++ (g, n) :: zs2) ≡ₚ waits g ++ released h s zs).
  { unfold zs. rewrite !released_middle. cbn [waits app].
    rewrite <- Permutation_middle. done. }
  assert (Hw : ∀ q, q ∈ waits g → q = c ∧ indegree (nodeAt hs c) = 0).
  { intros q. unfold g. destruct (Z.eqb_spec (indegree (nodeAt hs c)) 0) as [E|E];
      cbn [waits]; [|by intros ?%elem_of_nil].
    by intros ->%list_elem_of_singleton. }
  split; cbn [store goroutines main].
  - intros p. destruct (decide (p = c)) as [->|Hp].
    + unfold hs. rewrite nodeAt_updNode_eq. cbn [indegree set_indegree].
      rewrite (Hst c) at 2. by rewrite set_indegree_twice.
    + rewrite (Hother p Hp). apply Hst.
  - rewrite Hgo. unfold zs. rewrite !fmap_app, !fmap_cons. cbn [fst].
    rewrite <- (length_fmap fst zs1). apply insert_middle.
  - apply Forall_app in Hpr as (H1 & [_ H2]%Forall_cons).
    apply Forall_app. split; [done|]. apply Forall_cons. split; [|done].
    unfold g, proper. destruct (_ =? 0); cbn [fst snd].
    + split; [done|]. by exists pre.
    + split; [done|]. exists (pre ++ [c]). by rewrite <- app_assoc.
  - rewrite Hrel. apply NoDup_app. split; [|split; [|done]].
    + unfold g. destruct (_ =? 0); cbn [waits]; [apply NoDup_singleton|constructor].
    + intros q [-> _]%Hw. done.
  - intros q. rewrite Hrel. intros [[-> _]%Hw|Hq]%elem_of_app; [done|]. by apply Hal.
  - intros rest' [E _]%Hfi. unfold zs in E. by destruct zs1.
  - intros q Hq. destruct (decide (q = c)) as [->|Hqc]; [done|].
    rewrite (Hother q Hqc), (Hco q Hq). f_equal. f_equal. symmetry.
    apply served_ext. intros p. rewrite Snew, Sold. intuition congruence.
  - intros q. rewrite Hrel. intros [[-> E]%Hw|Hq]%elem_of_app; [done|].
    assert (q ≠ c) by (by intros ->). rewrite Hother by done. by apply Hre.
  - intros z [Hz'|Hz']%elem_of_app.
    + intros ?. apply Hbe; [|done]. apply elem_of_app. by left.
    + apply elem_of_cons in Hz' as [->|Hz'].
      * intros _. by apply (Hbe _ Hz).
      * intros ?. apply Hbe; [|done]. apply elem_of_app. right. by right.
  - intros x Hx. destruct (Hca x Hx) as (z & Hz' & E & Hbz).
    apply elem_of_app in Hz' as [Hz'|Hz'].
    + exists z. split; [|done]. apply elem_of_app. by left.
    + apply elem_of_cons in Hz' as [->|Hz'].
      * exists (g, n). split; [apply elem_of_app; right; left|]. split; [done|].
        unfold g. by destruct (_ =? 0).
      * exists z. split; [|done]. apply elem_of_app. right. by right.
  - done.
  - done.
Qed.

(** One step of the run keeps the invariant, and the task it calls, if
    any, is called in order. *)
Lemma Running_step s zs T c s' :
  Running rev h s zs T → step rev c s = Some s' →
  NoDup (T ++ option_list (calls c s))
  ∧ ordered h (T ++ option_list (calls c s))
  ∧ (crashed s' = false →
     ∃ zs', Running rev h s' zs' (T ++ option_list (calls c s))).
Proof.
  intros HR. unfold step. destruct (crashed s) eqn:Ecr; [done|].
  destruct c as [|i].
  - cbn [calls option_list]. rewrite app_nil_r.
    intros Hs. split; [exact (run_nodup _ _ _ _ _ HR)|].
    split; [exact (run_ordered _ _ _ _ _ HR)|]. intros _.
    unfold main_step in Hs. destruct (main s) as [[|node rest]| |] eqn:Em; [| | |done].
    + injection Hs as <-. exists zs. apply (Running_frame s); [done|done|done| |done].
      unfold released. cbn [main readyChan]. by rewrite Em.
    + destruct (run_first _ _ _ _ _ HR _ Em) as [-> Eh].
      exists []. rewrite Eh in Hs.
      destruct (Z.eqb_spec (indegree (nodeAt h node)) 0) as [E0|E0].
      * unfold send in Hs. destruct (_ <? _)%nat; [|done].
        cbn [mbind option_bind] in Hs. injection Hs as <-.
        apply (Running_frame s); [done|done|done| |eauto].
        unfold released. cbn [main readyChan buffer pending]. rewrite Em. cbn [pending].
        rewrite filter_cons, decide_True by done. by rewrite <- app_assoc.
      * injection Hs as <-. apply (Running_frame s); [done|done|done| |eauto].
        unfold released. cbn [main readyChan buffer pending]. rewrite Em. cbn [pending].
        by rewrite filter_cons, decide_False by done.
    + destruct (buffer (readyChan s)) as [|n q] eqn:Eb.
      * destruct (closed (readyChan s)); [|done]. injection Hs as <-.
        exists zs. apply (Running_frame s); [done|done|done| |done].
        unfold released. cbn [main readyChan]. by rewrite Em.
      * injection Hs as <-. exists (zs ++ [(Starting n, n)]). by apply Running_spawn.
  - unfold goroutine_step. cbn [calls]. destruct (goroutines s !! i) as [g|] eqn:Ei; [|done].
    cbn [mbind option_bind].
    pose proof Ei as Ei'. rewrite (run_goroutines _ _ _ _ _ HR) in Ei'.
    apply lookup_fst_split in Ei' as (zs1 & n & zs2 & Ezs & ->).
    assert (Hpr : proper kids (g, n)).
    { pose proof (run_proper _ _ _ _ _ HR) as Hp. rewrite Forall_forall in Hp.
      apply Hp. rewrite Ezs. apply elem_of_app. right. left. }
    subst zs. destruct g as [node|node err [|child rest]|node err child rest|].
    + cbn [option_list]. destruct (Running_call s _ T _ node HR Ei) as [HT' Hor'].
      intros Hs. split; [done|]. split; [done|]. cbn in Hpr. subst n.
      rewrite (task_store s _ T node HR) in Hs.
      destruct (task (nodeAt h node)) as [t|]; [|by injection Hs as <-].
      destruct (taskRun t (data s)) as [ds err]. intros _. injection Hs as <-.
      exists (zs1 ++ (Finishing node err (kids node), node) :: zs2).
      rewrite (kids_store s _ T node HR).
      assert (done_of kids (Finishing node err (kids node), node)
              = done_of kids (Starting node, node)).
      { unfold done_of. cbn [fst snd]. by rewrite Nat.sub_diag. }
      assert (begun (Finishing node err (kids node)) = true → node ∈ T ++ [node]).
      { intros _. apply elem_of_app. right. left. }
      assert (∀ x, x ∈ T → x ∈ T ++ [node]).
      { intros x Hx. apply elem_of_app. by left. }
      assert (∀ x, x ∈ T ++ [node]
                   → x ∈ T ∨ x = node ∧ begun (Finishing node err (kids node)) = true).
      { intros x [Hx| ->%list_elem_of_singleton]%elem_of_app; auto. }
      by apply (Running_replace s _ zs1 (Starting node) _ node zs2 T).
    + cbn [option_list]. rewrite app_nil_r. intros Hs.
      pose proof (run_nodup _ _ _ _ _ HR) as HT.
      pose proof (run_ordered _ _ _ _ _ HR) as Hor.
      split; [done|]. split; [done|]. intros _. injection Hs as <-.
      exists (zs1 ++ (Exited, n) :: zs2).
      assert (done_of kids (Exited, n) = done_of kids (Finishing node err [], n)).
      { unfold done_of. cbn [fst snd length]. by rewrite Nat.sub_0_r, firstn_all. }
      assert (begun Exited = true → n ∈ T).
      { intros _. apply (run_begun _ _ _ _ _ HR (Finishing node err [], n)); [|done].
        apply elem_of_app. right. left. }
      assert (∀ x, x ∈ T → x ∈ T ∨ x = n ∧ begun Exited = true) by auto.
      by apply (Running_replace s _ zs1 (Finishing node err []) _ n zs2 T).
    + cbn [option_list]. rewrite app_nil_r. intros Hs.
      split; [exact (run_nodup _ _ _ _ _ HR)|].
      split; [exact (run_ordered _ _ _ _ _ HR)|]. intros _.
      destruct Hpr as [E _]. cbn [snd] in E. subst node. injection Hs as <-.
      eexists. exact (Running_release s zs1 n err child rest zs2 T HR).
    + cbn [option_list]. rewrite app_nil_r. intros Hs.
      pose proof (run_nodup _ _ _ _ _ HR) as HT.
      pose proof (run_ordered _ _ _ _ _ HR) as Hor.
      split; [done|]. split; [done|]. intros _.
      unfold send in Hs. destruct (_ <? _)%nat; [|done].
      cbn [mbind option_bind] in Hs. injection Hs as <-.
      destruct Hpr as [E Hsuf]. cbn [fst snd] in *.
      exists (zs1 ++ (Finishing node err rest, n) :: zs2).
      assert (proper kids (Finishing node err rest, n)).
      { split; [done|]. cbn [snd]. destruct Hsuf as [pre ->]. exists (pre ++ [child]).
        by rewrite <- app_assoc. }
      assert (begun (Finishing node err rest) = true → n ∈ T).
      { intros _. apply (run_begun _ _ _ _ _ HR (Sending node err child rest, n)); [|done].
        apply elem_of_app. right. left. }
      assert (∀ x, x ∈ T → x ∈ T ∨ x = n ∧ begun (Finishing node err rest) = true) by auto.
      apply (Running_replace s _ zs1 (Sending node err child rest) _ n zs2 T); try done.
      cbn [readyChan buffer waits]. by rewrite app_nil_r.
    + done.
Qed.

(** [Run] starts in a state of the invariant. *)
Lemma Running_start range dag :
  fair range → NoDup (vertices h dag) → (∀ p, p ∈ vertices h dag → allocated h p) →
  Running rev h (Run_start range h dag) [] [].
Proof.
  intros Hfair Hnd Hal.
  assert (Hrel : released h (Run_start range h dag) []
                 = filter (λ p, indegree (nodeAt h p) = 0)
                     (range (nodes (dagAt h dag))).*2).
  { unfold released, Run_start. cbn. by rewrite app_nil_r. }
  split; try done.
  - intros p. cbn [store Run_start]. by rewrite set_indegree_same.
  - rewrite Hrel. apply NoDup_filter. by rewrite (range_vertices range Hfair).
  - intros q. rewrite Hrel. intros [_ Hq]%list_elem_of_filter.
    apply Hal. by rewrite <- (range_vertices range Hfair).
  - intros q Hq. cbn [store Run_start].
    destruct (mirrored_indegree _ HL q Hq) as [-> _]. f_equal. f_equal. symmetry.
    apply filter_all. unfold served. by intros p _ ?%Exists_nil.
  - intros q. rewrite Hrel. by intros [E _]%list_elem_of_filter.
  - intros z ?%elem_of_nil. done.
  - intros n ?%elem_of_nil. done.
  - constructor.
Qed.

Lemma ran_crashed cs s : crashed s = true → ran rev cs s = [].
Proof. intros E. destruct cs as [|c cs]; [done|]. cbn [ran]. unfold step. by rewrite E. Qed.

(** Under every schedule the tasks are called in order, none of them
    twice. *)
Lemma Running_ran cs s zs T :
  Running rev h s zs T →
  NoDup (T ++ ran rev cs s) ∧ ordered h (T ++ ran rev cs s).
Proof.
  revert s zs T. induction cs as [|c cs IH]; intros s zs T HR.
  - cbn [ran]. rewrite app_nil_r.
    split; [exact (run_nodup _ _ _ _ _ HR)|exact (run_ordered _ _ _ _ _ HR)].
  - cbn [ran]. destruct (step rev c s) as [s'|] eqn:Es.
    + destruct (Running_step s zs T c s' HR Es) as (HT & Hor & Hnext).
      destruct (crashed s') eqn:Ecr.
      * rewrite ran_crashed by done. by rewrite app_nil_r.
      * destruct (Hnext eq_refl) as [zs' HR']. rewrite app_assoc. by apply (IH s' zs').
    + rewrite app_nil_r.
      split; [exact (run_nodup _ _ _ _ _ HR)|exact (run_ordered _ _ _ _ _ HR)].
Qed.

(** What holds of every node whose goroutine is about to call its task
    holds of every node whose task is called. *)
Lemma Running_ran_all (Q : nptr → Prop) :
  (∀ s zs T i n, Running rev h s zs T → goroutines s !! i = Some (Starting n) → Q n) →
  ∀ cs s zs T, Running rev h s zs T → Forall Q (ran rev cs s).
Proof.
  intros HQ cs. induction cs as [|c cs IH]; intros s zs T HR; [constructor|].
  cbn [ran]. destruct (step rev c s) as [s'|] eqn:Es; [|constructor].
  destruct (Running_step s zs T c s' HR Es) as (_ & _ & Hnext).
  apply Forall_app. split.
  - destruct c as [|i]; [constructor|]. cbn [calls].
    destruct (goroutines s !! i) as [[n| | |]|] eqn:Ei; try constructor; [|constructor].
    by apply (HQ s zs T i n).
  - destruct (crashed s') eqn:Ecr; [rewrite ran_crashed by done; constructor|].
    destruct (Hnext eq_refl) as [zs' HR']. exact (IH s' zs' _ HR').
Qed.

Lemma Running_call_allocated s zs T i n :
  Running rev h s zs T → goroutines s !! i = Some (Starting n) → allocated h n.
Proof.
  intros HR Hi. rewrite (run_goroutines _ _ _ _ _ HR) in Hi.
  apply lookup_fst_split in Hi as (zs1 & n' & zs2 & Ezs & _).
  assert (Hin : (Starting n, n') ∈ zs) by (rewrite Ezs; apply elem_of_app; right; left).
  assert (n = n') as <-.
  { pose proof (run_proper _ _ _ _ _ HR) as Hp. rewrite Forall_forall in Hp.
    exact (Hp _ Hin). }
  exact (run_allocated _ _ _ _ _ HR n (node_released s zs _ Hin)).
Qed.

End running.

(** With the empty [RunNodeDone] only nodes without dependencies are ever
    started. *)
Lemma Running_call_stub h s zs T i n :
  Mirrored h → Running Stub h s zs T → goroutines s !! i = Some (Starting n) →
  indegree (nodeAt h n) = 0.
Proof.
  intros HL HR Hi. pose proof (Running_call_allocated Stub h s zs T i n HR Hi) as Hn.
  rewrite (run_goroutines _ _ _ _ _ HR) in Hi.
  apply lookup_fst_split in Hi as (zs1 & n' & zs2 & Ezs & _).
  assert (Hin : (Starting n, n') ∈ zs) by (rewrite Ezs; apply elem_of_app; right; left).
  assert (n = n') as <-.
  { pose proof (run_proper _ _ _ _ _ HR) as Hp. rewrite Forall_forall in Hp.
    exact (Hp _ Hin). }
  pose proof (node_released h s zs _ Hin) as Hrel. cbn [snd] in Hrel.
  pose proof (run_count _ _ _ _ _ HR n Hn) as Hc.
  rewrite (run_ready _ _ _ _ _ HR n Hrel) in Hc.
  destruct (mirrored_indegree _ HL n Hn) as [-> _].
  destruct (dependsOn (nodeAt h n)) as [|p l] eqn:Ed; [done|]. exfalso.
  apply (filter_lets_none (λ p, ¬ served (RunNodeDone_children Stub h) zs p n) (p :: l)
           ltac:(lia) p); [left|].
  unfold served. rewrite Exists_exists. intros ([g m] & _ & _ & Hd).
  unfold done_of in Hd. cbn in Hd. destruct g; cbn in Hd; rewrite ?take_nil in Hd;
    by apply elem_of_nil in Hd.
Qed.

(** *** Graphs built by clean calls, with tasks *)

Lemma set_task_twice v w n : set_task v (set_task w n) = set_task v n.
Proof. by destruct n. Qed.

Lemma set_task_same n : set_task (task n) n = n.
Proof. by destruct n. Qed.

Lemma nodeAt_withTasks ts h q :
  nodeAt (withTasks ts h) q = set_task (task (nodeAt (withTasks ts h) q)) (nodeAt h q).
Proof.
  induction ts as [|[p t] ts IH]; cbn [withTasks foldr fst snd].
  - by rewrite set_task_same.
  - fold (withTasks ts h). unfold SetTask. rewrite nodeAt_updNode. case_decide as E.
    + subst q. rewrite IH. cbn [task set_task]. by rewrite set_task_twice.
    + apply IH.
Qed.

Lemma nodeCount_withTasks ts h : nodeCount (withTasks ts h) = nodeCount h.
Proof. induction ts as [|[p t] ts IH]; [done|]. exact IH. Qed.

Lemma dagAt_withTasks ts h dag : dagAt (withTasks ts h) dag = dagAt h dag.
Proof. induction ts as [|[p t] ts IH]; [done|]. exact IH. Qed.

Lemma vertices_withTasks ts h dag : vertices (withTasks ts h) dag = vertices h dag.
Proof. unfold vertices. by rewrite dagAt_withTasks. Qed.

Lemma Mirrored_withTasks ts h : Mirrored h → Mirrored (withTasks ts h).
Proof.
  intros [H1 H2 H3 H4].
  assert (Ec : ∀ q, children (nodeAt (withTasks ts h) q) = children (nodeAt h q))
    by (intros q; by rewrite nodeAt_withTasks).
  assert (Ed : ∀ q, dependsOn (nodeAt (withTasks ts h) q) = dependsOn (nodeAt h q))
    by (intros q; by rewrite nodeAt_withTasks).
  assert (Ei : ∀ q, indegree (nodeAt (withTasks ts h) q) = indegree (nodeAt h q))
    by (intros q; by rewrite nodeAt_withTasks).
  assert (Ea : ∀ q, allocated (withTasks ts h) q ↔ allocated h q)
    by (intros q; unfold allocated; by rewrite nodeCount_withTasks).
  split.
  - intros p q. rewrite !Ea, Ec, Ed. apply H1.
  - intros p. rewrite Ea, Ec. apply H2.
  - intros q. rewrite Ea, Ed. apply H3.
  - intros q. rewrite Ea, Ei, Ed. apply H4.
Qed.

Lemma Mirrored_build cs :
  clean cs = true → Z.of_nat (length cs) < 2 ^ 60 → Mirrored (build cs).1.
Proof.
  intros Hclean Hsmall.
  pose proof (Inv_build cs Hclean Hsmall) as HI.
  pose proof (Wired_build cs Hclean Hsmall) as HW.
  split.
  - intros p q Hp Hq.
    assert (Ha : allocated (build cs).1 q) by by apply (Inv_children_alloc _ _ _ p q HI).
    split; [done|]. by apply (wired_mirror _ HW).
  - apply (wired_children _ HW).
  - apply (wired_dependsOn _ HW).
  - intros q Hq. split; [by apply (inv_in _ _ _ HI)|].
    destruct (inv_bound _ _ _ HI q Hq) as [_ Hb]. lia.
Qed.

(** [Run] on a graph built by clean calls whose nodes have been given
    tasks: under every schedule and in both revisions of flow.go, the nodes
    whose tasks are called are vertices of the graph, no task is called
    twice, and a task is called only after the tasks of all the nodes it
    depends on. *)
Theorem Run_order rev range cs ts sched :
  fair range → clean cs = true → Z.of_nat (length cs) < 2 ^ 60 →
  let h := withTasks ts (build cs).1 in
  let T := ran rev sched (Run_start range h (build cs).2) in
  NoDup T
  ∧ (∀ n, n ∈ T → n ∈ vertices h (build cs).2)
  ∧ (∀ i q, T !! i = Some q → ∀ p, p ∈ dependsOn (nodeAt h q) → p ∈ take i T).
Proof.
  intros Hfair Hclean Hsmall h T.
  pose proof (Inv_build cs Hclean Hsmall) as HI.
  pose proof (Mirrored_withTasks ts _ (Mirrored_build cs Hclean Hsmall)) as HL.
  fold h in HL.
  assert (Hv : vertices h (build cs).2 ≡ₚ seq 0%nat (nodeCount h)).
  { unfold h. rewrite vertices_withTasks, nodeCount_withTasks. by apply (Inv_vertices _ _ _ HI). }
  assert (HR : Running rev h (Run_start range h (build cs).2) [] []).
  { apply Running_start; [done|done| |].
    - rewrite Hv. apply NoDup_seq.
    - intros p. rewrite Hv, elem_of_seq. unfold allocated. lia. }
  destruct (Running_ran rev h HL sched _ [] [] HR) as [Hnd Hor].
  split; [done|]. split; [|exact Hor].
  pose proof (Running_ran_all rev h HL (allocated h)
                (Running_call_allocated rev h) sched _ [] [] HR) as Hall.
  rewrite Forall_forall in Hall. intros n Hn%Hall.
  rewrite Hv, elem_of_seq. unfold allocated in Hn. lia.
Qed.

(** In the revision of flow.go whose [RunNodeDone] has an empty body, the
    only tasks ever called are those of the vertices with indegree 0. *)
Theorem Run_stub_starts range cs ts sched :
  fair range → clean cs = true → Z.of_nat (length cs) < 2 ^ 60 →
  let h := withTasks ts (build cs).1 in
  ∀ n, n ∈ ran Stub sched (Run_start range h (build cs).2) →
       n ∈ starts h (build cs).2.
Proof.
  intros Hfair Hclean Hsmall h.
  pose proof (Inv_build cs Hclean Hsmall) as HI.
  pose proof (Mirrored_withTasks ts _ (Mirrored_build cs Hclean Hsmall)) as HL.
  fold h in HL.
  assert (Hv : vertices h (build cs).2 ≡ₚ seq 0%nat (nodeCount h)).
  { unfold h. rewrite vertices_withTasks, nodeCount_withTasks. by apply (Inv_vertices _ _ _ HI). }
  assert (HR : Running Stub h (Run_start range h (build cs).2) [] []).
  { apply Running_start; [done|done| |].
    - rewrite Hv. apply NoDup_seq.
    - intros p. rewrite Hv, elem_of_seq. unfold allocated. lia. }
  pose proof (Running_ran_all Stub h HL
                (λ n, allocated h n ∧ indegree (nodeAt h n) = 0)) as Hall.
  intros n Hn. unfold starts. apply list_elem_of_filter.
  assert (HF : Forall (λ n, allocated h n ∧ indegree (nodeAt h n) = 0)
                 (ran Stub sched (Run_start range h (build cs).2))).
  { apply Hall with (zs := []) (T := []); [|exact HR].
    intros s zs T i m HRs Hi. split.
    - by apply (Running_call_allocated Stub h s zs T i m).
    - by apply (Running_call_stub h s zs T i m). }
  rewrite Forall_forall in HF. pose proof (HF n Hn) as Hq.
  destruct Hq as [Ha E0]. split; [done|].
  rewrite Hv, elem_of_seq. unfold allocated in Ha. lia.
Qed.

(** ** The properties on the graph [fork] *)

Lemma fork_small : Z.of_nat (length fork) < 2 ^ 60.
Proof. vm_compute. reflexivity. Defined.

Lemma fork_children_A : children (nodeAt (build fork).1 0%nat) = [1%nat; 2%nat].
Proof. by vm_compute. Defined.

Lemma fork_children_B : children (nodeAt (build fork).1 1%nat) = [].
Proof. by vm_compute. Defined.

Lemma fork_children_C : children (nodeAt (build fork).1 2%nat) = [].
Proof. by vm_compute. Defined.

Lemma build_adjacency_witness :
  clean fork = true ∧ Z.of_nat (length fork) < 2 ^ 60
  ∧ nodes (dagAt (build fork).1 (build fork).2) !! "A"%string = Some 0%nat
  ∧ let h := (build fork).1 in
    let dag := (build fork).2 in
    indegree (nodeAt h 0%nat) = Z.of_nat (length (dependsOn (nodeAt h 0%nat)))
    ∧ outdegree (nodeAt h 0%nat) = Z.of_nat (length (children (nodeAt h 0%nat)))
    ∧ NoDup (children (nodeAt h 0%nat))
    ∧ NoDup (dependsOn (nodeAt h 0%nat))
    ∧ (∀ q, q ∈ children (nodeAt h 0%nat) →
            0%nat ∈ dependsOn (nodeAt h q)
            ∧ nodes (dagAt h dag) !! Id (nodeAt h q) = Some q)
    ∧ (∀ q, q ∈ dependsOn (nodeAt h 0%nat) →
            0%nat ∈ children (nodeAt h q)
            ∧ nodes (dagAt h dag) !! Id (nodeAt h q) = Some q).
Proof.
  split; [reflexivity|]. split; [exact fork_small|]. split; [reflexivity|].
  exact (build_adjacency fork "A" 0%nat eq_refl fork_small eq_refl).
Defined.

Lemma build_closure_witness :
  clean fork = true ∧ Z.of_nat (length fork) < 2 ^ 60
  ∧ nodes (dagAt (build fork).1 (build fork).2) !! "A"%string = Some 0%nat
  ∧ nodes (dagAt (build fork).1 (build fork).2) !! "B"%string = Some 1%nat
  ∧ (1%nat ∈ next (nodeAt (build fork).1 0%nat) ↔ tc (edge (build fork).1) 0%nat 1%nat)
  ∧ (0%nat ∈ prev (nodeAt (build fork).1 1%nat) ↔ tc (edge (build fork).1) 0%nat 1%nat).
Proof.
  split; [reflexivity|]. split; [exact fork_small|]. split; [reflexivity|].
  split; [reflexivity|].
  exact (build_closure fork "A" "B" 0%nat 1%nat eq_refl fork_small eq_refl eq_refl).
Defined.

Lemma AddEdge_duplicate_witness :
  clean fork = true ∧ Z.of_nat (length fork) < 2 ^ 60
  ∧ nodes (dagAt (build fork).1 (build fork).2) !! "A"%string = Some 0%nat
  ∧ nodes (dagAt (build fork).1 (build fork).2) !! "B"%string = Some 1%nat
  ∧ 1%nat ∈ children (nodeAt (build fork).1 0%nat)
  ∧ AddEdge (build fork).2 "A" "B" (build fork).1
    = ((build fork).1, Some ErrDuplicateEdge).
Proof.
  assert (Hc : 1%nat ∈ children (nodeAt (build fork).1 0%nat))
    by (rewrite fork_children_A; left).
  split; [reflexivity|]. split; [exact fork_small|]. split; [reflexivity|].
  split; [reflexivity|]. split; [exact Hc|].
  exact (AddEdge_duplicate fork "A" "B" 0%nat 1%nat eq_refl fork_small eq_refl eq_refl Hc).
Defined.

Lemma AddEdge_rejects_cycle_witness :
  clean fork = true ∧ Z.of_nat (length fork) < 2 ^ 60
  ∧ nodes (dagAt (build fork).1 (build fork).2) !! "B"%string = Some 1%nat
  ∧ nodes (dagAt (build fork).1 (build fork).2) !! "A"%string = Some 0%nat
  ∧ tc (edge (build fork).1) 0%nat 1%nat
  ∧ AddEdge (build fork).2 "B" "A" (build fork).1 = ((build fork).1, Some ErrCyclic).
Proof.
  assert (Hc : tc (edge (build fork).1) 0%nat 1%nat).
  { apply tc_once. unfold edge. rewrite fork_children_A. left. }
  split; [reflexivity|]. split; [exact fork_small|]. split; [reflexivity|].
  split; [reflexivity|]. split; [exact Hc|].
  exact (AddEdge_rejects_cycle fork "B" "A" 1%nat 0%nat eq_refl fork_small
           eq_refl eq_refl Hc).
Defined.

Lemma AddEdge_links_witness :
  clean fork = true ∧ Z.of_nat (length fork) < 2 ^ 60
  ∧ nodes (dagAt (build fork).1 (build fork).2) !! "B"%string = Some 1%nat
  ∧ nodes (dagAt (build fork).1 (build fork).2) !! "C"%string = Some 2%nat
  ∧ "B"%string ≠ "C"%string
  ∧ (2%nat ∉ children (nodeAt (build fork).1 1%nat))
  ∧ (¬ tc (edge (build fork).1) 2%nat 1%nat)
  ∧ let h := (build fork).1 in
    let dag := (build fork).2 in
    let h' := (AddEdge dag "B" "C" h).1 in
    (AddEdge dag "B" "C" h).2 = None
    ∧ nodes (dagAt h' dag) = nodes (dagAt h dag)
    ∧ children (nodeAt h' 1%nat) = children (nodeAt h 1%nat) ++ [2%nat]
    ∧ dependsOn (nodeAt h' 2%nat) = dependsOn (nodeAt h 2%nat) ++ [1%nat]
    ∧ outdegree (nodeAt h' 1%nat) = outdegree (nodeAt h 1%nat) + 1
    ∧ indegree (nodeAt h' 2%nat) = indegree (nodeAt h 2%nat) + 1
    ∧ forwarder (nodeAt h' 1%nat) !! "C"%string = Some (Some DefaultForwarder)
    ∧ hasEdge (dagAt h' dag) = true
    ∧ (∀ r, r ≠ 1%nat → children (nodeAt h' r) = children (nodeAt h r)
                         ∧ outdegree (nodeAt h' r) = outdegree (nodeAt h r))
    ∧ (∀ r, r ≠ 2%nat → dependsOn (nodeAt h' r) = dependsOn (nodeAt h r)
                         ∧ indegree (nodeAt h' r) = indegree (nodeAt h r)).
Proof.
  assert (Hne : "B"%string ≠ "C"%string) by discriminate.
  assert (Hc : 2%nat ∉ children (nodeAt (build fork).1 1%nat))
    by (rewrite fork_children_B; apply not_elem_of_nil).
  assert (Ht : ¬ tc (edge (build fork).1) 2%nat 1%nat).
  { intros Htc.
    inversion Htc as [? ? He|? y ? He]; unfold edge in He;
      rewrite fork_children_C in He; by apply elem_of_nil in He. }
  split; [reflexivity|]. split; [exact fork_small|]. split; [reflexivity|].
  split; [reflexivity|]. split; [exact Hne|]. split; [exact Hc|]. split; [exact Ht|].
  exact (AddEdge_links fork "B" "C" 1%nat 2%nat eq_refl fork_small eq_refl eq_refl
           Hne Hc Ht).
Defined.

Lemma AddEdge_vertices_witness :
  clean fork = true ∧ Z.of_nat (length fork) < 2 ^ 60
  ∧ "B"%string ≠ "D"%string
  ∧ let h := (build fork).1 in
    let dag := (build fork).2 in
    let h' := (AddEdge dag "B" "D" h).1 in
    is_Some (nodes (dagAt h' dag) !! "B"%string)
    ∧ is_Some (nodes (dagAt h' dag) !! "D"%string)
    ∧ (∀ k r, nodes (dagAt h dag) !! k = Some r → nodes (dagAt h' dag) !! k = Some r)
    ∧ (∀ k, is_Some (nodes (dagAt h' dag) !! k) →
            is_Some (nodes (dagAt h dag) !! k) ∨ k = "B"%string ∨ k = "D"%string).
Proof.
  assert (Hne : "B"%string ≠ "D"%string) by discriminate.
  split; [reflexivity|]. split; [exact fork_small|]. split; [exact Hne|].
  exact (AddEdge_vertices fork "B" "D" eq_refl fork_small Hne).
Defined.

Lemma build_flags_witness :
  clean fork = true ∧ Z.of_nat (length fork) < 2 ^ 60
  ∧ let h := (build fork).1 in
    let dag := (build fork).2 in
    (hasEdge (dagAt h dag) = true
     ↔ ∃ id p, nodes (dagAt h dag) !! id = Some p ∧ children (nodeAt h p) ≠ [])
    ∧ (hasBranch (dagAt h dag) = true
       ↔ ∃ id p, nodes (dagAt h dag) !! id = Some p
                 ∧ (1 < indegree (nodeAt h p) ∨ 1 < outdegree (nodeAt h p)))
    ∧ executionFlow (dagAt h dag) = negb (hasEdge (dagAt h dag)).
Proof.
  split; [reflexivity|]. split; [exact fork_small|].
  exact (build_flags fork eq_refl fork_small).
Defined.

Lemma build_indices_witness :
  clean fork = true ∧ Z.of_nat (length fork) < 2 ^ 60
  ∧ let h := (build fork).1 in
    let dag := (build fork).2 in
    nodeIndex (dagAt h dag) = Z.of_nat (size (nodes (dagAt h dag)))
    ∧ (∀ id p, nodes (dagAt h dag) !! id = Some p →
               1 ≤ index (nodeAt h p) ≤ Z.of_nat (size (nodes (dagAt h dag))))
    ∧ (∀ id id' p q,
         nodes (dagAt h dag) !! id = Some p → nodes (dagAt h dag) !! id' = Some q →
         index (nodeAt h p) = index (nodeAt h q) → id = id').
Proof.
  split; [reflexivity|]. split; [exact fork_small|].
  exact (build_indices fork eq_refl fork_small).
Defined.

Lemma Run_first_loop_witness :
  fair listed
  ∧ let h := (build fork).1 in
    let dag := (build fork).2 in
    exec Cascade (replicate (S (size (nodes (dagAt h dag)))) Main) (Run_start listed h dag)
    = Some (mkRunState h
              (mkChan (filter (λ p, indegree (nodeAt h p) = 0)
                         (listed (nodes (dagAt h dag))).*2)
                      (size (nodes (dagAt h dag))) false)
              NewDataSet Receiving [] false)
    ∧ filter (λ p, indegree (nodeAt h p) = 0) (listed (nodes (dagAt h dag))).*2
      ≡ₚ starts h dag.
Proof.
  split; [exact fair_listed|].
  exact (Run_first_loop Cascade listed (build fork).1 (build fork).2 fair_listed).
Defined.

Lemma Run_without_tasks_witness :
  fair listed ∧ clean fork = true ∧ Z.of_nat (length fork) < 2 ^ 60
  ∧ let h := (build fork).1 in
    let dag := (build fork).2 in
    (∀ id p, nodes (dagAt h dag) !! id = Some p → task (nodeAt h p) = None)
    ∧ (∀ sched s, exec Cascade sched (Run_start listed h dag) = Some s →
                  store s = h ∧ data s = NewDataSet
                  ∧ ∀ i g, goroutines s !! i = Some g → ∃ n, g = Starting n)
    ∧ (nodes (dagAt h dag) ≠ ∅ →
       ∃ sched s, exec Cascade sched (Run_start listed h dag) = Some s
                  ∧ crashed s = true).
Proof.
  split; [exact fair_listed|]. split; [reflexivity|]. split; [exact fork_small|].
  exact (Run_without_tasks Cascade listed fork fair_listed eq_refl fork_small).
Defined.

Lemma fork_one_start : length (starts (build fork).1 (build fork).2) = 1%nat.
Proof. by vm_compute. Defined.

Lemma Validate_records_witness :
  fair listed ∧ clean fork = true ∧ Z.of_nat (length fork) < 2 ^ 60
  ∧ length (starts (build fork).1 (build fork).2) = 1%nat
  ∧ let h := (build fork).1 in
    let dag := (build fork).2 in
    ∃ h' s,
      Validate listed 1 dag h = (h', Returns None)
      ∧ starts h dag = [s]
      ∧ initialNode (dagAt h' dag) = Some s
      ∧ (∀ id p, nodes (dagAt h dag) !! id = Some p →
                 nodes (dagAt h' dag) !! id = Some p
                 ∧ Id (nodeAt h' p) = id
                 ∧ uniqueId (nodeAt h' p)
                   = "0_" +:+ pretty (index (nodeAt h p)) +:+ "_" +:+ id)
      ∧ (∀ e, exits h dag = [e] →
              nodes (dagAt h' dag) = nodes (dagAt h dag)
              ∧ endNode (dagAt h' dag) = Some e)
      ∧ ((1 < length (exits h dag))%nat →
         ∃ E, endNode (dagAt h' dag) = Some E
              ∧ Id (nodeAt h' E) = "end_0"%string
              ∧ uniqueId (nodeAt h' E) = EmptyString).
Proof.
  split; [exact fair_listed|]. split; [reflexivity|]. split; [exact fork_small|].
  split; [exact fork_one_start|].
  exact (Validate_records listed fork 0 fair_listed eq_refl fork_small fork_one_start).
Defined.

Lemma fork_flat id p :
  nodes (dagAt (build fork).1 (build fork).2) !! id = Some p →
  dynamic (nodeAt (build fork).1 p) = true ∨ subDag (nodeAt (build fork).1 p) = None.
Proof.
  intros Hid. right.
  pose proof (Inv_build fork eq_refl fork_small) as HI.
  destruct (inv_key _ _ _ HI _ _ Hid) as [Ha _].
  by destruct (inv_plain _ _ _ HI p Ha) as (_ & ? & _).
Defined.

Lemma GetNodes_flat_witness :
  fair listed
  ∧ (∀ id p, nodes (dagAt (build fork).1 (build fork).2) !! id = Some p →
             dynamic (nodeAt (build fork).1 p) = true
             ∨ subDag (nodeAt (build fork).1 p) = None)
  ∧ ∃ l, GetNodes listed 1 (build fork).1 (build fork).2 EmptyString = Some l
         ∧ l ≡ₚ nodeIdFor (build fork).1 EmptyString
                  <$> vertices (build fork).1 (build fork).2
         ∧ length l = size (nodes (dagAt (build fork).1 (build fork).2)).
Proof.
  split; [exact fair_listed|]. split; [exact fork_flat|].
  exact (GetNodes_flat listed 0 (build fork).1 (build fork).2 EmptyString
           fair_listed fork_flat).
Defined.

Lemma forkAndDag_nesting : nesting forkAndDag (parentDag (nodeAt forkAndDag 0%nat)) [0%nat].
Proof. apply (nesting_root forkAndDag 0%nat). by vm_compute. Defined.

Lemma AddSubDag_nesting_witness :
  nesting forkAndDag (parentDag (nodeAt forkAndDag 0%nat)) [0%nat]
  ∧ (length [0%nat] ≤ 1)%nat
  ∧ AddSubDag 1 0%nat 1%nat forkAndDag
    = Some (if decide (1%nat ∈ [0%nat]) then (forkAndDag, Some ErrRecursiveDep)
            else (updDag 1%nat (set_parentNode (Some 0%nat))
                    (updNode 0%nat (set_subDag (Some 1%nat)) forkAndDag), None)).
Proof.
  split; [exact forkAndDag_nesting|]. split; [simpl; lia|].
  exact (AddSubDag_nesting 1 0%nat 1%nat forkAndDag [0%nat] forkAndDag_nesting
           (le_n 1)).
Defined.

Lemma forkAndDag_AddSubDag :
  AddSubDag 1 0%nat 1%nat forkAndDag
  = Some (updDag 1%nat (set_parentNode (Some 0%nat))
            (updNode 0%nat (set_subDag (Some 1%nat)) forkAndDag), None).
Proof. by vm_compute. Defined.

Lemma AddSubDag_accepted_witness :
  AddSubDag 1 0%nat 1%nat forkAndDag
  = Some (updDag 1%nat (set_parentNode (Some 0%nat))
            (updNode 0%nat (set_subDag (Some 1%nat)) forkAndDag), None)
  ∧ let h := forkAndDag in
    let h' := updDag 1%nat (set_parentNode (Some 0%nat))
                (updNode 0%nat (set_subDag (Some 1%nat)) forkAndDag) in
    1%nat ≠ parentDag (nodeAt h 0%nat)
    ∧ subDag (nodeAt h' 0%nat) = Some 1%nat
    ∧ parentNode (dagAt h' 1%nat) = Some 0%nat
    ∧ nodes (dagAt h' 1%nat) = nodes (dagAt h 1%nat)
    ∧ (∀ p, p ≠ 0%nat → nodeAt h' p = nodeAt h p)
    ∧ (∀ d, d ≠ 1%nat → dagAt h' d = dagAt h d).
Proof.
  split; [exact forkAndDag_AddSubDag|].
  exact (AddSubDag_accepted 1 0%nat 1%nat forkAndDag _ forkAndDag_AddSubDag).
Defined.

(** The run of [fork] under [forkSchedule]: [A], then [C], then [B]. *)
Lemma Run_order_fork :
  ran Cascade forkSchedule
    (Run_start listed (withTasks forkTasks (build fork).1) (build fork).2)
  = [0%nat; 2%nat; 1%nat].
Proof. by vm_compute. Qed.

Lemma Run_order_witness :
  fair listed ∧ clean fork = true ∧ Z.of_nat (length fork) < 2 ^ 60
  ∧ let h := withTasks forkTasks (build fork).1 in
    let T := ran Cascade forkSchedule (Run_start listed h (build fork).2) in
    NoDup T
    ∧ (∀ n, n ∈ T → n ∈ vertices h (build fork).2)
    ∧ (∀ i q, T !! i = Some q → ∀ p, p ∈ dependsOn (nodeAt h q) → p ∈ take i T).
Proof.
  split; [exact fair_listed|]. split; [reflexivity|]. split; [exact fork_small|].
  exact (Run_order Cascade listed fork forkTasks forkSchedule fair_listed eq_refl
           fork_small).
Defined.

Lemma Run_stub_starts_witness :
  fair listed ∧ clean fork = true ∧ Z.of_nat (length fork) < 2 ^ 60
  ∧ let h := withTasks forkTasks (build fork).1 in
    ∀ n, n ∈ ran Stub forkSchedule (Run_start listed h (build fork).2) →
         n ∈ starts h (build fork).2.
Proof.
  split; [exact fair_listed|]. split; [reflexivity|]. split; [exact fork_small|].
  exact (Run_stub_starts listed fork forkTasks forkSchedule fair_listed eq_refl
           fork_small).
Defined.
